(** * Infectious disease simulation: road network and epidemic engine

    A shallow embedding of the algorithmic core of the simulation
    (priority queue and shortest paths of [dijkstra.py], union-find and
    Kruskal of [mst.py], the leaf connections of
    [additional_connections.py], the Bernoulli trials of [disease.py] and
    the agent and population updates of [person.py] and [population.py]),
    with the properties stated about them.

    Conventions: a Python [int] is a [Z]; a [tuple[int, int]] node is a
    pair of [Z]; a Python [float] is a binary64 primitive float; a [dict]
    is a [gmap]; a [list] is a [list]; an exception ([KeyError],
    [IndexError]) is [None] in an [option]. *)

From Stdlib Require Import ZArith Lia Floats.
From Equations Require Import Equations.
From stdpp Require Import gmap list sorting.

Local Open Scope Z_scope.

(** A node of a graph: the [tuple[int, int]] coordinates of a building. *)
Abbreviation node := (Z * Z)%type.

(** ** dijkstra.py: class PriorityQueue *)

Module PriorityQueue.
Section Queue.
(** Python compares the priorities with [<]; the queue is generic in
    what they are (the callers pass tentative distances). *)
Context {P : Type} (plt : P -> P -> bool).

(** [__elements]: a list of [(priority, item)] tuples. *)
Abbreviation elements := (list (P * node)).

Definition is_empty (q : elements) : bool :=
  bool_decide (length q = 0%nat).

(** [__swap]: [e[i], e[j] = e[j], e[i]].  Both callers pass indices
    below [len(e)]; outside that range Python raises and nothing is
    swapped. *)
Definition swap (i j : nat) (q : elements) : elements :=
  match q !! i, q !! j with
  | Some a, Some b => <[j:=a]> (<[i:=b]> q)
  | _, _ => q
  end.

(** [e[i][0] < e[j][0]], for indices in range. *)
Definition prio_lt (q : elements) (i j : nat) : bool :=
  match q !! i, q !! j with
  | Some a, Some b => plt a.1 b.1
  | _, _ => false
  end.

Lemma swap_length i j q : length (swap i j q) = length q.
Proof. unfold swap. destruct (q !! i), (q !! j); rewrite ?length_insert; done. Qed.

(** [__bubble_up]: [parent_index = (index - 1) // 2], swap and recurse
    while [index > 0] and the element is smaller than its parent. *)
Equations? bubble_up (index : nat) (q : elements) : elements by wf index lt :=
  bubble_up 0 q := q;
  bubble_up (S i) q :=
    let parent_index := (i / 2)%nat in
    if prio_lt q (S i) parent_index
    then bubble_up parent_index (swap (S i) parent_index q)
    else q.
Proof. pose proof (Nat.Div0.div_le_upper_bound i 2 i). lia. Qed.

(** The child chosen by [__bubble_down]: the left one, or the right one
    when it exists and is smaller. *)
Definition smallest_child (index : nat) (q : elements) : nat :=
  let child_index := (2 * index + 1)%nat in
  let right_child_index := (child_index + 1)%nat in
  if bool_decide (right_child_index < length q)%nat
     && prio_lt q right_child_index child_index
  then right_child_index
  else child_index.

Lemma smallest_child_gt index q : (index < smallest_child index q)%nat.
Proof. unfold smallest_child. simpl. case_match; lia. Qed.

(** [__bubble_down]. *)
Equations? bubble_down (index : nat) (q : elements) : elements
  by wf (length q - index)%nat lt :=
  bubble_down index q with decide (2 * index + 1 < length q)%nat := {
    | left _ :=
        let child_index := smallest_child index q in
        if prio_lt q child_index index
        then bubble_down child_index (swap index child_index q)
        else q
    | right _ := q }.
Proof. rewrite swap_length. pose proof (smallest_child_gt index q). lia. Qed.

(** [insert_item]: append, then bubble the new last element up. *)
Definition insert_item (item : node) (priority : P) (q : elements) : elements :=
  let q' := q ++ [(priority, item)] in
  bubble_up (length q' - 1) q'.

(** [pop_item]: [None] is the [IndexError] of an empty queue.  With one
    element the list is emptied; otherwise [pop(0)] removes the first
    element, every other element moves one place to the left, and
    [__bubble_down(0)] is run on what is left. *)
Definition pop_item (q : elements) : option (node * elements) :=
  match q with
  | [] => None
  | [e] => Some (e.2, [])
  | e :: rest => Some (e.2, bubble_down 0 rest)
  end.

End Queue.

(** A sequence of queue operations, run from the left; the items popped
    are collected in order.  A pop on an empty queue stops the run, as the
    exception does. *)
Inductive op (P : Type) :=
| Insert (item : node) (priority : P)
| Pop.
Arguments Insert {P} item priority.
Arguments Pop {P}.

Fixpoint run {P} (plt : P -> P -> bool) (ops : list (op P)) (q : list (P * node))
  : option (list node * list (P * node)) :=
  match ops with
  | [] => Some ([], q)
  | Insert item priority :: ops' => run plt ops' (insert_item plt item priority q)
  | Pop :: ops' =>
      match pop_item plt q with
      | None => None
      | Some (item, q') =>
          match run plt ops' q' with
          | None => None
          | Some (items, q'') => Some (item :: items, q'')
          end
      end
  end.

End PriorityQueue.

(** ** dijkstra.py: class Dijkstra *)

Module Dijkstra.
Import PriorityQueue.

(** A tentative distance: an [int], or [float('inf')]. *)
Inductive dist :=
| Fin (d : Z)
| Inf.

#[global] Instance dist_eq_dec : EqDecision dist.
Proof. solve_decision. Defined.

(** [d + weight] and [a < b] on ints and [inf]. *)
Definition dist_add (a : dist) (w : Z) : dist :=
  match a with
  | Fin d => Fin (d + w)
  | Inf => Inf
  end.

Definition dist_ltb (a b : dist) : bool :=
  match a, b with
  | Fin x, Fin y => x <? y
  | Fin _, Inf => true
  | Inf, _ => false
  end.

(** [__graph]: the adjacency lists, [node -> [(neighbour, weight)]]. *)
Abbreviation graph := (gmap node (list (node * Z))).

(** The mutable attributes of a [Dijkstra] object. *)
Record state := State {
  queue : list (dist * node);
  distances : gmap node dist;
  previous : gmap node (option node);
}.

(** [__init__]. *)
Definition init : state := State [] ∅ ∅.

(** The body of [for neighbour, weight in self.__graph[current_node]].
    [None] is the [KeyError] of a node without an entry in
    [__distances]. *)
Definition relax (current_node : node) (st : state) (e : node * Z) : option state :=
  dc ← distances st !! current_node;
  let distance := dist_add dc e.2 in
  dn ← distances st !! e.1;
  if dist_ltb distance dn
  then Some {| distances := <[e.1 := distance]> (distances st);
               previous := <[e.1 := Some current_node]> (previous st);
               queue := insert_item dist_ltb e.1 distance (queue st) |}
  else Some st.

Fixpoint relax_all (current_node : node) (nbrs : list (node * Z)) (st : state)
  : option state :=
  match nbrs with
  | [] => Some st
  | e :: nbrs' => st' ← relax current_node st e; relax_all current_node nbrs' st'
  end.

(** One round of [while not self.__queue.is_empty()], for a queue that is
    not empty. *)
Definition step (g : graph) (st : state) : option state :=
  '(current_node, q) ← pop_item dist_ltb (queue st);
  let st' := {| queue := q; distances := distances st; previous := previous st |} in
  match g !! current_node with
  | Some nbrs => relax_all current_node nbrs st'
  | None => Some st'
  end.

(** The [while] loop; [None] also when the rounds allowed are used up. *)
Fixpoint loop (fuel : nat) (g : graph) (st : state) : option state :=
  match fuel with
  | O => None
  | S fuel' =>
      if is_empty (queue st) then Some st
      else st' ← step g st; loop fuel' g st'
  end.

(** [for node in self.__graph: self.__distances[node] = float('inf')]. *)
Definition init_distances (g : graph) (d : gmap node dist) : gmap node dist :=
  map_fold (fun n _ acc => <[n := Inf]> acc) d g.

(** [while node is not None: path.insert(0, node); node = previous[node]]. *)
Fixpoint trace (fuel : nat) (prev : gmap node (option node)) (n : node)
  (path : list node) : option (list node) :=
  match fuel with
  | O => None
  | S fuel' =>
      match prev !! n with
      | None => None
      | Some None => Some (n :: path)
      | Some (Some p) => trace fuel' prev p (n :: path)
      end
  end.

(** [compute]: the path, the total weight and the attributes the object
    is left with. *)
Definition compute (fuel : nat) (g : graph) (st : state) (start end_ : node)
  : option (list node * dist * state) :=
  let d0 := <[start := Fin 0]> (init_distances g (distances st)) in
  let q0 := insert_item dist_ltb start (Fin 0) (queue st) in
  st' ← loop fuel g (State q0 d0 {[ start := None ]});
  match distances st' !! end_ with
  | Some (Fin d) =>
      path ← trace fuel (previous st') end_ [];
      Some (path, Fin d, st')
  | _ => Some ([], Inf, st')
  end.

End Dijkstra.

(** ** Python numbers *)

Module Py.

(** [float(z)] of an [int]: the nearest binary64 value, ties to even;
    [None] is the [OverflowError] of an [int] that rounds to infinity. *)
Definition float_of_int (z : Z) : option float :=
  match binary_normalize prec emax z 0 false with
  | S754_infinity _ | S754_nan => None
  | sf => Some (SF2Prim sf)
  end.

(** [int(f)] of a [float]: truncation towards zero; [None] is the error
    raised for an infinity or a NaN. *)
Definition int_of_float (f : float) : option Z :=
  match Prim2SF f with
  | S754_zero _ => Some 0
  | S754_finite s m e =>
      let v := if 0 <=? e then Z.pos m * 2 ^ e else Z.pos m / 2 ^ (- e) in
      Some (if s then - v else v)
  | _ => None
  end.

(** An [int] that is used where a [float] is expected, for the small
    values (draws, radii, coordinates) that convert exactly. *)
Definition to_float (z : Z) : float :=
  match float_of_int z with
  | Some f => f
  | None => if z <? 0 then neg_infinity else infinity
  end.

End Py.

(** ** An insertion-ordered [dict] *)

Module OrderedDict.
Section Dict.
Context {V : Type}.

(** The items of the [dict] in insertion order; the keys are distinct. *)
Abbreviation t := (list (node * V)).

Fixpoint get (d : t) (k : node) : option V :=
  match d with
  | [] => None
  | (k', v) :: d' => if decide (k' = k) then Some v else get d' k
  end.

Definition contains (d : t) (k : node) : bool := bool_decide (is_Some (get d k)).

(** [d[k] = v] for a key that is new: the item goes last. *)
Definition add (d : t) (k : node) (v : V) : t := d ++ [(k, v)].

(** An update in place of the value at [k], as [d[k].append(x)] does. *)
Fixpoint update (f : V -> V) (d : t) (k : node) : t :=
  match d with
  | [] => []
  | (k', v) :: d' =>
      if decide (k' = k) then (k', f v) :: d' else (k', v) :: update f d' k
  end.

Definition keys (d : t) : list node := d.*1.

End Dict.
End OrderedDict.

(** ** mst.py: class MST *)

Module MST.

(** [__graph]: [node -> [neighbour]], as [CreateGraph.make_graph] builds
    it. *)
Abbreviation graph := (gmap node (list node)).

(** An edge of [__edges]: [(weight, node1, node2)]. *)
Abbreviation wedge := (Z * node * node)%type.

(** The MST as an adjacency list: [node -> [(neighbour, weight)]]. *)
Abbreviation roads := (list (node * list (node * Z))).

(** [__calculate_weight]:
    [int(math.sqrt((x1 - x2) ** 2 + (y1 - y2) ** 2))]. *)
Definition calculate_weight (node1 node2 : node) : option Z :=
  f ← Py.float_of_int ((node1.1 - node2.1) ^ 2 + (node1.2 - node2.2) ^ 2);
  Py.int_of_float (PrimFloat.sqrt f).

(** [__create_edge_list]. *)
Definition create_edge_list (g : graph) : option (list wedge) :=
  per_node ←
    mapM (fun item : node * list node =>
            mapM (fun neighbour =>
                    weight ← calculate_weight item.1 neighbour;
                    Some (weight, item.1, neighbour)) item.2)
         (map_to_list g);
  Some (mjoin per_node).

(** The union-find attributes [__parent] and [__rank]. *)
Record dsu := Dsu {
  parent : gmap node node;
  rank : gmap node Z;
}.

(** [__find], with path compression.  [None] is a [KeyError], or the
    recursion depth allowed used up. *)
Fixpoint find (fuel : nat) (p : gmap node node) (n : node)
  : option (node * gmap node node) :=
  match fuel with
  | O => None
  | S fuel' =>
      pn ← p !! n;
      if decide (pn <> n)
      then '(r, p1) ← find fuel' p pn;
           let p2 := <[n := r]> p1 in
           r' ← p2 !! n;
           Some (r', p2)
      else Some (pn, p)
  end.

(** [__union]. *)
Definition union (fuel : nat) (s : dsu) (node1 node2 : node) : option dsu :=
  '(root1, p1) ← find fuel (parent s) node1;
  '(root2, p2) ← find fuel p1 node2;
  k1 ← rank s !! root1;
  k2 ← rank s !! root2;
  if k2 <? k1 then Some (Dsu (<[root2 := root1]> p2) (rank s))
  else if k1 <? k2 then Some (Dsu (<[root1 := root2]> p2) (rank s))
  else Some (Dsu (<[root2 := root1]> p2) (<[root1 := k1 + 1]> (rank s))).

(** The order of Python tuples [(weight, node1, node2)]. *)
Definition node_ltb (a b : node) : bool :=
  (a.1 <? b.1) || ((a.1 =? b.1) && (a.2 <? b.2)).

Definition node_eqb (a b : node) : bool := (a.1 =? b.1) && (a.2 =? b.2).

Definition edge_leb (a b : wedge) : bool :=
  (a.1.1 <? b.1.1)
  || ((a.1.1 =? b.1.1)
      && (node_ltb a.1.2 b.1.2
          || (node_eqb a.1.2 b.1.2 && negb (node_ltb b.2 a.2)))).

Definition edge_le (a b : wedge) : Prop := edge_leb a b = true.

#[global] Instance edge_le_dec a b : Decision (edge_le a b).
Proof. unfold edge_le. apply _. Defined.

(** The four statements that put an edge into the MST. *)
Definition add_edge (mst : roads) (node1 node2 : node) (weight : Z) : roads :=
  let m1 := if OrderedDict.contains mst node1 then mst
            else OrderedDict.add mst node1 [] in
  let m2 := if OrderedDict.contains m1 node2 then m1
            else OrderedDict.add m1 node2 [] in
  let m3 := OrderedDict.update (fun l => l ++ [(node2, weight)]) m2 node1 in
  OrderedDict.update (fun l => l ++ [(node1, weight)]) m3 node2.

(** [for edge in self.__edges]. *)
Fixpoint kruskal_loop (fuel : nat) (edges : list wedge) (s : dsu) (mst : roads)
  : option (roads * dsu) :=
  match edges with
  | [] => Some (mst, s)
  | (weight, node1, node2) :: edges' =>
      '(root1, p1) ← find fuel (parent s) node1;
      '(root2, p2) ← find fuel p1 node2;
      let s1 := Dsu p2 (rank s) in
      if decide (root1 <> root2)
      then s2 ← union fuel s1 node1 node2;
           kruskal_loop fuel edges' s2 (add_edge mst node1 node2 weight)
      else kruskal_loop fuel edges' s1 mst
  end.

(** [for node in self.__graph: parent[node] = node; rank[node] = 0]. *)
Definition make_sets (g : graph) (s : dsu) : dsu :=
  map_fold (fun n _ s => Dsu (<[n := n]> (parent s)) (<[n := 0]> (rank s))) s g.

(** [__kruskal]: the MST, and the attributes [__edges] (now sorted),
    [__parent] and [__rank] the object is left with. *)
Definition kruskal (fuel : nat) (g : graph) (edges : list wedge) (s : dsu)
  : option (roads * list wedge * dsu) :=
  let sorted := merge_sort edge_le edges in
  '(mst, s') ← kruskal_loop fuel sorted (make_sets g s) [];
  Some (mst, sorted, s').

End MST.

(** ** additional_connections.py: class AdditionalConnections *)

Module AdditionalConnections.
Import OrderedDict.

(** [__mst]: the road dictionary, [node -> [(neighbour, weight)]]. *)
Abbreviation roads := (list (node * list (node * Z))).

(** [__calculate_weight]: the class has its own copy of the method of
    [MST]. *)
Definition calculate_weight (node1 node2 : node) : option Z :=
  f ← Py.float_of_int ((node1.1 - node2.1) ^ 2 + (node1.2 - node2.2) ^ 2);
  Py.int_of_float (PrimFloat.sqrt f).

(** [__acw]. *)
Definition acw (point1 point2 point3 : node) : bool :=
  (point3.2 - point1.2) * (point2.1 - point1.1)
  >? (point2.2 - point1.2) * (point3.1 - point1.1).

(** [__do_edges_cross]. *)
Definition do_edges_cross (a1 a2 b1 b2 : node) : bool :=
  negb (eqb (acw a1 b1 b2) (acw a2 b1 b2))
  && negb (eqb (acw a1 a2 b1) (acw a1 a2 b2)).

(** [__crosses_existing_edges]. *)
Definition crosses_existing_edges (mst : roads) (node1 node2 : node) : bool :=
  existsb (fun item : node * list (node * Z) =>
             existsb (fun nb : node * Z => do_edges_cross item.1 nb.1 node1 node2)
                     item.2)
          mst.

(** The nodes with one connection, in the order of the dictionary. *)
Definition single_connection_nodes (mst : roads) : list node :=
  (filter (fun item : node * list (node * Z) => length item.2 = 1%nat) mst).*1.

(** [for other_node in single_connection_nodes], on the local variables
    [nearest_node] and [distance] ([None]: not assigned yet).  The result
    is [None] when [__calculate_weight] raises. *)
Fixpoint scan (mst : roads) (min_distance : Z) (node_ : node) (others : list node)
  (nearest_node : option node) (distance : option Z)
  : option (option node * option Z) :=
  match others with
  | [] => Some (nearest_node, distance)
  | other_node :: others' =>
      if decide (node_ <> other_node)
      then d ← calculate_weight node_ other_node;
           if (d >? min_distance) && negb (crosses_existing_edges mst node_ other_node)
           then scan mst min_distance node_ others' (Some other_node) (Some d)
           else scan mst min_distance node_ others' nearest_node (Some d)
      else scan mst min_distance node_ others' nearest_node distance
  end.

(** [if nearest_node: ...]: the two appends. *)
Definition connect (mst : roads) (node_ : node) (nearest_node : option node)
  (distance : option Z) : option roads :=
  match nearest_node with
  | None => Some mst
  | Some nearest =>
      d ← distance;
      let mst1 := update (fun l => l ++ [(nearest, d)]) mst node_ in
      Some (update (fun l => l ++ [(node_, d)]) mst1 nearest)
  end.

(** [for node in single_connection_nodes]; [distance] is a variable of
    the method and keeps its value from one round to the next. *)
Fixpoint connect_all (min_distance : Z) (leaves todo : list node) (mst : roads)
  (distance : option Z) : option roads :=
  match todo with
  | [] => Some mst
  | node_ :: todo' =>
      '(nearest_node, distance') ← scan mst min_distance node_ leaves None distance;
      mst' ← connect mst node_ nearest_node distance';
      connect_all min_distance leaves todo' mst' distance'
  end.

(** [add_connections]. *)
Definition add_connections (mst : roads) (min_distance : Z) : option roads :=
  let leaves := single_connection_nodes mst in
  connect_all min_distance leaves leaves mst None.

End AdditionalConnections.

(** ** disease.py: class Disease *)

Module Disease.

(** The attributes of a [Disease]: the rates per hour and the incubation
    time in seconds. *)
Record t := Make {
  seconds_per_hour : float;
  infection_rate : float;
  incubation_time : float;
  recovery_rate : float;
  mortality_rate : float;
}.

(** [__init__], from the rates per day and the incubation time in days. *)
Definition init (infection_rate incubation_time recovery_rate mortality_rate
                 seconds_per_hour : float) : t :=
  {| seconds_per_hour := seconds_per_hour;
     infection_rate := infection_rate / 24;
     incubation_time := incubation_time * 24 * seconds_per_hour;
     recovery_rate := recovery_rate / 24;
     mortality_rate := mortality_rate / 24 |}%float.

(** [random.randint(a, b)]: an integer [N] with [a <= N <= b], both ends
    included.  [x] is the random integer the generator supplies; every
    [N] of the range comes from some [x]. *)
Definition randint (a b x : Z) : Z := a + x mod (b - a + 1).

(** [random.randint(0, 1000) < rate * 1000]. *)
Definition trial (rate : float) (x : Z) : bool :=
  PrimFloat.ltb (Py.to_float (randint 0 1000 x)) (rate * 1000)%float.

Definition infect (d : t) (x : Z) : bool := trial (infection_rate d) x.
Definition recover (d : t) (x : Z) : bool := trial (recovery_rate d) x.
Definition die (d : t) (x : Z) : bool := trial (mortality_rate d) x.

Definition get_incubation_time (d : t) : float := incubation_time d.

End Disease.

(** ** person.py: class Person *)

Module Person.

(** The infection status: ['S'], ['E'], ['I'], ['R'], ['D']. *)
Inductive Status :=
| Susceptible
| Exposed
| Infected
| Recovered
| Deceased.

#[global] Instance Status_eq_dec : EqDecision Status.
Proof. solve_decision. Defined.

(** A position on the display: a pair of numbers. *)
Abbreviation position := (float * float)%type.

(** [==] on positions. *)
Definition position_eqb (a b : position) : bool :=
  PrimFloat.eqb a.1 b.1 && PrimFloat.eqb a.2 b.2.

(** The attributes of a [Person] that the simulation reads or writes (the
    display and the shared [Disease] are passed where they are used).
    [None] in [office_position], [office_to_home_route] and [route] is
    Python's [None]. *)
Record t := Make {
  person_id : Z;
  home_location : node;
  office_location : node;
  home_position : position;
  office_position : option position;
  current_position : position;
  home_radius : Z;
  office_radius : Z;
  home_to_office_route : list position;
  office_to_home_route : option (list position);
  speed : float;
  leave_home : Z;
  status : Status;
  route : option (list position);
  route_index : nat;
  moving : bool;
  incubation_time : float;
  seconds_per_hour : float;
}.

Definition set_status (p : t) (st : Status) : t :=
  Make (person_id p) (home_location p) (office_location p) (home_position p)
       (office_position p) (current_position p) (home_radius p) (office_radius p)
       (home_to_office_route p) (office_to_home_route p) (speed p) (leave_home p)
       st (route p) (route_index p) (moving p) (incubation_time p)
       (seconds_per_hour p).

(** The writes of [update_position], [start_move_to_office] and
    [start_move_to_home]. *)
Definition set_motion (p : t) (pos : position) (r : option (list position))
  (index : nat) (mv : bool) : t :=
  Make (person_id p) (home_location p) (office_location p) (home_position p)
       (office_position p) pos (home_radius p) (office_radius p)
       (home_to_office_route p) (office_to_home_route p) (speed p) (leave_home p)
       (status p) r index mv (incubation_time p) (seconds_per_hour p).

(** The writes of [update_infection_status]. *)
Definition set_infection (p : t) (st : Status) (mv : bool) (incubation : float) : t :=
  Make (person_id p) (home_location p) (office_location p) (home_position p)
       (office_position p) (current_position p) (home_radius p) (office_radius p)
       (home_to_office_route p) (office_to_home_route p) (speed p) (leave_home p)
       st (route p) (route_index p) mv incubation (seconds_per_hour p).

(** [get_radius]. *)
Definition get_radius (p : t) : Z :=
  if position_eqb (current_position p) (home_position p)
  then home_radius p else office_radius p.

(** [start_move_to_office] and [start_move_to_home]. *)
Definition start_move_to_office (p : t) : t :=
  if decide (status p <> Deceased)
  then set_motion p (current_position p) (Some (home_to_office_route p)) 0 true
  else p.

Definition start_move_to_home (p : t) : t :=
  if decide (status p <> Deceased)
  then set_motion p (current_position p) (office_to_home_route p) 0 true
  else p.

(** [update_position] (drawing apart).  [None] is the [TypeError] of
    [len(None)] or the [ZeroDivisionError] of [dx / distance].  [x ** 2]
    is taken as [x * x]. *)
Definition update_position (p : t) : option t :=
  if decide (status p = Deceased)
  then Some (set_motion p (current_position p) (route p) (route_index p) false)
  else if moving p
  then r ← route p;
       match r !! route_index p with
       | Some next_position =>
           let dx := (next_position.1 - (current_position p).1)%float in
           let dy := (next_position.2 - (current_position p).2)%float in
           let distance := PrimFloat.sqrt (dx * dx + dy * dy)%float in
           if PrimFloat.ltb distance (speed p)
           then let index := S (route_index p) in
                Some (set_motion p next_position (route p) index
                        (if bool_decide (length r <= index)%nat then false
                         else moving p))
           else if PrimFloat.eqb distance 0
           then None
           else let dx' := (dx / distance * speed p)%float in
                let dy' := (dy / distance * speed p)%float in
                Some (set_motion p
                        ((current_position p).1 + dx', (current_position p).2 + dy')%float
                        (route p) (route_index p) (moving p))
       | None => Some p
       end
  else Some p.

(** [update_infection_status].  [rand k] is the random integer behind the
    [k]-th call of [random.randint]; the result carries the number of
    calls made so far. *)
Definition update_infection_status (d : Disease.t) (rand : nat -> Z) (p : t) (k : nat)
  : t * nat :=
  match status p with
  | Exposed =>
      let incubation := (incubation_time p - seconds_per_hour p)%float in
      if PrimFloat.leb incubation 0
      then (set_infection p Infected (moving p) incubation, k)
      else (set_infection p Exposed (moving p) incubation, k)
  | Infected =>
      if Disease.recover d (rand k)
      then (set_infection p Recovered (moving p) (incubation_time p), S k)
      else if Disease.die d (rand (S k))
      then (set_infection p Deceased false (incubation_time p), S (S k))
      else (p, S (S k))
  | _ => (p, k)
  end.

(** [__init__]: a person at home, not moving, without an office position
    and without a route back yet. *)
Definition new (person_id : Z) (home_location office_location : node)
  (home_position : position) (home_radius office_radius : Z)
  (home_to_office_route : list position) (speed : float) (leave_home : Z)
  (status : Status) (incubation_time seconds_per_hour : float) : t :=
  Make person_id home_location office_location home_position None home_position
       home_radius office_radius home_to_office_route None speed leave_home
       status None 0 false incubation_time seconds_per_hour.

(** [set_office_position]: the route gets the home position in front and
    the office position at the end, and the route back is its reverse. *)
Definition set_office_position (p : t) (office_position : position) : t :=
  let route := home_position p :: home_to_office_route p ++ [office_position] in
  Make (person_id p) (home_location p) (office_location p) (home_position p)
       (Some office_position) (current_position p) (home_radius p) (office_radius p)
       route (Some (reverse route)) (speed p) (leave_home p) (status p)
       (Person.route p) (route_index p) (moving p) (incubation_time p)
       (seconds_per_hour p).

End Person.

(** ** buildings.py and population.py: class Population *)

Module Population.
Import Person.

(** A [Building] of the tilemap; an occupant is a person of the roster,
    given by its place in [__people]. *)
Record building := Building {
  location : node;
  occupants : list nat;
}.

(** The attributes of a [Population] that the updates use.  The lists of
    [__route_intersections] hold persons of the roster, given by their
    places in [__people]. *)
Record t := Make {
  people : list Person.t;
  route_intersections : gmap Z (list nat);
  houses : list building;
  offices : list building;
  disease : Disease.t;
}.

Definition set_people (pop : t) (ps : list Person.t) : t :=
  Make ps (route_intersections pop) (houses pop) (offices pop) (disease pop).

(** A loop whose body may raise. *)
Fixpoint for_each {A B} (f : B -> A -> option B) (b : B) (l : list A) : option B :=
  match l with
  | [] => Some b
  | a :: l' => b' ← f b a; for_each f b' l'
  end.

(** [Tilemap.get_home_from_location] and [get_office_from_location],
    followed by [get_occupants]: [None] is the error of calling it on the
    [None] returned when no building has the location. *)
Definition occupants_at (bs : list building) (loc : node) : option (list nat) :=
  found ← list_find (fun b => location b = loc) bs;
  Some (occupants found.2).

(** [__calculate_distance]. *)
Definition calculate_distance (pos1 pos2 : position) : float :=
  let dx := (pos1.1 - pos2.1)%float in
  let dy := (pos1.2 - pos2.2)%float in
  PrimFloat.sqrt (dx * dx + dy * dy)%float.

(** The state of an update: the roster and the number of random draws
    made. *)
Abbreviation state := (list Person.t * nat)%type.

(** The body of [for other in self.__route_intersections[...]], for the
    infectious person at place [i]. *)
Definition contact (d : Disease.t) (rand : nat -> Z) (i : nat) (st : state) (j : nat)
  : option state :=
  individual ← st.1 !! i;
  other ← st.1 !! j;
  if bool_decide (status other = Susceptible)
     && PrimFloat.leb (calculate_distance (current_position individual)
                                          (current_position other))
                      (Py.to_float (2 * get_radius individual))
  then if Disease.infect d (rand st.2)
       then Some (<[j := set_status other Exposed]> st.1, S st.2)
       else Some (st.1, S st.2)
  else Some st.

(** [__check_interactions] for the person at place [i]. *)
Definition check_interactions (pop : t) (rand : nat -> Z) (st : state) (i : nat)
  : option state :=
  individual ← st.1 !! i;
  if decide (status individual = Infected)
  then others ← route_intersections pop !! person_id individual;
       for_each (contact (disease pop) rand i) st others
  else Some st.

(** The body of [update_positions] for the person at place [i]. *)
Definition move_and_check (pop : t) (rand : nat -> Z) (st : state) (i : nat)
  : option state :=
  individual ← st.1 !! i;
  individual' ← update_position individual;
  check_interactions pop rand (<[i := individual']> st.1, st.2) i.

(** [update_positions]: one tick. *)
Definition update_positions (pop : t) (rand : nat -> Z) (k : nat) : option state :=
  for_each (move_and_check pop rand) (people pop, k) (seq 0 (length (people pop))).

(** The body of [for occupant in occupants]. *)
Definition share_building (d : Disease.t) (rand : nat -> Z) (st : state) (j : nat)
  : option state :=
  occupant ← st.1 !! j;
  if bool_decide (status occupant = Susceptible)
  then if Disease.infect d (rand st.2)
       then Some (<[j := set_status occupant Exposed]> st.1, S st.2)
       else Some (st.1, S st.2)
  else Some st.

(** The body of [__check_building_interactions] for the person at place
    [i]. *)
Definition check_building (pop : t) (rand : nat -> Z) (st : state) (i : nat)
  : option state :=
  individual ← st.1 !! i;
  if decide (status individual = Infected)
  then occupants ←
         (if position_eqb (current_position individual) (home_position individual)
          then occupants_at (houses pop) (home_location individual)
          else match office_position individual with
               | Some office =>
                   if position_eqb (current_position individual) office
                   then occupants_at (offices pop) (office_location individual)
                   else Some []
               | None => Some []
               end);
       for_each (share_building (disease pop) rand) st occupants
  else Some st.

(** The body of the loop of [update_infection_status]. *)
Definition progress (pop : t) (rand : nat -> Z) (st : state) (i : nat) : option state :=
  individual ← st.1 !! i;
  let '(individual', k) :=
    Person.update_infection_status (disease pop) rand individual st.2 in
  Some (<[i := individual']> st.1, k).

(** [update_infection_status]: one hour. *)
Definition update_infection_status (pop : t) (rand : nat -> Z) (k : nat)
  : option state :=
  let indices := seq 0 (length (people pop)) in
  st ← for_each (check_building pop rand) (people pop, k) indices;
  for_each (progress pop rand) st indices.

(** [move_to_offices] and [move_to_homes]. *)
Definition move_to_offices (pop : t) : list Person.t :=
  start_move_to_office <$> people pop.

Definition move_to_homes (pop : t) : list Person.t :=
  start_move_to_home <$> people pop.

(** [has_active_infections]. *)
Definition has_active_infections (pop : t) : bool :=
  existsb (fun p => bool_decide (status p = Exposed \/ status p = Infected))
          (people pop).

(** The per-tick operation in the words of the specification: first the
    motion of every agent is advanced, and only then the contacts of
    every agent are checked. *)
Definition tick_all_motion_first (pop : t) (rand : nat -> Z) (k : nat) : option state :=
  moved ← mapM update_position (people pop);
  for_each (check_interactions pop rand) (moved, k) (seq 0 (length moved)).

(** The calls the simulation makes on a population: [main.py] calls
    [update_positions] every frame; [clock.py] calls
    [update_infection_status] every hour, and [start_move_to_office] or
    [start_move_to_home] on single persons. *)
Inductive event :=
| Tick
| Hour
| MoveToOffices
| MoveToHomes
| StartMoveToOffice (i : nat)
| StartMoveToHome (i : nat).

Definition apply_event (rand : nat -> Z) (st : t * nat) (e : event) : option (t * nat) :=
  match e with
  | Tick => r ← update_positions st.1 rand st.2; Some (set_people st.1 r.1, r.2)
  | Hour => r ← update_infection_status st.1 rand st.2; Some (set_people st.1 r.1, r.2)
  | MoveToOffices => Some (set_people st.1 (move_to_offices st.1), st.2)
  | MoveToHomes => Some (set_people st.1 (move_to_homes st.1), st.2)
  | StartMoveToOffice i =>
      p ← people st.1 !! i;
      Some (set_people st.1 (<[i := start_move_to_office p]> (people st.1)), st.2)
  | StartMoveToHome i =>
      p ← people st.1 !! i;
      Some (set_people st.1 (<[i := start_move_to_home p]> (people st.1)), st.2)
  end.

Definition run (rand : nat -> Z) (st : t * nat) (events : list event) : option (t * nat) :=
  for_each (apply_event rand) st events.

#[global] Instance Status_countable : Countable Status.
Proof.
  refine (inj_countable'
            (fun st => match st with
                       | Susceptible => 0 | Exposed => 1 | Infected => 2
                       | Recovered => 3 | Deceased => 4
                       end)%nat
            (fun n => match n with
                      | 0 => Susceptible | 1 => Exposed | 2 => Infected
                      | 3 => Recovered | _ => Deceased
                      end)%nat _).
  by intros [].
Defined.

(** [get_status_counts]: the dictionary [counts].  The five keys are
    there from the start, so [counts[status] += 1] always finds its
    key. *)
Definition get_status_counts (pop : t) : gmap Status Z :=
  foldl (fun counts individual => alter (fun c => c + 1) (status individual) counts)
        (list_to_map [(Susceptible, 0); (Exposed, 0); (Infected, 0);
                      (Recovered, 0); (Deceased, 0)])
        (people pop).

End Population.

(** ** create_graph.py: class CreateGraph *)

Module CreateGraph.

(** [__map]: the 2D array of the tilemap, as the list of its rows; a tile
    is 0 when it is empty. *)
Abbreviation map_array := (list (list Z)).

(** [self.__map[i][j]]; [None] is the [IndexError] of an index out of
    range. *)
Definition tile (m : map_array) (i j : nat) : option Z :=
  row ← m !! i; row !! j.

(** The pairs [(i, j)] of [for i in range(rows): for j in range(columns)],
    in the order of the loops. *)
Definition indices (rows columns : nat) : list (nat * nat) :=
  i ← seq 0 rows; (fun j => (i, j)) <$> seq 0 columns.

(** The list [points]: the coordinates of the tiles that are not 0.
    [None] also for a map without rows: [len(self.__map[0])] raises. *)
Definition points (m : map_array) : option (list node) :=
  row0 ← m !! 0%nat;
  found ← mapM (fun ij : nat * nat =>
                  v ← tile m ij.1 ij.2;
                  Some (if decide (v <> 0)
                        then [(Z.of_nat ij.1, Z.of_nat ij.2)] else []))
               (indices (length m) (length row0));
  Some (mjoin found).

(** [make_graph]: the items of the dictionary, in the order of
    insertion. *)
Definition make_graph (m : map_array) : option (list (node * list node)) :=
  points m ≫= fun pts : list node =>
  Some ((fun point : node =>
           (point, filter (fun other_point : node => point <> other_point) pts))
          <$> pts).

End CreateGraph.

(** ** roads.py: class Roads, with what it calls of mst.py *)

Module Roads.
Import CreateGraph MST.

(** [MST.__swap_coordinates]. *)
Definition swap_node (n : node) : node := (n.2, n.1).

Definition swap_coordinates (graph : list (node * list node)) : MST.graph :=
  foldl (fun swapped_graph item =>
           <[swap_node item.1 := swap_node <$> item.2]> swapped_graph)
        ∅ graph.

(** [MST.__init__]: the attributes [__graph] and [__edges]. *)
Definition mst_init (m : map_array) : option (MST.graph * list wedge) :=
  graph ← make_graph m;
  let g := swap_coordinates graph in
  edges ← create_edge_list g;
  Some (g, edges).

(** [MST.get_mst] on a new [MST] object, as [Roads.__init__] calls it;
    [get_roads] returns its result. *)
Definition get_mst (fuel : nat) (m : map_array) (additional_roads : bool)
  : option roads :=
  '(g, edges) ← mst_init m;
  r ← kruskal fuel g edges (Dsu ∅ ∅);
  if additional_roads
  then AdditionalConnections.add_connections r.1.1 3
  else Some r.1.1.

End Roads.

(** ** plot_graph.py: class PlotGraph *)

Module PlotGraph.
Import Person.

(** The lists behind the five lines of the graph, and their common
    x-values. *)
Record t := Make {
  hours : list Z;
  susceptible : list Z;
  exposed : list Z;
  infected : list Z;
  recovered : list Z;
  deceased : list Z;
}.

(** [__init__]. *)
Definition init : t := Make [] [] [] [] [] [].

(** [update] (drawing apart).  [None] is the [KeyError] of a status
    without a count. *)
Definition update (g : t) (day hour : Z) (counts : gmap Status Z) : option t :=
  s ← counts !! Susceptible;
  e ← counts !! Exposed;
  i ← counts !! Infected;
  r ← counts !! Recovered;
  d ← counts !! Deceased;
  Some (Make (hours g ++ [(day - 1) * 24 + hour]) (susceptible g ++ [s])
             (exposed g ++ [e]) (infected g ++ [i]) (recovered g ++ [r])
             (deceased g ++ [d])).

End PlotGraph.

(** ** clock.py: class Clock *)

Module Clock.
Import Person Population.

(** The attributes of a [Clock] (display and font apart).  The clock and
    the main loop share one [Population]; [draws] is the number of random
    draws made so far. *)
Record t := Make {
  day : Z;
  hour : Z;
  running : bool;
  seconds_per_hour : float;
  population : Population.t;
  draws : nat;
  last_update : float;
  graph : PlotGraph.t;
}.

Definition set_population (c : t) (pop : Population.t) (k : nat) : t :=
  Make (day c) (hour c) (running c) (seconds_per_hour c) pop k (last_update c)
       (graph c).

(** [__init__]; [now] is what [time.time()] returns. *)
Definition init (pop : Population.t) (k : nat) (seconds_per_hour now : float)
  : option t :=
  g ← PlotGraph.update PlotGraph.init 1 0 (get_status_counts pop);
  Some (Make 1 0 true seconds_per_hour pop k now g).

(** The body of [for individual in self.__population.get_people()]. *)
Definition commute (hour : Z) (individual : Person.t) : Person.t :=
  if decide (hour = leave_home individual) then start_move_to_office individual
  else if decide (hour = 17) then start_move_to_home individual
  else individual.

(** [update_time]; [current_time] is what [time.time()] returns. *)
Definition update_time (rand : nat -> Z) (current_time : float) (c : t) : option t :=
  if negb (running c) then Some c
  else if negb (has_active_infections (population c))
  then r ← Population.update_infection_status (population c) rand (draws c);
       let pop := set_people (population c) r.1 in
       g ← PlotGraph.update (graph c) (day c) (hour c) (get_status_counts pop);
       Some (Make (day c) (hour c) false (seconds_per_hour c) pop r.2
                  (last_update c) g)
  else if PrimFloat.leb (seconds_per_hour c) (current_time - last_update c)
  then let hour1 := hour c + 1 in
       r ← Population.update_infection_status (population c) rand (draws c);
       let pop := set_people (population c) r.1 in
       g ← PlotGraph.update (graph c) (day c) hour1 (get_status_counts pop);
       let hour2 := if 24 <? hour1 then 1 else hour1 in
       let day2 := if 24 <? hour1 then day c + 1 else day c in
       Some (Make day2 hour2 true (seconds_per_hour c)
                  (set_people pop (commute hour2 <$> people pop)) r.2
                  current_time g)
  else Some c.

End Clock.

(** ** main.py: the simulation loop *)

Module Main.
Import Population.

(** One round of [while running] in [__run_simulation] (events and
    drawing apart); [current_time] is what [time.time()] returns in
    it. *)
Definition frame (rand : nat -> Z) (c : Clock.t) (current_time : float)
  : option Clock.t :=
  if Clock.running c
  then c1 ← Clock.update_time rand current_time c;
       r ← update_positions (Clock.population c1) rand (Clock.draws c1);
       Some (Clock.set_population c1 (set_people (Clock.population c1) r.1) r.2)
  else Some c.

(** The rounds of the loop, one for each of the times read. *)
Definition run_simulation (rand : nat -> Z) (c : Clock.t) (times : list float)
  : option Clock.t :=
  for_each (frame rand) c times.

End Main.

(** ** tilemap.py: class Tilemap *)

Module Tilemap.

(** How a call ends: with a result, with the [IndexError] of an index out
    of range, with the [ValueError] of [random.randrange] on an empty
    range, or not within the rounds allowed. *)
Inductive outcome (A : Type) :=
| Done (a : A)
| IndexError
| ValueError
| Unfinished.
Arguments Done {A} a.
Arguments IndexError {A}.
Arguments ValueError {A}.
Arguments Unfinished {A}.

Definition bind {A B} (o : outcome A) (f : A -> outcome B) : outcome B :=
  match o with
  | Done a => f a
  | IndexError => IndexError
  | ValueError => ValueError
  | Unfinished => Unfinished
  end.

(** The argument of [__place_building]: ["house"] or ["office"]. *)
Inductive building_type := house | office.

(** The attributes of a [Tilemap] (display and drawing sizes apart).
    [map] is the array [__map], as the list of its rows; [houses],
    [offices] and [buildings] hold the buildings made, each an object of
    its own. *)
Record t := Make {
  size : Z * Z;
  map : list (list Z);
  houses : list Population.building;
  offices : list Population.building;
  buildings : list Population.building;
  num_houses : Z;
  num_offices : Z;
  current_houses : Z;
  current_offices : Z;
}.

(** [np.zeros(size, dtype=int)]: [size[0]] rows of [size[1]] zeros. *)
Definition zeros (size : Z * Z) : list (list Z) :=
  replicate (Z.to_nat size.1) (replicate (Z.to_nat size.2) 0).

(** The attributes [__init__] sets, for the [__size] it has computed. *)
Definition start (size : Z * Z) (num_houses num_offices : Z) : t :=
  Make size (zeros size) [] [] [] num_houses num_offices 0 0.

(** [a / b] of two [int]s that convert to [float] exactly (as the sizes
    of a display do); [None] is the [ZeroDivisionError] or the
    [OverflowError]. *)
Definition truediv (a b : Z) : option float :=
  if b =? 0 then None
  else fa ← Py.float_of_int a; fb ← Py.float_of_int b; Some (fa / fb)%float.

(** [__init__], for a display of [display_width] by [display_height]
    pixels. *)
Definition init (display_width display_height building_width building_height
                 num_houses num_offices : Z) : option t :=
  w ← truediv display_width building_width;
  size0 ← Py.int_of_float w;
  h ← truediv display_height building_height;
  size1 ← Py.int_of_float h;
  Some (start (size0, size1) num_houses num_offices).

(** [random.randrange(n)] from the random integer [x] the generator
    supplies. *)
Definition randrange (n x : Z) : outcome Z :=
  if n <=? 0 then ValueError else Done (x mod n).

(** [self.__map[y, x]] for indices that are not negative. *)
Definition get (m : list (list Z)) (y x : Z) : outcome Z :=
  match m !! Z.to_nat y with
  | Some row =>
      match row !! Z.to_nat x with
      | Some v => Done v
      | None => IndexError
      end
  | None => IndexError
  end.

(** [self.__map[y, x] = v], after [get] has found the tile. *)
Definition set (m : list (list Z)) (y x v : Z) : list (list Z) :=
  alter (fun row => <[Z.to_nat x := v]> row) (Z.to_nat y) m.

(** The body of [if not self.__map[y, x]]. *)
Definition place (tm : t) (kind : building_type) (x y : Z) : t :=
  match kind with
  | house =>
      if current_houses tm <? num_houses tm
      then Make (size tm) (set (map tm) y x 1)
                (houses tm ++ [Population.Building (x, y) []]) (offices tm)
                (buildings tm ++ [Population.Building (x, y) []])
                (num_houses tm) (num_offices tm)
                (current_houses tm + 1) (current_offices tm)
      else tm
  | office =>
      if current_offices tm <? num_offices tm
      then Make (size tm) (set (map tm) y x 2)
                (houses tm) (offices tm ++ [Population.Building (x, y) []])
                (buildings tm ++ [Population.Building (x, y) []])
                (num_houses tm) (num_offices tm)
                (current_houses tm) (current_offices tm + 1)
      else tm
  end.

(** [__place_building]: the rounds of [while not placed].  [rand k] is
    the random integer behind the [k]-th draw; the result carries the
    number of draws made so far. *)
Fixpoint place_building (fuel : nat) (rand : nat -> Z) (kind : building_type)
  (tm : t) (k : nat) : outcome (t * nat) :=
  match fuel with
  | O => Unfinished
  | S fuel' =>
      bind (randrange (size tm).1 (rand k)) (fun x =>
      bind (randrange (size tm).2 (rand (S k))) (fun y =>
      bind (get (map tm) y x) (fun v =>
      if v =? 0
      then Done (place tm kind x y, S (S k))
      else place_building fuel' rand kind tm (S (S k)))))
  end.

(** [for _ in range(max_count): self.__place_building(building)]. *)
Fixpoint place_buildings (fuel : nat) (rand : nat -> Z) (kind : building_type)
  (max_count : nat) (tm : t) (k : nat) : outcome (t * nat) :=
  match max_count with
  | O => Done (tm, k)
  | S n =>
      bind (place_building fuel rand kind tm k) (fun r =>
      place_buildings fuel rand kind n r.1 r.2)
  end.

(** [render] (drawing apart): the houses, then the offices. *)
Definition render (fuel : nat) (rand : nat -> Z) (tm : t) (k : nat)
  : outcome (t * nat) :=
  bind (place_buildings fuel rand house (Z.to_nat (num_houses tm)) tm k) (fun r =>
  place_buildings fuel rand office (Z.to_nat (num_offices r.1)) r.1 r.2).

End Tilemap.

(** ** initialise_people.py: class InitialisePeople *)

Module InitialisePeople.
Import Population.

(** [__calculate_people_dist_in_offices].  [None] is the
    [ZeroDivisionError] of no office, or the [IndexError] of
    [distribution[i]]. *)
Definition calculate_people_dist_in_offices (num_people num_offices : Z)
  : option (list Z) :=
  if decide (num_offices = 0) then None
  else
    let base_allocation := num_people `div` num_offices in
    let extra_people := num_people `mod` num_offices in
    let distribution := replicate (Z.to_nat num_offices) base_allocation in
    for_each (fun distribution i =>
                x ← distribution !! i; Some (<[i := x + 1]> distribution))
             distribution (seq 0 (Z.to_nat extra_people)).

(** [__calculate_office_location_dist], for the offices of the tilemap. *)
Definition calculate_office_location_dist (offices : list building) (num_people : Z)
  : option (list node) :=
  people_dist_in_offices ←
    calculate_people_dist_in_offices num_people (Z.of_nat (length offices));
  per_office ←
    mapM (fun item : nat * Z =>
            office ← offices !! item.1;
            Some (replicate (Z.to_nat item.2) (location office)))
         (imap pair people_dist_in_offices);
  Some (mjoin per_office).

(** [__convert_list_to_dict]. *)
Definition convert_list_to_dict (input_list : list node) : gmap node Z :=
  foldl (fun dictionary key =>
           match dictionary !! key with
           | Some c => <[key := c + 1]> dictionary
           | None => <[key := 1]> dictionary
           end)
        ∅ input_list.

(** [__calculate_office_location]. *)
Definition calculate_office_location (person_id : nat)
  (office_location_dist : list node) : option node :=
  office_location_dist !! person_id.

(** [l[i]] for an [int]: an index below 0 counts from the end; [None]
    is the [IndexError]. *)
Definition getitem {A} (l : list A) (i : Z) : option A :=
  if 0 <=? i then l !! Z.to_nat i
  else if 0 <=? Z.of_nat (length l) + i then l !! Z.to_nat (Z.of_nat (length l) + i)
  else None.

(** [__calculate_home_location], for the houses of the tilemap: [None]
    is the [ZeroDivisionError] or the [IndexError]. *)
Definition calculate_home_location (houses : list building) (person_id : nat)
  (num_in_house : Z) : option node :=
  if decide (num_in_house = 0) then None
  else house ← getitem houses (Z.of_nat person_id `div` num_in_house);
       Some (location house).

End InitialisePeople.

(** * Properties *)

(** ** Sums over lists without duplicates *)

Module ListFacts.

Lemma sum_list_update_in (f f' : node -> nat) (ks : list node) v :
  NoDup ks -> v ∈ ks -> (forall k, k ∈ ks -> k <> v -> f' k = f k) ->
  (sum_list (f' <$> ks) + f v = sum_list (f <$> ks) + f' v)%nat.
Proof.
  intros Hnd Hin Hf. induction ks as [|k ks IH]; [by apply elem_of_nil in Hin|].
  apply NoDup_cons in Hnd as [Hk Hnd]. csimpl.
  destruct (decide (k = v)) as [->|Hne].
  - assert (f' <$> ks = f <$> ks) as ->; [|lia].
    apply list_fmap_ext. intros i x Hx.
    assert (x ∈ ks) by (eapply list_elem_of_lookup_2; eauto).
    apply Hf; [by right|]. intros ->. by apply Hk.
  - apply elem_of_cons in Hin as [?|Hin]; [congruence|].
    rewrite (Hf k) by (done || by left).
    lapply (IH Hnd Hin); [lia|]. intros k' ? ?. apply Hf; [by right|done].
Qed.

Lemma sum_list_update (f f' : node -> nat) (ks : list node) v :
  NoDup ks -> v ∈ ks -> (forall k, k <> v -> f' k = f k) ->
  (sum_list (f' <$> ks) + f v = sum_list (f <$> ks) + f' v)%nat.
Proof. intros ? ? Hf. apply sum_list_update_in; auto. Qed.

End ListFacts.

(** ** The priority queue *)

Module PriorityQueueFacts.
Import PriorityQueue.

Section Queue.
Context {P : Type} (plt : P -> P -> bool).

(** *** The queue keeps its elements *)

Lemma swap_perm i j (q : list (P * node)) : swap i j q ≡ₚ q.
Proof.
  unfold swap. destruct (q !! i) as [a|] eqn:Hi, (q !! j) as [b|] eqn:Hj; try done.
  destruct (decide (i = j)) as [->|Hne].
  - assert (a = b) by congruence. subst b.
    rewrite list_insert_insert_eq. by rewrite list_insert_id.
  - symmetry. apply Permutation_inj. split; [by rewrite !length_insert|].
    exists (fun k => if decide (k = i) then j else if decide (k = j) then i else k).
    split.
    + intros x y Hxy. repeat case_decide; subst; congruence.
    + intros k. repeat case_decide; subst.
      * rewrite list_lookup_insert_eq; [done|].
        rewrite length_insert. by eapply lookup_lt_Some.
      * rewrite list_lookup_insert_ne by done.
        rewrite list_lookup_insert_eq; [done|]. by eapply lookup_lt_Some.
      * by rewrite !list_lookup_insert_ne.
Qed.

Lemma bubble_up_perm index q : bubble_up plt index q ≡ₚ q.
Proof.
  funelim (bubble_up plt index q); simp bubble_up; [done|].
  cbv zeta. destruct (prio_lt _ _ _); [|done]. rewrite H. apply swap_perm.
Qed.

Lemma bubble_down_perm index q : bubble_down plt index q ≡ₚ q.
Proof.
  funelim (bubble_down plt index q); [|done].
  destruct (prio_lt _ _ _); [|done]. rewrite H. apply swap_perm.
Qed.

Lemma insert_item_perm item priority q :
  insert_item plt item priority q ≡ₚ (priority, item) :: q.
Proof.
  unfold insert_item. simpl. rewrite bubble_up_perm.
  by rewrite Permutation_app_comm.
Qed.

Lemma pop_item_perm q item q' :
  pop_item plt q = Some (item, q') -> exists p, q ≡ₚ (p, item) :: q'.
Proof.
  destruct q as [|[p x] [|e rest]]; simpl; intros H; simplify_eq.
  - by exists p.
  - exists p. by rewrite bubble_down_perm.
Qed.

Lemma pop_item_nonempty q : q <> [] -> is_Some (pop_item plt q).
Proof. destruct q as [|e [|e' rest]]; simpl; eauto. done. Qed.

Lemma is_empty_true (q : list (P * node)) : is_empty q = true <-> q = [].
Proof.
  unfold is_empty. rewrite bool_decide_eq_true. apply length_zero_iff_nil.
Qed.
End Queue.

(** Seven inserts and three pops, after which a fourth pop is due. *)
Definition heap_ops : list (op Z) :=
  [Insert (1, 0) 1; Insert (5, 0) 5; Insert (2, 0) 2; Insert (6, 0) 6;
   Insert (7, 0) 7; Insert (3, 0) 3; Insert (4, 0) 4; Pop; Pop; Pop].

(** C3. [pop_item] does not always return an element of least priority:
    after the operations [heap_ops] on an empty queue the elements are
    [(5, _); (7, _); (6, _); (4, _)] (removing the first element with
    [pop(0)] moved every element to a new place in the tree, and
    [__bubble_down(0)] repairs one branch only), and the next [pop_item]
    returns the item of priority 5 while an item of priority 4 is in the
    queue. *)
Theorem pop_item_not_minimal :
  run Z.ltb heap_ops [] =
    Some ([(1, 0); (2, 0); (3, 0)],
          [(5, (5, 0)); (7, (7, 0)); (6, (6, 0)); (4, (4, 0))]) /\
  pop_item Z.ltb [(5, (5, 0)); (7, (7, 0)); (6, (6, 0)); (4, (4, 0))] =
    Some ((5, 0), [(4, (4, 0)); (6, (6, 0)); (7, (7, 0))]).
Proof. split; vm_compute; reflexivity. Qed.

End PriorityQueueFacts.

(** ** Shortest paths *)

Module DijkstraFacts.
Import ListFacts PriorityQueue PriorityQueueFacts Dijkstra.

(** *** Road networks, paths and their weights *)

(** [(v, w)] is in the adjacency list of [u]. *)
Definition edge (g : graph) (u v : node) (w : Z) : Prop :=
  exists nbrs, g !! u = Some nbrs /\ (v, w) ∈ nbrs.

(** A road network: every neighbour has an adjacency list of its own (the
    adjacency is symmetric in the data model) and no weight is negative
    (a weight is a rounded-down distance). *)
Definition road_network (g : graph) : Prop :=
  map_Forall (fun _ nbrs => Forall (fun e => is_Some (g !! e.1) /\ 0 <= e.2) nbrs) g.

#[global] Instance road_network_dec g : Decision (road_network g).
Proof. unfold road_network. apply _. Defined.

Lemma road_network_edge g u v w :
  road_network g -> edge g u v w -> is_Some (g !! v) /\ 0 <= w.
Proof.
  intros Hg (nbrs & Hu & Hin).
  pose proof (map_Forall_lookup_1 _ _ _ _ Hg Hu) as Hall.
  rewrite Forall_forall in Hall. apply (Hall (v, w) Hin).
Qed.

(** [path_weight g l c]: the nodes of [l] follow edges of [g] whose
    weights add up to [c]. *)
Inductive path_weight (g : graph) : list node -> Z -> Prop :=
| pw_one v : path_weight g [v] 0
| pw_cons u v l w c :
    edge g u v w -> path_weight g (v :: l) c -> path_weight g (u :: v :: l) (w + c).

(** A path of weight [c] from [s] to [t]. *)
Definition path_from_to (g : graph) (s t : node) (l : list node) (c : Z) : Prop :=
  head l = Some s /\ last l = Some t /\ path_weight g l c.

Definition reachable (g : graph) (s t : node) : Prop :=
  exists l c, path_from_to g s t l c.

Lemma path_weight_snoc g l c u v w :
  path_weight g l c -> last l = Some u -> edge g u v w ->
  path_weight g (l ++ [v]) (c + w).
Proof.
  induction 1 as [x|x y l w' c He Hp IH]; intros Hlast Hedge.
  - simpl in Hlast. simplify_eq. simpl.
    replace (0 + w) with (w + 0) by lia. by repeat constructor.
  - replace (w' + c + w) with (w' + (c + w)) by lia.
    simpl. constructor; [done|]. apply IH; [|done].
    by rewrite last_cons_cons in Hlast.
Qed.

Lemma init_distances_lookup g d k :
  init_distances g d !! k =
    match g !! k with Some _ => Some Inf | None => d !! k end.
Proof.
  unfold init_distances.
  apply (map_fold_weak_ind
    (fun r m => r !! k = match m !! k with Some _ => Some Inf | None => d !! k end)).
  - by rewrite lookup_empty.
  - intros i x m r Hi IH. destruct (decide (i = k)) as [->|Hne].
    + by rewrite !lookup_insert_eq.
    + by rewrite !lookup_insert_ne.
Qed.

(** *** Invariants of the search *)

Section Search.
Context (g : graph) (start : node).
Hypothesis Hg : road_network g.

(** Following [previous] from [v] back to the node without a
    predecessor visits [l], listed from that node to [v]. *)
Inductive chain (P : gmap node (option node)) : node -> list node -> Prop :=
| chain_root s : P !! s = Some None -> chain P s [s]
| chain_step v u l :
    P !! v = Some (Some u) -> chain P u l -> chain P v (l ++ [v]).

Record inv (st : state) : Prop := {
  inv_start_d : distances st !! start = Some (Fin 0);
  inv_start_p : previous st !! start = Some None;
  inv_dom : forall v, is_Some (g !! v) -> is_Some (distances st !! v);
  inv_prev : forall v u, previous st !! v = Some (Some u) ->
    exists w du dv, edge g u v w /\ distances st !! u = Some (Fin du) /\
      distances st !! v = Some (Fin dv) /\ 0 <= du /\ du + w <= dv;
  inv_root : forall v, previous st !! v = Some None -> v = start;
  inv_inf : forall v, is_Some (g !! v) -> previous st !! v = None ->
    distances st !! v = Some Inf;
  inv_chain : forall v, is_Some (previous st !! v) ->
    exists l, chain (previous st) v l;
  inv_queue : forall p x, (p, x) ∈ queue st ->
    exists d, distances st !! x = Some (Fin d) /\ 0 <= d;
}.

(** The edge [(u, v, w)] cannot improve the distance of [v]. *)
Definition relaxed (D : gmap node dist) (u v : node) (w : Z) : Prop :=
  forall du, D !! u = Some (Fin du) ->
  exists dv, D !! v = Some (Fin dv) /\ dv <= du + w.

Definition in_queue (st : state) (u : node) : Prop :=
  exists p, (p, u) ∈ queue st.

(** Every edge out of a node that is not queued is relaxed, apart from
    the edges [todo] of the node [cur] being processed. *)
Definition settled_but (st : state) (cur : node) (todo : list (node * Z)) : Prop :=
  forall u v w, edge g u v w -> ~ in_queue st u ->
    (u = cur -> (v, w) ∉ todo) -> relaxed (distances st) u v w.

Definition settled (st : state) : Prop :=
  forall u v w, edge g u v w -> ~ in_queue st u -> relaxed (distances st) u v w.

(** The measure that decreases with every round: the number of nodes at
    distance [inf], then the sum of the finite distances plus the length
    of the queue. *)
Definition keys : list node := (map_to_list g).*1.

Definition inf_weight (D : gmap node dist) (k : node) : nat :=
  match D !! k with Some Inf => 1 | _ => 0 end.

Definition fin_weight (D : gmap node dist) (k : node) : nat :=
  match D !! k with Some (Fin d) => Z.to_nat d | _ => 0 end.

Definition ninf (st : state) : nat := sum_list (inf_weight (distances st) <$> keys).

Definition msum (st : state) : nat :=
  (sum_list (fin_weight (distances st) <$> keys) + length (queue st))%nat.

Definition lex_le (st' st : state) : Prop :=
  (ninf st' < ninf st)%nat \/ (ninf st' = ninf st /\ (msum st' <= msum st)%nat).

Lemma lex_le_refl st : lex_le st st.
Proof. right. lia. Qed.

Lemma lex_le_trans a b c : lex_le a b -> lex_le b c -> lex_le a c.
Proof. unfold lex_le. lia. Qed.

Lemma keys_spec k : k ∈ keys <-> is_Some (g !! k).
Proof.
  unfold keys. rewrite list_elem_of_fmap. split.
  - intros ([k' x] & -> & Hin). apply elem_of_map_to_list in Hin. by eexists.
  - intros [x Hx]. exists (k, x). split; [done|]. by apply elem_of_map_to_list.
Qed.

Lemma NoDup_keys : NoDup keys.
Proof. apply NoDup_fst_map_to_list. Qed.

(** The state after an edge improved the distance of its target. *)
Definition improve (cur : node) (st : state) (e : node * Z) (dc : Z) : state :=
  {| distances := <[e.1 := Fin (dc + e.2)]> (distances st);
     previous := <[e.1 := Some cur]> (previous st);
     queue := insert_item dist_ltb e.1 (Fin (dc + e.2)) (queue st) |}.

Lemma relax_cases cur st e dc :
  distances st !! cur = Some (Fin dc) -> is_Some (distances st !! e.1) ->
  (relax cur st e = Some st /\
     exists dn, distances st !! e.1 = Some (Fin dn) /\ dn <= dc + e.2) \/
  (relax cur st e = Some (improve cur st e dc) /\
     exists old, distances st !! e.1 = Some old /\
       dist_ltb (Fin (dc + e.2)) old = true).
Proof.
  intros Hc [old Hold]. unfold relax. rewrite Hc. simpl. rewrite Hold. simpl.
  destruct old as [dn|]; simpl.
  - destruct (Z.ltb_spec (dc + e.2) dn).
    + right. split; [done|]. exists (Fin dn). split; [done|]. simpl. lia.
    + left. split; [done|]. by exists dn.
  - right. split; [done|]. by exists Inf.
Qed.

Lemma chain_bound st x l dx :
  inv st -> chain (previous st) x l -> distances st !! x = Some (Fin dx) ->
  forall y, y ∈ l -> exists dy, distances st !! y = Some (Fin dy) /\ dy <= dx.
Proof.
  intros Hinv Hch. revert dx.
  induction Hch as [s Hs|v u l Hv Hch IH]; intros dx Hx y Hy.
  - apply list_elem_of_singleton in Hy as ->. exists dx. split; [done|lia].
  - destruct (inv_prev _ Hinv _ _ Hv) as (w & du & dv & He & Hu & Hdv & Hdu & Hle).
    destruct (road_network_edge _ _ _ _ Hg He) as [_ Hw].
    assert (dv = dx) by congruence. subst dv.
    apply elem_of_app in Hy as [Hy|Hy].
    + destruct (IH du Hu y Hy) as (dy & Hdy & ?). exists dy. split; [done|lia].
    + apply list_elem_of_singleton in Hy as ->. exists dx. split; [done|lia].
Qed.

Lemma chain_insert P x l v o :
  chain P x l -> v ∉ l -> chain (<[v:=o]> P) x l.
Proof.
  induction 1 as [s Hs|x u l Hx Hch IH]; intros Hv.
  - apply chain_root. rewrite lookup_insert_ne; [done|].
    intros ->. apply Hv. by apply list_elem_of_singleton.
  - rewrite elem_of_app, list_elem_of_singleton in Hv.
    apply chain_step with u.
    + rewrite lookup_insert_ne; [done|]. intros ->. tauto.
    + apply IH. tauto.
Qed.

Section Improve.
Context (cur : node) (st : state) (e : node * Z) (dc : Z) (old : dist).
Hypothesis Hinv : inv st.
Hypothesis Hedge : edge g cur e.1 e.2.
Hypothesis Hcur : distances st !! cur = Some (Fin dc).
Hypothesis Hdc : 0 <= dc.
Hypothesis Hold : distances st !! e.1 = Some old.
Hypothesis Hlt : dist_ltb (Fin (dc + e.2)) old = true.

Lemma improve_weight : 0 <= e.2.
Proof using Hg Hedge. by destruct (road_network_edge _ _ _ _ Hg Hedge). Qed.

Lemma improve_ne_cur : e.1 <> cur.
Proof using All.
  pose proof improve_weight. intros Heq. rewrite Heq in Hold.
  assert (old = Fin dc) by congruence. subst old. simpl in Hlt. lia.
Qed.

Lemma improve_ne_start : e.1 <> start.
Proof using All.
  pose proof improve_weight. intros Heq. rewrite Heq in Hold.
  rewrite (inv_start_d _ Hinv) in Hold. simplify_eq. simpl in Hlt. lia.
Qed.

Lemma improve_chain_cur : exists lc, chain (previous st) cur lc /\ e.1 ∉ lc.
Proof using All.
  pose proof improve_weight.
  assert (is_Some (previous st !! cur)) as Hsome.
  { destruct (previous st !! cur) eqn:Hp; [done|].
    destruct Hedge as (nbrs & Hn & _).
    rewrite (inv_inf _ Hinv cur) in Hcur; [done|by eexists|done]. }
  destruct (inv_chain _ Hinv _ Hsome) as [lc Hlc].
  exists lc. split; [done|]. intros Hin.
  destruct (chain_bound _ _ _ _ Hinv Hlc Hcur _ Hin) as (dy & Hdy & Hle).
  rewrite Hdy in Hold. simplify_eq. simpl in Hlt. lia.
Qed.

Lemma improve_inv : inv (improve cur st e dc).
Proof using All.
  pose proof improve_weight as Hw.
  pose proof improve_ne_cur as Hnc.
  pose proof improve_ne_start as Hns.
  split; simpl.
  - rewrite lookup_insert_ne by done. apply Hinv.
  - rewrite lookup_insert_ne by done. apply Hinv.
  - intros v Hv. destruct (decide (e.1 = v)) as [<-|Hne].
    + rewrite lookup_insert_eq. by eexists.
    + rewrite lookup_insert_ne by done. by apply Hinv.
  - intros v u Hvu. destruct (decide (e.1 = v)) as [<-|Hne].
    + rewrite lookup_insert_eq in Hvu. simplify_eq.
      exists e.2, dc, (dc + e.2). rewrite lookup_insert_eq.
      rewrite lookup_insert_ne by done. repeat split; [done..|lia].
    + rewrite lookup_insert_ne in Hvu by done.
      destruct (inv_prev _ Hinv _ _ Hvu) as (w & du & dv & He & Hu & Hdv & Hdu & Hle).
      rewrite (lookup_insert_ne _ _ v) by done.
      destruct (decide (e.1 = u)) as [<-|Hneu].
      * exists w, (dc + e.2), dv. rewrite lookup_insert_eq.
        rewrite Hu in Hold. simplify_eq. simpl in Hlt.
        repeat split; [done..|lia|lia].
      * exists w, du, dv. rewrite lookup_insert_ne by done. done.
  - intros v Hv. destruct (decide (e.1 = v)) as [<-|Hne].
    + by rewrite lookup_insert_eq in Hv.
    + rewrite lookup_insert_ne in Hv by done. by apply Hinv.
  - intros v Hgv Hv. destruct (decide (e.1 = v)) as [<-|Hne].
    + by rewrite lookup_insert_eq in Hv.
    + rewrite lookup_insert_ne in Hv by done.
      rewrite lookup_insert_ne by done. by apply Hinv.
  - destruct improve_chain_cur as (lc & Hlc & Hnotin).
    assert (chain (<[e.1:=Some cur]> (previous st)) e.1 (lc ++ [e.1])) as Hnew.
    { apply chain_step with cur; [by rewrite lookup_insert_eq|].
      by apply chain_insert. }
    assert (forall x l, chain (previous st) x l ->
              exists l', chain (<[e.1:=Some cur]> (previous st)) x l') as Hall.
    { induction 1 as [s Hs|x u l Hx Hch [l' IH]].
      - exists [s]. apply chain_root. rewrite lookup_insert_ne; [done|].
        rewrite (inv_root _ Hinv _ Hs). done.
      - destruct (decide (e.1 = x)) as [<-|Hne]; [by eexists|].
        exists (l' ++ [x]). apply chain_step with u; [|done].
        by rewrite lookup_insert_ne. }
    intros v Hv. destruct (decide (e.1 = v)) as [<-|Hne]; [by eexists|].
    rewrite lookup_insert_ne in Hv by done.
    destruct (inv_chain _ Hinv _ Hv) as [l Hl]. by eapply Hall.
  - intros p x Hpx. rewrite insert_item_perm in Hpx.
    apply elem_of_cons in Hpx as [Hpx|Hpx].
    + simplify_eq. rewrite lookup_insert_eq. exists (dc + e.2). split; [done|lia].
    + destruct (inv_queue _ Hinv _ _ Hpx) as (d & Hd & ?).
      destruct (decide (e.1 = x)) as [<-|Hne].
      * rewrite lookup_insert_eq. exists (dc + e.2). split; [done|lia].
      * rewrite lookup_insert_ne by done. by exists d.
Qed.
Lemma improve_lex : lex_le (improve cur st e dc) st.
Proof using All.
  pose proof improve_weight as Hw.
  assert (e.1 ∈ keys) as Hk.
  { apply keys_spec. by destruct (road_network_edge _ _ _ _ Hg Hedge). }
  set (D' := <[e.1:=Fin (dc + e.2)]> (distances st)).
  assert (inf_weight D' e.1 = 0%nat) as Hi1.
  { unfold inf_weight, D'. by rewrite lookup_insert_eq. }
  assert (fin_weight D' e.1 = Z.to_nat (dc + e.2)) as Hf1.
  { unfold fin_weight, D'. by rewrite lookup_insert_eq. }
  assert (forall k, k <> e.1 -> inf_weight D' k = inf_weight (distances st) k) as Hi2.
  { intros k ?. unfold inf_weight, D'. by rewrite lookup_insert_ne. }
  assert (forall k, k <> e.1 -> fin_weight D' k = fin_weight (distances st) k) as Hf2.
  { intros k ?. unfold fin_weight, D'. by rewrite lookup_insert_ne. }
  pose proof (sum_list_update _ _ keys e.1 NoDup_keys Hk Hi2) as Hi.
  pose proof (sum_list_update _ _ keys e.1 NoDup_keys Hk Hf2) as Hf.
  rewrite Hi1 in Hi. rewrite Hf1 in Hf.
  unfold inf_weight at 2 in Hi. unfold fin_weight at 2 in Hf.
  rewrite Hold in Hi, Hf.
  pose proof (Permutation_length
    (insert_item_perm dist_ltb e.1 (Fin (dc + e.2)) (queue st))) as Hlen.
  unfold lex_le, ninf, msum. simpl in Hlen |- *. fold D'. rewrite Hlen.
  destruct old as [dv|]; simpl in Hlt; lia.
Qed.

Lemma improve_in_queue u : in_queue st u \/ u = e.1 -> in_queue (improve cur st e dc) u.
Proof using Type.
  unfold in_queue. simpl. setoid_rewrite insert_item_perm.
  intros [[p Hp]| ->].
  - exists p. by apply elem_of_cons; right.
  - eexists. by apply elem_of_cons; left.
Qed.

Lemma improve_settled todo :
  settled_but st cur (e :: todo) -> settled_but (improve cur st e dc) cur todo.
Proof using All.
  pose proof improve_weight as Hw.
  intros Hs u v w He Hq Htodo du Hdu.
  assert (u <> e.1) as Hu.
  { intros ->. apply Hq, improve_in_queue. by right. }
  assert (~ in_queue st u) as Hq'.
  { intros ?. apply Hq, improve_in_queue. by left. }
  simpl in Hdu |- *. rewrite lookup_insert_ne in Hdu by done.
  destruct (decide (u = cur /\ (v, w) = e)) as [[-> <-]|Hne].
  - simpl. rewrite lookup_insert_eq. simpl in *.
    assert (du = dc) by congruence. subst du. eexists. split; [done|lia].
  - destruct (Hs u v w He Hq') with (du := du) as (dv & Hdv & Hle); [|done|].
    { intros ->. rewrite not_elem_of_cons. split; [|by apply Htodo].
      intros <-. by apply Hne. }
    destruct (decide (e.1 = v)) as [<-|Hnev].
    + rewrite lookup_insert_eq. rewrite Hdv in Hold. simplify_eq.
      simpl in Hlt. eexists. split; [done|lia].
    + rewrite lookup_insert_ne by done. by exists dv.
Qed.
End Improve.

Lemma keep_settled cur st e dc dn todo :
  distances st !! cur = Some (Fin dc) ->
  distances st !! e.1 = Some (Fin dn) -> dn <= dc + e.2 ->
  settled_but st cur (e :: todo) -> settled_but st cur todo.
Proof.
  intros Hc Hn Hle Hs u v w He Hq Htodo du Hdu.
  destruct (decide (u = cur /\ (v, w) = e)) as [[-> <-]|Hne].
  - simpl in *. assert (du = dc) by congruence. subst du. by exists dn.
  - apply (Hs u v w He Hq); [|done].
    intros ->. rewrite not_elem_of_cons. split; [|by apply Htodo].
    intros <-. by apply Hne.
Qed.

Lemma relax_all_ok cur todo : forall st dc,
  inv st -> settled_but st cur todo ->
  (forall e, e ∈ todo -> edge g cur e.1 e.2) ->
  distances st !! cur = Some (Fin dc) -> 0 <= dc ->
  exists st', relax_all cur todo st = Some st' /\ inv st' /\
    settled_but st' cur [] /\ lex_le st' st.
Proof.
  induction todo as [|e todo IH]; intros st dc Hinv Hs Hedges Hc Hdc.
  - exists st. simpl. auto using lex_le_refl.
  - assert (edge g cur e.1 e.2) as He by (apply Hedges; left).
    assert (is_Some (distances st !! e.1)) as Hsome.
    { apply (inv_dom _ Hinv). by destruct (road_network_edge _ _ _ _ Hg He). }
    simpl.
    destruct (relax_cases cur st e dc Hc Hsome)
      as [[-> (dn & Hn & Hle)]|[-> (old & Hold & Hlt)]]; simpl.
    + apply (IH st dc); try done.
      * by eapply keep_settled.
      * intros e' ?. apply Hedges. by right.
    + destruct (IH (improve cur st e dc) dc) as (st' & Hr & ? & ? & Hlex).
      * by eapply improve_inv.
      * by eapply improve_settled.
      * intros e' ?. apply Hedges. by right.
      * simpl. rewrite lookup_insert_ne; [done|]. by eapply improve_ne_cur.
      * done.
      * exists st'. split_and!; try done.
        eapply lex_le_trans; [done|]. by eapply improve_lex.
Qed.

Definition lex_lt (st' st : state) : Prop :=
  (ninf st' < ninf st)%nat \/ (ninf st' = ninf st /\ (msum st' < msum st)%nat).

(** One round keeps the invariants and decreases the measure. *)
Lemma step_ok st :
  inv st -> settled st -> queue st <> [] ->
  exists st', step g st = Some st' /\ inv st' /\ settled st' /\ lex_lt st' st.
Proof.
  intros Hinv Hs Hq.
  destruct (pop_item_nonempty dist_ltb _ Hq) as [[cur q'] Hpop].
  destruct (pop_item_perm _ _ _ _ Hpop) as [p Hperm].
  unfold step. rewrite Hpop. simpl.
  set (st1 := {| queue := q'; distances := distances st; previous := previous st |}).
  assert (inv st1) as Hinv1.
  { destruct Hinv. split; try done. simpl. intros p' x Hx.
    apply (inv_queue0 p' x). rewrite Hperm. by right. }
  destruct (inv_queue _ Hinv p cur) as (dc & Hc & Hdc).
  { rewrite Hperm. by left. }
  assert (forall u, u <> cur -> ~ in_queue st1 u -> ~ in_queue st u) as Hnq.
  { intros u Hu Hnot [p' Hp']. rewrite Hperm in Hp'.
    apply elem_of_cons in Hp' as [?|?]; [congruence|]. apply Hnot. by exists p'. }
  assert (ninf st1 = ninf st /\ (msum st1 + 1 = msum st)%nat) as [Hn Hm].
  { unfold ninf, msum. simpl. rewrite (Permutation_length Hperm). simpl. lia. }
  destruct (g !! cur) as [nbrs|] eqn:Hcur.
  - destruct (relax_all_ok cur nbrs st1 dc) as (st' & Hr & Hinv' & Hs' & Hlex);
      try done.
    + intros u v w He Hu Htodo. destruct (decide (u = cur)) as [->|Hne].
      * destruct He as (nbrs' & Hn' & Hin). exfalso. apply Htodo; [done|].
        congruence.
      * apply Hs; [done|]. by apply Hnq.
    + intros [v w] Hin. by exists nbrs.
    + exists st'. split_and!; try done.
      * intros u v w He Hu. apply Hs'; [done..|]. intros _. apply not_elem_of_nil.
      * unfold lex_lt. unfold lex_le in Hlex. lia.
  - exists st1. split_and!; try done.
    + intros u v w He Hu. destruct (decide (u = cur)) as [->|Hne].
      * destruct He as (nbrs' & Hn' & _). congruence.
      * apply Hs; [done|]. by apply Hnq.
    + unfold lex_lt. lia.
Qed.

(** The loop ends, with the queue empty and the invariants in place. *)
Lemma loop_terminates : forall n m st,
  inv st -> settled st -> (ninf st <= n)%nat -> (msum st <= m)%nat ->
  exists fuel st', loop fuel g st = Some st' /\ inv st' /\ settled st' /\
    queue st' = [].
Proof.
  induction n as [n IHn] using lt_wf_ind.
  induction m as [m IHm] using lt_wf_ind.
  intros st Hinv Hs Hn Hm.
  destruct (decide (queue st = [])) as [Hq|Hq].
  - exists 1%nat, st. simpl.
    rewrite (proj2 (is_empty_true _) Hq). done.
  - destruct (step_ok st Hinv Hs Hq) as (st1 & Hstep & Hinv1 & Hs1 & Hlt).
    assert (exists fuel st', loop fuel g st1 = Some st' /\ inv st' /\
              settled st' /\ queue st' = []) as (fuel & st' & Hl & ?).
    { destruct Hlt as [Hlt|[Heq Hlt]].
      - apply (IHn (ninf st1)) with (m := msum st1); try done; lia.
      - apply (IHm (msum st1)); try done; lia. }
    exists (S fuel), st'. split; [|done]. simpl.
    destruct (is_empty (queue st)) eqn:He.
    + by apply is_empty_true in He.
    + rewrite Hstep. done.
Qed.

Lemma loop_mono fuel : forall fuel' st r,
  loop fuel g st = Some r -> (fuel <= fuel')%nat -> loop fuel' g st = Some r.
Proof.
  induction fuel as [|fuel IH]; intros fuel' st r Hl Hle; [done|].
  destruct fuel' as [|fuel']; [lia|]. simpl in *.
  destruct (is_empty (queue st)); [done|].
  destruct (step g st) as [st1|]; [|done]. simpl in *.
  apply IH; [done|lia].
Qed.

Lemma trace_chain P n l :
  chain P n l -> forall acc, trace (length l) P n acc = Some (l ++ acc).
Proof.
  induction 1 as [s Hs|v u l Hv Hch IH]; intros acc; simpl.
  - by rewrite Hs.
  - rewrite length_app, Nat.add_1_r. simpl. rewrite Hv, IH.
    by rewrite <- app_assoc.
Qed.

Lemma trace_mono P fuel : forall fuel' n acc r,
  trace fuel P n acc = Some r -> (fuel <= fuel')%nat -> trace fuel' P n acc = Some r.
Proof.
  induction fuel as [|fuel IH]; intros fuel' n acc r Ht Hle; [done|].
  destruct fuel' as [|fuel']; [lia|]. simpl in *.
  destruct (P !! n) as [[p|]|]; try done. apply IH; [done|lia].
Qed.

(** *** What the distances and predecessors are when the loop has ended *)

Section Final.
Context (st : state).
Hypothesis Hinv : inv st.
Hypothesis Hs : settled st.
Hypothesis Hq : queue st = [].

Lemma final_relaxed u v w : edge g u v w -> relaxed (distances st) u v w.
Proof using Hs Hq.
  intros He. apply Hs; [done|]. intros [p Hp]. rewrite Hq in Hp.
  by apply elem_of_nil in Hp.
Qed.

(** The predecessors of a node spell a path from the start node whose
    weight is the distance of the node. *)
Lemma final_chain v l :
  chain (previous st) v l -> forall d, distances st !! v = Some (Fin d) ->
  path_from_to g start v l d.
Proof using All.
  induction 1 as [s Hp|x u l Hx Hch IH]; intros d Hd.
  - rewrite (inv_root _ Hinv _ Hp) in Hd |- *.
    rewrite (inv_start_d _ Hinv) in Hd. simplify_eq.
    repeat split. constructor.
  - destruct (inv_prev _ Hinv _ _ Hx) as (w & du & dv & He & Hu & Hdv & Hdu & Hle).
    destruct (final_relaxed _ _ _ He du Hu) as (dv' & Hdv' & Hle').
    assert (d = du + w) as -> by (simplify_eq; lia).
    destruct (IH du Hu) as (Hhead & Hlast & Hpw).
    split_and!.
    + destruct l; [done|]. done.
    + by rewrite last_snoc.
    + by eapply path_weight_snoc.
Qed.

(** No path from a node at a finite distance beats the distances. *)
Lemma final_lower l c :
  path_weight g l c -> forall u t du, head l = Some u -> last l = Some t ->
  distances st !! u = Some (Fin du) ->
  exists dt, distances st !! t = Some (Fin dt) /\ dt <= du + c.
Proof using Hs Hq.
  induction 1 as [x|x y l w c He Hp IH]; intros u t du Hh Hl Hu;
    simpl in Hh; simplify_eq.
  - simpl in Hl. simplify_eq. exists du. split; [done|lia].
  - destruct (final_relaxed _ _ _ He du Hu) as (dy & Hdy & Hle).
    rewrite last_cons_cons in Hl.
    destruct (IH y t dy eq_refl Hl Hdy) as (dt & Hdt & ?).
    exists dt. split; [done|lia].
Qed.
End Final.

End Search.

(** The state [compute] enters its loop with. *)
Definition start_state (g : graph) (st : state) (start : node) : state :=
  State (insert_item dist_ltb start (Fin 0) (queue st))
        (<[start := Fin 0]> (init_distances g (distances st)))
        {[ start := None ]}.

Lemma start_state_queue g st start :
  queue st = [] -> queue (start_state g st start) = [(Fin 0, start)].
Proof. intros Hq. simpl. rewrite Hq. reflexivity. Qed.

Lemma start_state_ok g st start :
  queue st = [] ->
  inv g start (start_state g st start) /\ settled g (start_state g st start).
Proof.
  intros Hq. pose proof (start_state_queue g st start Hq) as Hq0. split.
  - split.
    + simpl. by rewrite lookup_insert_eq.
    + simpl. by rewrite lookup_singleton_eq.
    + intros v Hv. simpl. destruct (decide (start = v)) as [<-|Hne].
      * rewrite lookup_insert_eq. by eexists.
      * rewrite lookup_insert_ne by done. rewrite init_distances_lookup.
        destruct Hv as [x ->]. by eexists.
    + intros v u Hvu. simpl in Hvu.
      apply lookup_singleton_Some in Hvu as [_ ?]. done.
    + intros v Hv. simpl in Hv. by apply lookup_singleton_Some in Hv as [? _].
    + intros v Hv Hp. simpl in *. apply lookup_singleton_None in Hp.
      rewrite lookup_insert_ne by done. rewrite init_distances_lookup.
      by destruct Hv as [x ->].
    + intros v [o Hv]. simpl in *. apply lookup_singleton_Some in Hv as [<- <-].
      exists [start]. apply chain_root. by rewrite lookup_singleton_eq.
    + intros p x Hpx. rewrite Hq0 in Hpx. apply list_elem_of_singleton in Hpx.
      simplify_eq. simpl. rewrite lookup_insert_eq. by exists 0.
  - intros u v w He Hnq du Hdu. exfalso. simpl in Hdu.
    destruct (decide (start = u)) as [<-|Hne].
    + apply Hnq. exists (Fin 0). rewrite Hq0. by left.
    + rewrite lookup_insert_ne in Hdu by done.
      rewrite init_distances_lookup in Hdu.
      destruct He as (nbrs & Hu & _). by rewrite Hu in Hdu.
Qed.

(** The loop of [compute] ends, for all numbers of rounds from some number
    on, in a state whose distances can no longer be improved. *)
Lemma compute_loop g st start :
  road_network g -> queue st = [] ->
  exists fuel0 st', inv g start st' /\ settled g st' /\ queue st' = [] /\
    forall fuel, (fuel0 <= fuel)%nat ->
      loop fuel g (start_state g st start) = Some st'.
Proof.
  intros Hg Hq. destruct (start_state_ok g st start Hq) as [Hinv Hs].
  destruct (loop_terminates g start Hg _ _ _ Hinv Hs (le_n _) (le_n _))
    as (fuel0 & st' & Hl & ? & ? & ?).
  exists fuel0, st'. split_and!; try done.
  intros fuel ?. by eapply loop_mono.
Qed.

(** A road network for the examples: a triangle with a long and a short
    way round, and a building on its own. *)
Definition town : graph :=
  list_to_map [((0, 0), [((1, 0), 1); ((0, 1), 5)]);
               ((1, 0), [((0, 0), 1); ((0, 1), 2)]);
               ((0, 1), [((0, 0), 5); ((1, 0), 2)]);
               ((7, 7), [])].

Lemma town_road_network : road_network town.
Proof. apply (bool_decide_unpack _). vm_compute. exact I. Defined.

(** C1. On a road network, for a fresh or re-used [Dijkstra] object (its
    queue is empty between calls) and an end node of the network,
    [compute(start, end)] returns once the loop is given enough rounds.
    When [end] can be reached from [start] the weight returned is finite,
    the path returned runs from [start] to [end] along edges whose weights
    add up to that weight, and no path from [start] to [end] weighs less;
    when [end] cannot be reached the result is the empty path and
    [inf]. *)
Theorem compute_shortest_path g st start end_ :
  road_network g -> queue st = [] -> is_Some (g !! end_) ->
  exists fuel0, forall fuel, (fuel0 <= fuel)%nat ->
  exists path weight st',
    compute fuel g st start end_ = Some (path, weight, st') /\
    (reachable g start end_ ->
       exists d, weight = Fin d /\ path_from_to g start end_ path d /\
         forall l c, path_from_to g start end_ l c -> d <= c) /\
    (~ reachable g start end_ -> path = [] /\ weight = Inf).
Proof.
  intros Hg Hq Hend.
  destruct (compute_loop g st start Hg Hq) as (fuel1 & st' & Hinv & Hs & Hq' & Hloop).
  assert (forall l c, path_from_to g start end_ l c ->
            exists dt, distances st' !! end_ = Some (Fin dt) /\ dt <= c) as Hlow.
  { intros l c (Hh & Hl & Hp).
    destruct (final_lower g st' Hs Hq' l c Hp start end_ 0 Hh Hl) as (dt & ? & ?).
    - apply Hinv.
    - exists dt. split; [done|lia]. }
  destruct (inv_dom _ _ _ Hinv end_ Hend) as [[d|] Hd].
  - assert (is_Some (previous st' !! end_)) as Hsome.
    { destruct (previous st' !! end_) eqn:Hp; [done|].
      by rewrite (inv_inf _ _ _ Hinv end_ Hend Hp) in Hd. }
    destruct (inv_chain _ _ _ Hinv _ Hsome) as [l Hl].
    pose proof (final_chain g start Hg st' Hinv Hs Hq' _ _ Hl d Hd) as Hpath.
    exists (max fuel1 (length l)). intros fuel Hfuel.
    exists l, (Fin d), st'. split_and!.
    + unfold compute. fold (start_state g st start).
      rewrite Hloop by lia. simpl. rewrite Hd.
      rewrite (trace_mono _ _ fuel _ _ _ (trace_chain _ _ _ Hl [])) by lia.
      simpl. by rewrite app_nil_r.
    + intros _. exists d. split_and!; try done.
      intros l' c Hp'. destruct (Hlow l' c Hp') as (dt & ? & ?). simplify_eq. lia.
    + intros Hn. exfalso. apply Hn. by exists l, d.
  - exists fuel1. intros fuel Hfuel. exists [], Inf, st'. split_and!.
    + unfold compute. fold (start_state g st start).
      rewrite Hloop by lia. simpl. by rewrite Hd.
    + intros (l & c & Hp). destruct (Hlow l c Hp) as (dt & ? & ?). congruence.
    + done.
Qed.

Lemma compute_shortest_path_witness :
  exists fuel0, forall fuel, (fuel0 <= fuel)%nat ->
  exists path weight st',
    compute fuel town init (0, 0) (0, 1) = Some (path, weight, st') /\
    (reachable town (0, 0) (0, 1) ->
       exists d, weight = Fin d /\ path_from_to town (0, 0) (0, 1) path d /\
         forall l c, path_from_to town (0, 0) (0, 1) l c -> d <= c) /\
    (~ reachable town (0, 0) (0, 1) -> path = [] /\ weight = Inf).
Proof.
  apply (compute_shortest_path town init (0, 0) (0, 1)).
  - exact town_road_network.
  - reflexivity.
  - vm_compute. eauto.
Defined.

(** C10. On a road network, [compute(v, v)] returns the path [[v]] and the
    weight 0. *)
Theorem compute_same_node g st v :
  road_network g -> queue st = [] ->
  exists fuel0, forall fuel, (fuel0 <= fuel)%nat ->
  exists st', compute fuel g st v v = Some ([v], Fin 0, st').
Proof.
  intros Hg Hq.
  destruct (compute_loop g st v Hg Hq) as (fuel1 & st' & Hinv & Hs & Hq' & Hloop).
  exists (S fuel1). intros fuel Hfuel. exists st'.
  unfold compute. fold (start_state g st v). rewrite Hloop by lia. simpl.
  rewrite (inv_start_d _ _ _ Hinv).
  destruct fuel as [|fuel]; [lia|]. simpl.
  by rewrite (inv_start_p _ _ _ Hinv).
Qed.

Lemma compute_same_node_witness :
  exists fuel0, forall fuel, (fuel0 <= fuel)%nat ->
  exists st', compute fuel town init (1, 0) (1, 0) = Some ([(1, 0)], Fin 0, st').
Proof.
  apply (compute_same_node town init (1, 0)).
  - exact town_road_network.
  - reflexivity.
Defined.

End DijkstraFacts.

(** ** Ordered dictionaries *)

Module OrderedDictFacts.
Import OrderedDict.

Section Dict.
Context {V : Type}.
Implicit Types (d : list (node * V)) (k : node).

Lemma get_None d k : get d k = None <-> k ∉ keys d.
Proof.
  unfold keys. induction d as [|[k' v] d IH]; simpl.
  - split; [intros _; apply not_elem_of_nil|done].
  - case_decide as Hk; subst.
    + split; [done|]. intros H. exfalso. apply H. by left.
    + rewrite IH, not_elem_of_cons. split; [|tauto]. intros ?. split; [congruence|done].
Qed.

Lemma contains_keys d k : contains d k = true <-> k ∈ keys d.
Proof.
  unfold contains. rewrite bool_decide_eq_true.
  destruct (get d k) eqn:Hg.
  - split; [|by eauto]. intros _.
    destruct (decide (k ∈ keys d)) as [|Hn]; [done|].
    apply get_None in Hn. congruence.
  - apply get_None in Hg. split; [by intros [? ?]|done].
Qed.

Lemma keys_add d k v : keys (add d k v) = keys d ++ [k].
Proof. unfold keys, add. by rewrite fmap_app. Qed.

Lemma keys_update f d k : keys (update f d k) = keys d.
Proof.
  unfold keys. induction d as [|[k' v] d IH]; simpl; [done|].
  case_decide; csimpl; [done|]. by f_equal.
Qed.

End Dict.

(** The adjacency entries [(node, (neighbour, weight))] of a road
    network, in the order of the dictionary. *)
Definition entries (m : list (node * list (node * Z))) : list (node * (node * Z)) :=
  m ≫= (fun item => (fun x => (item.1, x)) <$> item.2).

Lemma entries_add_empty m k : entries (add m k []) = entries m.
Proof. unfold entries, add. rewrite bind_app. simpl. by rewrite !app_nil_r. Qed.

Lemma entries_update m k x :
  k ∈ keys m ->
  entries (update (fun l => l ++ [x]) m k) ≡ₚ (k, x) :: entries m.
Proof.
  unfold entries, keys. induction m as [|[k' l] m IH]; simpl; intros Hk.
  - by apply elem_of_nil in Hk.
  - case_decide as Hkk; subst; simpl.
    + rewrite fmap_app. simpl.
      rewrite <- app_assoc. simpl. by rewrite <- Permutation_middle.
    + apply elem_of_cons in Hk as [?|Hk]; [congruence|].
      rewrite (IH Hk). by rewrite <- Permutation_middle.
Qed.

End OrderedDictFacts.

(** ** Union-find and Kruskal's algorithm *)

Module MSTFacts.
Import ListFacts OrderedDict OrderedDictFacts MST.

(** [root_of p x r]: following the parents from [x] ends at [r], which is
    its own parent. *)
Inductive root_of (p : gmap node node) : node -> node -> Prop :=
| root_self r : p !! r = Some r -> root_of p r r
| root_step x y r : p !! x = Some y -> y <> x -> root_of p y r -> root_of p x r.

Definition same_set (p : gmap node node) (x y : node) : Prop :=
  exists r, root_of p x r /\ root_of p y r.

Lemma root_of_root p x r : root_of p x r -> p !! r = Some r.
Proof. induction 1; auto. Qed.

Lemma root_of_fun p x r r' : root_of p x r -> root_of p x r' -> r = r'.
Proof.
  induction 1 as [r Hr|x y r Hx Hne Hy IH]; intros H'.
  - inversion H'; simplify_eq; done.
  - inversion H'; simplify_eq; auto.
Qed.

Lemma root_of_ne p x y r : p !! x = Some y -> y <> x -> root_of p x r -> r <> x.
Proof.
  intros Hx Hne Hr ->. apply root_of_root in Hr. congruence.
Qed.

(** Path compression: pointing [x] at its root keeps every root. *)
Lemma root_of_compress p x r :
  root_of p x r -> forall y r', root_of p y r' -> root_of (<[x := r]> p) y r'.
Proof.
  intros Hx y r'. induction 1 as [r' Hr'|y z r' Hy Hne Hz IH].
  - destruct (decide (x = r')) as [->|Hxr].
    + assert (r = r') as ->.
      { eapply root_of_fun; [done|]. by apply root_self. }
      apply root_self. by rewrite lookup_insert_eq.
    + apply root_self. by rewrite lookup_insert_ne.
  - destruct (decide (x = y)) as [->|Hxy].
    + assert (r = r') as ->.
      { eapply root_of_fun; [done|]. by eapply root_step. }
      pose proof (root_of_root _ _ _ Hz) as Hroot.
      assert (r' <> y) as Hr'y by (eapply root_of_ne; [done..|by eapply root_step]).
      apply root_step with r'; [by rewrite lookup_insert_eq|done|].
      apply root_self. by rewrite lookup_insert_ne.
    + apply root_step with z; [by rewrite lookup_insert_ne|done..].
Qed.

(** [__find] returns the root, given enough depth, and compresses without
    changing any root, or which nodes are roots. *)
Lemma find_spec p x r :
  root_of p x r ->
  exists fuel0 p',
    (forall fuel, (fuel0 <= fuel)%nat -> find fuel p x = Some (r, p')) /\
    (forall y r', root_of p y r' -> root_of p' y r') /\
    (forall y, p' !! y = Some y <-> p !! y = Some y).
Proof.
  induction 1 as [r Hr|x y r Hx Hne Hy (fuel0 & p1 & Hfind & Hroots & Hself)].
  - exists 1%nat, p. split_and!; [|done..].
    intros [|fuel] ?; [lia|]. simpl. rewrite Hr. simpl.
    by destruct (decide (r <> r)).
  - exists (S fuel0), (<[x := r]> p1). split_and!.
    + intros [|fuel] ?; [lia|]. simpl. rewrite Hx. simpl.
      destruct (decide (y <> x)); [|done].
      rewrite Hfind by lia. simpl. by rewrite lookup_insert_eq.
    + intros z r' Hz. apply root_of_compress; [|by apply Hroots].
      apply Hroots. by eapply root_step.
    + intros z. destruct (decide (x = z)) as [<-|Hxz].
      * rewrite lookup_insert_eq.
        assert (r <> x) by (eapply root_of_ne; [done..|by eapply root_step]).
        split; intros ?; simplify_eq.
      * rewrite lookup_insert_ne by done. apply Hself.
Qed.

(** Linking the root [a] under the root [b] moves the nodes of [a] to
    [b] and keeps the other roots. *)
Lemma link_root p a b :
  p !! a = Some a -> p !! b = Some b ->
  forall z r, root_of p z r ->
    root_of (<[a := b]> p) z (if decide (r = a) then b else r).
Proof.
  intros Ha Hb. destruct (decide (a = b)) as [<-|Hab].
  { rewrite insert_id by done. intros z r Hz. by case_decide; subst. }
  induction 1 as [r Hr|x y r Hx Hne Hy IH].
  - case_decide as Hra.
    + subst r. apply root_step with b; [by rewrite lookup_insert_eq|done|].
      apply root_self. by rewrite lookup_insert_ne.
    + apply root_self. by rewrite lookup_insert_ne.
  - apply root_step with y; [|done..].
    rewrite lookup_insert_ne; [done|]. congruence.
Qed.

Lemma link_self (p : gmap node node) a b z :
  p !! a = Some a -> p !! b = Some b ->
  <[a := b]> p !! z = Some z <-> p !! z = Some z /\ (z = a -> a = b).
Proof.
  intros Ha Hb. destruct (decide (a = z)) as [<-|Hne].
  - rewrite lookup_insert_eq. split.
    + intros ?. simplify_eq. done.
    + intros [_ ->]; done.
  - rewrite lookup_insert_ne by done. split; [|tauto].
    intros ?. split; [done|]. congruence.
Qed.

(** [__union] of the sets of [x] and [y], whose roots are [r1] and
    [r2]: one root, [a], is linked under the other, [b]; when the ranks
    are equal, and so when [r1 = r2], the rank of [r1] goes up by one. *)
Lemma union_spec s x y r1 r2 k1 k2 :
  root_of (parent s) x r1 -> root_of (parent s) y r2 ->
  rank s !! r1 = Some k1 -> rank s !! r2 = Some k2 ->
  exists fuel0 s' a b,
    (forall fuel, (fuel0 <= fuel)%nat -> union fuel s x y = Some s') /\
    ((a = r1 /\ b = r2) \/ (a = r2 /\ b = r1)) /\
    (forall z r, root_of (parent s) z r ->
       root_of (parent s') z (if decide (r = a) then b else r)) /\
    (forall z, parent s' !! z = Some z <->
       parent s !! z = Some z /\ (z = a -> a = b)) /\
    rank s' = (if decide (k1 = k2) then <[r1 := k1 + 1]> (rank s) else rank s).
Proof.
  intros Hx Hy Hk1 Hk2.
  destruct (find_spec _ _ _ Hx) as (f1 & p1 & Hf1 & Hroots1 & Hself1).
  destruct (find_spec _ _ _ (Hroots1 _ _ Hy)) as (f2 & p2 & Hf2 & Hroots2 & Hself2).
  assert (p2 !! r1 = Some r1) as Hr1.
  { apply Hself2, Hself1. by eapply root_of_root. }
  assert (p2 !! r2 = Some r2) as Hr2.
  { apply Hself2, Hself1. by eapply root_of_root. }
  assert (forall a b, p2 !! a = Some a -> p2 !! b = Some b ->
    (forall z r, root_of (parent s) z r ->
       root_of (<[a := b]> p2) z (if decide (r = a) then b else r)) /\
    (forall z, <[a := b]> p2 !! z = Some z <->
       parent s !! z = Some z /\ (z = a -> a = b))) as Hlink.
  { intros a b Ha Hb. split.
    - intros z r Hz. by apply link_root; [..|apply Hroots2, Hroots1].
    - intros z. rewrite link_self by done. by rewrite Hself2, Hself1. }
  assert (
    (forall fuel, (max f1 f2 <= fuel)%nat ->
       union fuel s x y =
         if k2 <? k1 then Some (Dsu (<[r2 := r1]> p2) (rank s))
         else if k1 <? k2 then Some (Dsu (<[r1 := r2]> p2) (rank s))
         else Some (Dsu (<[r2 := r1]> p2) (<[r1 := k1 + 1]> (rank s))))) as Hu.
  { intros fuel Hfuel. unfold union. rewrite Hf1 by lia. simpl.
    rewrite Hf2 by lia. simpl. rewrite Hk1. simpl. rewrite Hk2. done. }
  destruct (Z.ltb_spec k2 k1); [|destruct (Z.ltb_spec k1 k2)].
  - destruct (Hlink r2 r1 Hr2 Hr1) as [? ?].
    eexists (max f1 f2), _, r2, r1. split_and!; [exact Hu|by right|done..|].
    simpl. case_decide; [lia|done].
  - destruct (Hlink r1 r2 Hr1 Hr2) as [? ?].
    eexists (max f1 f2), _, r1, r2. split_and!; [exact Hu|by left|done..|].
    simpl. case_decide; [lia|done].
  - destruct (Hlink r2 r1 Hr2 Hr1) as [? ?].
    eexists (max f1 f2), _, r2, r1. split_and!; [exact Hu|by right|done..|].
    simpl. case_decide; [done|lia].
Qed.

(** Two nodes in one set: [(1, 0)] hangs under the root [(0, 0)]. *)
Definition pair_set : dsu :=
  Dsu (<[(1, 0) := (0, 0)]> {[ (0, 0) := (0, 0) ]})
      (<[(1, 0) := 0]> {[ (0, 0) := 1 ]}).

Lemma pair_set_union :
  union 2 pair_set (0, 0) (1, 0) =
    Some (Dsu (parent pair_set) (<[(0, 0) := 2]> (rank pair_set))).
Proof. vm_compute. reflexivity. Qed.

(** C8, as stated, fails: [__union] has no test of its own for nodes that
    are already in one set, and there its last branch adds one to the rank
    of the root. *)
Lemma union_same_set_not_noop :
  ~ (forall s a b fuel s',
       same_set (parent s) a b -> union fuel s a b = Some s' ->
       parent s' = parent s /\ rank s' = rank s).
Proof.
  intros H.
  assert (same_set (parent pair_set) (0, 0) (1, 0)) as Hsame.
  { exists (0, 0). split.
    - by apply root_self.
    - apply root_step with (0, 0); [done..|]. by apply root_self. }
  destruct (H pair_set (0, 0) (1, 0) 2%nat _ Hsame pair_set_union) as [_ Hrank].
  pose proof (f_equal (fun m : gmap node Z => m !! (0, 0)) Hrank) as Hl.
  vm_compute in Hl. discriminate Hl.
Qed.

(** C8, amended.  When [a] and [b] are in one set, of root [r] and rank
    [k], [__union] keeps the partition: every node has the root it had
    (the two finds may compress paths) and the same nodes are roots; the
    one change to the ranks is that the rank of [r] becomes [k + 1]. *)
Theorem union_same_set s a b r k :
  root_of (parent s) a r -> root_of (parent s) b r -> rank s !! r = Some k ->
  exists fuel0 s',
    (forall fuel, (fuel0 <= fuel)%nat -> union fuel s a b = Some s') /\
    (forall z r', root_of (parent s) z r' -> root_of (parent s') z r') /\
    (forall z, parent s' !! z = Some z <-> parent s !! z = Some z) /\
    rank s' = <[r := k + 1]> (rank s).
Proof.
  intros Ha Hb Hk.
  destruct (union_spec s a b r r k k Ha Hb Hk Hk)
    as (fuel0 & s' & x & y & Hu & Hxy & Hroots & Hself & Hrank).
  assert (x = r /\ y = r) as [-> ->] by (destruct Hxy as [[-> ->]|[-> ->]]; done).
  exists fuel0, s'. split_and!; [done| | |].
  - intros z r' Hz. specialize (Hroots z r' Hz).
    destruct (decide (r' = r)); by subst.
  - intros z. rewrite Hself. tauto.
  - rewrite Hrank. by destruct (decide (k = k)).
Qed.

Lemma union_same_set_witness :
  exists fuel0 s',
    (forall fuel, (fuel0 <= fuel)%nat -> union fuel pair_set (0, 0) (1, 0) = Some s') /\
    (forall z r', root_of (parent pair_set) z r' -> root_of (parent s') z r') /\
    (forall z, parent s' !! z = Some z <-> parent pair_set !! z = Some z) /\
    rank s' = <[(0, 0) := 1 + 1]> (rank pair_set).
Proof.
  apply (union_same_set pair_set (0, 0) (1, 0) (0, 0) 1).
  - by apply root_self.
  - apply root_step with (0, 0); [done..|]. by apply root_self.
  - reflexivity.
Defined.

(** *** Edge lists: connection, forests and cycles *)

(** The endpoints of weighted edges. *)
Definition pairs (es : list wedge) : list (node * node) :=
  (fun e : wedge => (e.1.2, e.2)) <$> es.

(** [conn es x y]: [x] and [y] are joined by edges of [es], taken in
    either direction. *)
Definition conn (es : list (node * node)) : relation node :=
  rtsc (fun a b => (a, b) ∈ es).

(** An edge list built by adding, one at a time, an edge between two
    nodes that were not joined yet. *)
Inductive forest : list (node * node) -> Prop :=
| forest_nil : forest []
| forest_cons u v es : forest es -> ~ conn es u v -> forest ((u, v) :: es).

(** No edge lies on a cycle: without it, its endpoints are not joined. *)
Definition acyclic (es : list (node * node)) : Prop :=
  forall l1 e l2, es = l1 ++ e :: l2 -> ~ conn (l1 ++ l2) e.1 e.2.

#[global] Instance conn_equivalence es : Equivalence (conn es).
Proof. unfold conn. apply _. Qed.

Lemma conn_edge es u v : (u, v) ∈ es -> conn es u v.
Proof. intros. by apply rtsc_lr. Qed.

Lemma conn_mono es es' x y :
  (forall e, e ∈ es -> e ∈ es') -> conn es x y -> conn es' x y.
Proof.
  intros Hsub. unfold conn, rtsc. apply rtc_subrel.
  intros a b [?|?]; [left|right]; auto.
Qed.

Lemma conn_nil x y : conn [] x y -> x = y.
Proof.
  induction 1 as [|a b c [Hin|Hin] _ _]; [done|..]; by apply elem_of_nil in Hin.
Qed.

(** A connection that may use the extra edge [(u, v)] either does
    without it or reaches one of its ends first and leaves from the
    other. *)
Lemma conn_cons es u v x y :
  conn ((u, v) :: es) x y ->
  conn es x y \/ (conn es x u /\ conn es v y) \/ (conn es x v /\ conn es u y).
Proof.
  induction 1 as [x|x z y Hstep _ IH].
  - by left.
  - assert (conn es x z \/ (x = u /\ z = v) \/ (x = v /\ z = u)) as Hxz.
    { destruct Hstep as [Hin|Hin]; apply elem_of_cons in Hin as [?|?];
        simplify_eq; auto using conn_edge.
      left. symmetry. by apply conn_edge. }
    destruct Hxz as [Hxz|[[-> ->]|[-> ->]]].
    + destruct IH as [?|[[? ?]|[? ?]]].
      * left. by etrans.
      * right; left. split; [by etrans|done].
      * right; right. split; [by etrans|done].
    + destruct IH as [?|[[? ?]|[? ?]]].
      * right; left. done.
      * right; left. done.
      * by left.
    + destruct IH as [?|[[? ?]|[? ?]]].
      * right; right. done.
      * by left.
      * right; right. done.
Qed.

Lemma forest_acyclic es : forest es -> acyclic es.
Proof.
  induction 1 as [|u v es Hf IH Hn]; intros l1 e l2 Heq.
  - by destruct l1.
  - destruct l1 as [|e1 l1]; simpl in Heq; simplify_eq; [done|].
    simpl. intros Hc.
    assert (forall a b, conn (l1 ++ l2) a b -> conn (l1 ++ e :: l2) a b) as Hsub.
    { intros a b. apply conn_mono. intros e'. rewrite !elem_of_app, elem_of_cons. tauto. }
    assert (conn (l1 ++ e :: l2) e.1 e.2) as He.
    { apply conn_edge. destruct e. rewrite elem_of_app, elem_of_cons. auto. }
    apply conn_cons in Hc as [Hc|[[Ha Hb]|[Ha Hb]]].
    + by apply (IH l1 e l2).
    + apply Hn. etrans; [symmetry; by apply Hsub|]. etrans; [exact He|by apply Hsub].
    + apply Hn. etrans; [symmetry; by apply Hsub|].
      etrans; [symmetry; exact He|]. symmetry. by apply Hsub.
Qed.

(** The two adjacency entries of every edge of a list. *)
Definition sym (es : list wedge) : list (node * (node * Z)) :=
  es ≫= (fun e : wedge => [(e.1.2, (e.2, e.1.1)); (e.2, (e.1.2, e.1.1))]).

Lemma add_edge_spec (mst : roads) u v w :
  NoDup (keys mst) ->
  NoDup (keys (add_edge mst u v w)) /\
  entries (add_edge mst u v w) ≡ₚ (u, (v, w)) :: (v, (u, w)) :: entries mst.
Proof.
  intros Hnd. unfold add_edge.
  set (m1 := if contains mst u then mst else add mst u []).
  set (m2 := if contains m1 v then m1 else add m1 v []).
  assert (NoDup (keys m1) /\ u ∈ keys m1 /\ entries m1 = entries mst) as (Hnd1 & Hu1 & He1).
  { unfold m1. destruct (contains mst u) eqn:Hc.
    - split_and!; [done| |done]. by apply contains_keys.
    - rewrite keys_add, entries_add_empty. split_and!; [| |done].
      + apply NoDup_app. split_and!; [done| |apply NoDup_singleton].
        intros x Hx ->%list_elem_of_singleton.
        apply contains_keys in Hx. congruence.
      + apply elem_of_app. right. by apply list_elem_of_singleton. }
  assert (NoDup (keys m2) /\ u ∈ keys m2 /\ v ∈ keys m2 /\ entries m2 = entries mst)
    as (Hnd2 & Hu2 & Hv2 & He2).
  { unfold m2. destruct (contains m1 v) eqn:Hc.
    - split_and!; [done..| |done]. by apply contains_keys.
    - rewrite keys_add, entries_add_empty. split_and!; [| | |done].
      + apply NoDup_app. split_and!; [done| |apply NoDup_singleton].
        intros x Hx ->%list_elem_of_singleton.
        apply contains_keys in Hx. congruence.
      + apply elem_of_app. by left.
      + apply elem_of_app. right. by apply list_elem_of_singleton. }
  split.
  - by rewrite !keys_update.
  - rewrite entries_update by (by rewrite keys_update).
    rewrite entries_update by done. rewrite He2. apply perm_swap.
Qed.

(** *** Kruskal's loop *)

(** [v] is in the adjacency list of [u]. *)
Definition adj (g : graph) (u v : node) : Prop :=
  exists nbrs, g !! u = Some nbrs /\ v ∈ nbrs.

(** Every neighbour is a node of the graph. *)
Definition closed (g : graph) : Prop :=
  map_Forall (fun _ nbrs => Forall (fun v => is_Some (g !! v)) nbrs) g.

#[global] Instance closed_dec g : Decision (closed g).
Proof. unfold closed. apply _. Defined.

(** Any two nodes are joined by adjacencies, taken in either direction. *)
Definition connected (g : graph) : Prop :=
  forall x y, is_Some (g !! x) -> is_Some (g !! y) -> rtsc (adj g) x y.

Lemma closed_adj g u v : closed g -> adj g u v -> is_Some (g !! u) /\ is_Some (g !! v).
Proof.
  intros Hc (nbrs & Hu & Hv). split; [by eexists|].
  pose proof (map_Forall_lookup_1 _ _ _ _ Hc Hu) as Hall.
  rewrite Forall_forall in Hall. by apply Hall.
Qed.

Lemma make_sets_lookup g s k :
  parent (make_sets g s) !! k =
    match g !! k with Some _ => Some k | None => parent s !! k end /\
  rank (make_sets g s) !! k =
    match g !! k with Some _ => Some 0 | None => rank s !! k end.
Proof.
  unfold make_sets.
  apply (map_fold_weak_ind (fun (r : dsu) (m : graph) =>
    parent r !! k = match m !! k with Some _ => Some k | None => parent s !! k end /\
    rank r !! k = match m !! k with Some _ => Some 0 | None => rank s !! k end)).
  - by rewrite lookup_empty.
  - intros i x m r Hi [IH1 IH2]. simpl. destruct (decide (i = k)) as [->|Hne].
    + by rewrite !lookup_insert_eq.
    + by rewrite !lookup_insert_ne.
Qed.

Section Kruskal.
Context (g : graph).
Hypothesis Hclosed : closed g.

Definition nodes : list node := (map_to_list g).*1.

Definition root_weight (p : gmap node node) (k : node) : nat :=
  if decide (p !! k = Some k) then 1 else 0.

(** The number of sets: the nodes that are their own parent. *)
Definition nroots (p : gmap node node) : nat := sum_list (root_weight p <$> nodes).

Lemma nodes_spec k : k ∈ nodes <-> is_Some (g !! k).
Proof.
  unfold nodes. rewrite list_elem_of_fmap. split.
  - intros ([k' x] & -> & Hin). apply elem_of_map_to_list in Hin. by eexists.
  - intros [x Hx]. exists (k, x). split; [done|]. by apply elem_of_map_to_list.
Qed.

Lemma NoDup_nodes : NoDup nodes.
Proof. apply NoDup_fst_map_to_list. Qed.

(** Every node of the graph has a root in the graph, and a rank. *)
Record wf (s : dsu) : Prop := {
  wf_root : forall x, is_Some (g !! x) ->
    exists r, root_of (parent s) x r /\ is_Some (g !! r);
  wf_rank : forall x, is_Some (g !! x) -> is_Some (rank s !! x);
}.

(** The invariant of the loop: [acc] are the edges accepted so far. *)
Record kinv (s : dsu) (mst : roads) (acc : list wedge) : Prop := {
  k_wf : wf s;
  k_conn : forall x y, is_Some (g !! x) -> is_Some (g !! y) ->
    same_set (parent s) x y <-> conn (pairs acc) x y;
  k_forest : forest (pairs acc);
  k_count : (nroots (parent s) + length acc = length nodes)%nat;
  k_keys : NoDup (keys mst);
  k_entries : entries mst ≡ₚ sym acc;
}.

Lemma wf_root_of s x r :
  wf s -> is_Some (g !! x) -> root_of (parent s) x r -> is_Some (g !! r).
Proof.
  intros Hwf Hx Hr. destruct (wf_root _ Hwf x Hx) as (r' & Hr' & ?).
  by rewrite (root_of_fun _ _ _ _ Hr Hr').
Qed.

(** Compressing paths keeps the invariant. *)
Lemma kinv_compress s p' mst acc :
  kinv s mst acc ->
  (forall y r, root_of (parent s) y r -> root_of p' y r) ->
  (forall y, p' !! y = Some y <-> parent s !! y = Some y) ->
  kinv (Dsu p' (rank s)) mst acc.
Proof.
  intros [Hwf Hconn Hf Hcount Hk He] Hroots Hself.
  assert (forall x y, is_Some (g !! x) -> is_Some (g !! y) ->
            same_set p' x y <-> same_set (parent s) x y) as Hsame.
  { intros x y Hx Hy. split.
    - intros (r & Hrx & Hry).
      destruct (wf_root _ Hwf x Hx) as (rx & Hrx' & _).
      destruct (wf_root _ Hwf y Hy) as (ry & Hry' & _).
      rewrite <- (root_of_fun _ _ _ _ Hrx (Hroots _ _ Hrx')) in Hrx'.
      rewrite <- (root_of_fun _ _ _ _ Hry (Hroots _ _ Hry')) in Hry'.
      by exists r.
    - intros (r & ? & ?). exists r. auto. }
  split; simpl; try done.
  - split; simpl; [|by apply Hwf].
    intros x Hx. destruct (wf_root _ Hwf x Hx) as (r & ? & ?). exists r. auto.
  - intros x y Hx Hy. rewrite Hsame by done. by apply Hconn.
  - rewrite <- Hcount. f_equal. unfold nroots. f_equal.
    apply list_fmap_ext. intros i k _. unfold root_weight.
    destruct (decide (p' !! k = Some k)) as [H1|H1],
             (decide (parent s !! k = Some k)) as [H2|H2]; try done.
    + by apply Hself in H1.
    + by apply Hself in H2.
Qed.

(** Accepting the edge [(w, u, v)] between two sets and linking their
    roots keeps the invariant. *)
Lemma kinv_union s s' mst acc w u v r1 r2 a b :
  kinv s mst acc -> is_Some (g !! u) -> is_Some (g !! v) ->
  root_of (parent s) u r1 -> root_of (parent s) v r2 -> r1 <> r2 ->
  ((a = r1 /\ b = r2) \/ (a = r2 /\ b = r1)) ->
  (forall z r, root_of (parent s) z r ->
     root_of (parent s') z (if decide (r = a) then b else r)) ->
  (forall z, parent s' !! z = Some z <->
     parent s !! z = Some z /\ (z = a -> a = b)) ->
  (forall x, is_Some (rank s !! x) -> is_Some (rank s' !! x)) ->
  kinv s' (add_edge mst u v w) ((w, u, v) :: acc).
Proof.
  intros [Hwf Hconn Hf Hcount Hk He] Hu Hv Hr1 Hr2 Hne Hab Hroots Hself Hrank.
  pose proof (wf_root_of _ _ _ Hwf Hu Hr1) as Hgr1.
  pose proof (wf_root_of _ _ _ Hwf Hv Hr2) as Hgr2.
  assert (a <> b) as Hanb by (destruct Hab as [[-> ->]|[-> ->]]; congruence).
  assert (is_Some (g !! a) /\ is_Some (g !! b)) as [Hga Hgb]
    by (destruct Hab as [[-> ->]|[-> ->]]; done).
  assert (~ conn (pairs acc) u v) as Hnconn.
  { intros Hc. apply Hconn in Hc as (r & Hru & Hrv); [|done..].
    apply Hne. by rewrite (root_of_fun _ _ _ _ Hr1 Hru), (root_of_fun _ _ _ _ Hr2 Hrv). }
  split.
  - split.
    + intros x Hx. destruct (wf_root _ Hwf x Hx) as (r & Hr & Hgr).
      eexists. split; [by apply Hroots|]. by case_decide.
    + intros x Hx. apply Hrank. by apply Hwf.
  - intros x y Hx Hy.
    destruct (wf_root _ Hwf x Hx) as (rx & Hrx & _).
    destruct (wf_root _ Hwf y Hy) as (ry & Hry & _).
    pose proof (Hroots _ _ Hrx) as Hrx'. pose proof (Hroots _ _ Hry) as Hry'.
    assert (forall z rz, is_Some (g !! z) -> root_of (parent s) z rz ->
              (rz = r1 <-> conn (pairs acc) z u) /\ (rz = r2 <-> conn (pairs acc) z v))
      as Hto.
    { intros z rz Hz Hrz. split.
      - rewrite <- (Hconn z u) by done. split.
        + intros ->. by exists r1.
        + intros (r & Hzr & Hur).
          by rewrite (root_of_fun _ _ _ _ Hrz Hzr), (root_of_fun _ _ _ _ Hr1 Hur).
      - rewrite <- (Hconn z v) by done. split.
        + intros ->. by exists r2.
        + intros (r & Hzr & Hvr).
          by rewrite (root_of_fun _ _ _ _ Hrz Hzr), (root_of_fun _ _ _ _ Hr2 Hvr). }
    destruct (Hto x rx Hx Hrx) as [Hx1 Hx2]. destruct (Hto y ry Hy Hry) as [Hy1 Hy2].
    assert (rx = ry <-> conn (pairs acc) x y) as Hxy.
    { rewrite <- (Hconn x y) by done. split.
      - intros ->. by exists ry.
      - intros (r & Hxr & Hyr).
        by rewrite (root_of_fun _ _ _ _ Hrx Hxr), (root_of_fun _ _ _ _ Hry Hyr). }
    assert (forall c d, conn (pairs acc) c d -> conn (pairs ((w, u, v) :: acc)) c d)
      as Hsub.
    { intros c d. apply conn_mono. intros e ?. by right. }
    assert (conn (pairs ((w, u, v) :: acc)) u v) as Huv.
    { apply conn_edge. by left. }
    split.
    + intros (r & Hxr & Hyr).
      pose proof (root_of_fun _ _ _ _ Hxr Hrx') as ->.
      pose proof (root_of_fun _ _ _ _ Hyr Hry') as Heq.
      destruct (decide (rx = ry)) as [Hsame|Hdiff].
      { apply Hsub. by apply Hxy. }
      assert ((rx = r1 /\ ry = r2) \/ (rx = r2 /\ ry = r1)) as [[? ?]|[? ?]].
      { destruct Hab as [[-> ->]|[-> ->]]; repeat case_decide; simplify_eq; auto. }
      * etrans; [apply Hsub; by apply Hx1|]. etrans; [exact Huv|].
        symmetry. apply Hsub. by apply Hy2.
      * etrans; [apply Hsub; by apply Hx2|]. etrans; [symmetry; exact Huv|].
        symmetry. apply Hsub. by apply Hy1.
    + intros Hc. simpl in Hc. apply conn_cons in Hc as [Hc|[[Hc1 Hc2]|[Hc1 Hc2]]].
      * apply Hxy in Hc. subst ry. by eexists.
      * apply Hx1 in Hc1. symmetry in Hc2. apply Hy2 in Hc2. subst rx ry.
        exists b. split.
        -- destruct Hab as [[-> ->]|[-> ->]]; by repeat case_decide.
        -- destruct Hab as [[-> ->]|[-> ->]]; by repeat case_decide.
      * apply Hx2 in Hc1. symmetry in Hc2. apply Hy1 in Hc2. subst rx ry.
        exists b. split.
        -- destruct Hab as [[-> ->]|[-> ->]]; by repeat case_decide.
        -- destruct Hab as [[-> ->]|[-> ->]]; by repeat case_decide.
  - simpl. by constructor.
  - assert (parent s !! a = Some a) as Hroot_a.
    { destruct Hab as [[-> _]|[-> _]]; by eapply root_of_root. }
    pose proof (sum_list_update (root_weight (parent s)) (root_weight (parent s'))
                  nodes a NoDup_nodes (proj2 (nodes_spec a) Hga)) as Hsum.
    lapply Hsum.
    + unfold root_weight at 2 4.
      destruct (decide (parent s !! a = Some a)); [|done].
      destruct (decide (parent s' !! a = Some a)) as [Hs'|_].
      { apply Hself in Hs' as [_ Hs']. by specialize (Hs' eq_refl). }
      intros Hs. unfold nroots in *. simpl. lia.
    + intros k Hka. unfold root_weight.
      destruct (decide (parent s' !! k = Some k)) as [H1|H1],
               (decide (parent s !! k = Some k)) as [H2|H2]; try done.
      * by apply Hself in H1 as [? _].
      * exfalso. apply H1, Hself. done.
  - by apply add_edge_spec.
  - destruct (add_edge_spec mst u v w Hk) as [_ ->]. simpl. by rewrite He.
Qed.

Lemma kruskal_loop_ok edges : forall s mst acc,
  kinv s mst acc ->
  (forall e : wedge, e ∈ edges -> is_Some (g !! e.1.2) /\ is_Some (g !! e.2)) ->
  exists fuel0 mst' s' acc',
    (forall fuel, (fuel0 <= fuel)%nat ->
       kruskal_loop fuel edges s mst = Some (mst', s')) /\
    kinv s' mst' acc' /\
    (forall x y, conn (pairs acc) x y -> conn (pairs acc') x y) /\
    (forall e : wedge, e ∈ edges -> conn (pairs acc') e.1.2 e.2).
Proof.
  induction edges as [|[[w u] v] edges IH]; intros s mst acc Hinv Hedges.
  - exists 0%nat, mst, s, acc. split_and!; [done..|].
    intros e He. by apply elem_of_nil in He.
  - destruct (Hedges (w, u, v)) as [Hu Hv]; [by left|]. simpl in Hu, Hv.
    assert (forall e : wedge, e ∈ edges -> is_Some (g !! e.1.2) /\ is_Some (g !! e.2))
      as Hrest by (intros e ?; apply Hedges; by right).
    pose proof (k_wf _ _ _ Hinv) as Hwf.
    destruct (wf_root _ Hwf u Hu) as (r1 & Hr1 & Hgr1).
    destruct (wf_root _ Hwf v Hv) as (r2 & Hr2 & Hgr2).
    destruct (find_spec _ _ _ Hr1) as (f1 & p1 & Hf1 & Hroots1 & Hself1).
    destruct (find_spec _ _ _ (Hroots1 _ _ Hr2)) as (f2 & p2 & Hf2 & Hroots2 & Hself2).
    set (s1 := Dsu p2 (rank s)).
    assert (kinv s1 mst acc) as Hinv1.
    { apply kinv_compress; [done|by auto|]. intros y. by rewrite Hself2. }
    destruct (decide (r1 = r2)) as [<-|Hne].
    + destruct (IH s1 mst acc Hinv1 Hrest) as (f3 & mst' & s' & acc' & Hl & ? & Hmono & Hc).
      exists (max (max f1 f2) f3), mst', s', acc'. split_and!; [|done..|].
      * intros fuel Hfuel. simpl. rewrite Hf1 by lia. simpl. rewrite Hf2 by lia.
        simpl. destruct (decide (r1 <> r1)); [done|]. apply Hl. lia.
      * intros e [->|?]%elem_of_cons; [|by apply Hc]. simpl.
        apply Hmono, (k_conn _ _ _ Hinv); [done..|]. by exists r1.
    + destruct (wf_rank _ Hwf r1 Hgr1) as [k1 Hk1].
      destruct (wf_rank _ Hwf r2 Hgr2) as [k2 Hk2].
      destruct (union_spec s1 u v r1 r2 k1 k2) as
        (f3 & s2 & a & b & Hun & Hab & Hroots3 & Hself3 & Hrank3); [by simpl; auto..|].
      assert (kinv s2 (add_edge mst u v w) ((w, u, v) :: acc)) as Hinv2.
      { eapply (kinv_union s1); try done; simpl; [by auto..|].
        intros x Hx. rewrite Hrank3. case_decide; [|done]. simpl.
        destruct (decide (r1 = x)) as [->|?].
        - rewrite lookup_insert_eq. by eexists.
        - by rewrite lookup_insert_ne. }
      destruct (IH s2 _ _ Hinv2 Hrest) as (f4 & mst' & s' & acc' & Hl & ? & Hmono & Hc).
      assert (forall x y, conn (pairs acc) x y -> conn (pairs acc') x y) as Hmono'.
      { intros x y Hxy. apply Hmono. revert Hxy. apply conn_mono.
        intros e ?. by right. }
      exists (max (max f1 f2) (max f3 f4)), mst', s', acc'. split_and!; [|done..|].
      * intros fuel Hfuel. simpl. rewrite Hf1 by lia. simpl. rewrite Hf2 by lia.
        simpl. destruct (decide (r1 <> r2)); [|done].
        fold s1. rewrite Hun by lia. simpl. apply Hl. lia.
      * intros e [->|?]%elem_of_cons; [|by apply Hc]. simpl.
        apply Hmono, conn_edge. by left.
Qed.

Lemma kinv_init s : kinv (make_sets g s) [] [].
Proof.
  assert (forall x, is_Some (g !! x) -> parent (make_sets g s) !! x = Some x) as Hp.
  { intros x [nbrs Hx]. destruct (make_sets_lookup g s x) as [-> _]. by rewrite Hx. }
  split.
  - split.
    + intros x Hx. exists x. split; [|done]. apply root_self. by apply Hp.
    + intros x [nbrs Hx]. destruct (make_sets_lookup g s x) as [_ ->].
      rewrite Hx. by eexists.
  - intros x y Hx Hy. split.
    + intros (r & Hrx & Hry).
      rewrite <- (root_of_fun _ _ _ _ (root_self _ _ (Hp x Hx)) Hrx) in Hry.
      by rewrite (root_of_fun _ _ _ _ (root_self _ _ (Hp y Hy)) Hry).
    + intros ->%conn_nil. exists y. split; apply root_self; by apply Hp.
  - constructor.
  - simpl. unfold nroots. rewrite (sum_list_fmap_same 1); [lia|].
    apply Forall_forall. intros k Hk%nodes_spec. unfold root_weight.
    by rewrite decide_True by by apply Hp.
  - simpl. constructor.
  - done.
Qed.

(** When the accepted edges join all nodes there is one set left. *)
Lemma kinv_one_root s mst acc :
  kinv s mst acc -> g <> ∅ ->
  (forall x y, is_Some (g !! x) -> is_Some (g !! y) -> conn (pairs acc) x y) ->
  nroots (parent s) = 1%nat.
Proof.
  intros Hinv Hne Hall.
  destruct (map_choose g Hne) as (x0 & nbrs & Hx0).
  assert (is_Some (g !! x0)) as Hgx0 by by eexists.
  destruct (wf_root _ (k_wf _ _ _ Hinv) x0 Hgx0) as (r0 & Hr0 & Hgr0).
  pose proof (sum_list_update_in (root_weight (parent s)) (fun _ => 0%nat)
                nodes r0 NoDup_nodes (proj2 (nodes_spec r0) Hgr0)) as Hsum.
  lapply Hsum.
  - rewrite sum_list_fmap_const. unfold root_weight at 1.
    rewrite decide_True by by eapply root_of_root. unfold nroots. lia.
  - intros k Hgk%nodes_spec Hk. unfold root_weight.
    destruct (decide (parent s !! k = Some k)) as [Hroot|]; [|done].
    exfalso. apply Hk.
    destruct (proj2 (k_conn _ _ _ Hinv k x0 Hgk Hgx0) (Hall _ _ Hgk Hgx0))
      as (r & Hkr & Hxr).
    rewrite <- (root_of_fun _ _ _ _ (root_self _ _ Hroot) Hkr) in Hxr.
    by rewrite (root_of_fun _ _ _ _ Hr0 Hxr).
Qed.

End Kruskal.

(** The edge list has an edge for every adjacency, and nothing else. *)
Lemma create_edge_list_spec g el :
  create_edge_list g = Some el ->
  (forall e : wedge, e ∈ el -> adj g e.1.2 e.2) /\
  (forall u v, adj g u v -> exists w, (w, u, v) ∈ el).
Proof.
  unfold create_edge_list. intros Hel.
  destruct (mapM _ (map_to_list g)) as [per_node|] eqn:Hm; simplify_eq/=.
  apply mapM_Some_1 in Hm. split.
  - intros e (ys & He & Hys)%list_elem_of_join.
    apply list_elem_of_lookup in Hys as [i Hi].
    destruct (Forall2_lookup_r _ _ _ _ _ Hm Hi) as ([u nbrs] & Hitem & Hmap).
    simpl in Hmap. apply mapM_Some_1 in Hmap.
    apply list_elem_of_lookup in He as [j Hj].
    destruct (Forall2_lookup_r _ _ _ _ _ Hmap Hj) as (v & Hv & Hw).
    destruct (calculate_weight u v) as [w|]; simplify_eq/=.
    exists nbrs. split.
    + apply elem_of_map_to_list. by eapply list_elem_of_lookup_2.
    + by eapply list_elem_of_lookup_2.
  - intros u v (nbrs & Hu & Hv).
    apply elem_of_map_to_list, list_elem_of_lookup in Hu as [i Hi].
    destruct (Forall2_lookup_l _ _ _ _ _ Hm Hi) as (ys & Hys & Hmap).
    simpl in Hmap. apply mapM_Some_1 in Hmap.
    apply list_elem_of_lookup in Hv as [j Hj].
    destruct (Forall2_lookup_l _ _ _ _ _ Hmap Hj) as (e & He & Hw).
    destruct (calculate_weight u v) as [w|]; simplify_eq/=.
    exists w. apply list_elem_of_join. exists ys.
    split; by eapply list_elem_of_lookup_2.
Qed.

(** A graph in which every node is, or is next to, one node [c] is
    connected. *)
Definition hub (g : graph) (c : node) : Prop :=
  map_Forall (fun v nbrs => v = c \/ c ∈ nbrs) g.

#[global] Instance hub_dec g c : Decision (hub g c).
Proof. unfold hub. apply _. Defined.

Lemma hub_connected g c : hub g c -> connected g.
Proof.
  intros Hhub.
  assert (forall x, is_Some (g !! x) -> rtsc (adj g) x c) as Hc.
  { intros x [nbrs Hx].
    destruct (map_Forall_lookup_1 _ _ _ _ Hhub Hx) as [->|Hin]; [done|].
    apply rtsc_lr. by exists nbrs. }
  intros x y Hx Hy. etrans; [by apply Hc|]. symmetry. by apply Hc.
Qed.

(** C2. For a connected graph on [N >= 1] nodes whose neighbours are all
    nodes of the graph, and the edge list made from it (in any order),
    [__kruskal] returns, given enough depth for [__find], a road
    dictionary with distinct keys whose adjacency entries are exactly the
    two directions of the edges of a list [tree] of [N - 1] edges; no edge
    of [tree] lies on a cycle, and [tree] joins any two nodes of the
    graph. *)
Theorem kruskal_spanning_tree g el edges s :
  closed g -> connected g -> g <> ∅ ->
  create_edge_list g = Some el -> edges ≡ₚ el ->
  exists fuel0, forall fuel, (fuel0 <= fuel)%nat ->
  exists mst sorted s' tree,
    kruskal fuel g edges s = Some (mst, sorted, s') /\
    NoDup (keys mst) /\
    entries mst ≡ₚ sym tree /\
    (length tree + 1 = size g)%nat /\
    acyclic (pairs tree) /\
    (forall x y, is_Some (g !! x) -> is_Some (g !! y) -> conn (pairs tree) x y).
Proof.
  intros Hclosed Hconn Hne Hel Hperm.
  destruct (create_edge_list_spec g el Hel) as [Hadj Hall].
  assert (merge_sort edge_le edges ≡ₚ el) as Hsorted.
  { by rewrite merge_sort_Permutation. }
  destruct (kruskal_loop_ok g (merge_sort edge_le edges) (make_sets g s) [] [])
    as (fuel0 & mst & s' & tree & Hloop & Hinv & _ & Hedges).
  { apply kinv_init. }
  { intros e He. rewrite Hsorted in He. by apply (closed_adj g), Hadj. }
  assert (forall x y, is_Some (g !! x) -> is_Some (g !! y) -> conn (pairs tree) x y)
    as Hjoin.
  { intros x y Hx Hy. specialize (Hconn x y Hx Hy).
    induction Hconn as [x|x z y Hstep _ IH]; [done|].
    assert (is_Some (g !! z)) as Hz.
    { destruct Hstep as [Hs|Hs]; by apply (closed_adj g) in Hs as [? ?]. }
    etrans; [|by apply IH].
    destruct Hstep as [Hs|Hs]; destruct (Hall _ _ Hs) as [w Hw];
      rewrite <- Hsorted in Hw; apply Hedges in Hw; simpl in Hw; [done|by symmetry]. }
  exists fuel0. intros fuel Hfuel.
  exists mst, (merge_sort edge_le edges), s', tree. split_and!.
  - unfold kruskal. by rewrite Hloop.
  - apply Hinv.
  - apply Hinv.
  - pose proof (k_count _ _ _ _ Hinv) as Hcount.
    rewrite (kinv_one_root g s' mst tree) in Hcount by done.
    unfold nodes in Hcount. rewrite length_fmap, length_map_to_list in Hcount. lia.
  - apply forest_acyclic, Hinv.
  - done.
Qed.

(** The graph of the four buildings at the corners of a unit square, each
    next to the three others. *)
Definition square : graph :=
  list_to_map [((0, 0), [(0, 1); (1, 0); (1, 1)]);
               ((0, 1), [(0, 0); (1, 0); (1, 1)]);
               ((1, 0), [(0, 0); (0, 1); (1, 1)]);
               ((1, 1), [(0, 0); (0, 1); (1, 0)])].

Definition square_edges : list wedge := default [] (create_edge_list square).

Lemma square_not_empty : square <> ∅.
Proof. intros H. pose proof (f_equal (fun m : graph => m !! (0, 0)) H) as H0. by vm_compute in H0. Qed.

Lemma kruskal_spanning_tree_witness :
  exists fuel0, forall fuel, (fuel0 <= fuel)%nat ->
  exists mst sorted s' tree,
    kruskal fuel square square_edges (Dsu ∅ ∅) = Some (mst, sorted, s') /\
    NoDup (keys mst) /\
    entries mst ≡ₚ sym tree /\
    (length tree + 1 = size square)%nat /\
    acyclic (pairs tree) /\
    (forall x y, is_Some (square !! x) -> is_Some (square !! y) ->
       conn (pairs tree) x y).
Proof.
  apply (kruskal_spanning_tree square square_edges square_edges (Dsu ∅ ∅)).
  - apply (bool_decide_unpack _). vm_compute. exact I.
  - apply (hub_connected square (0, 0)).
    apply (bool_decide_unpack _). vm_compute. exact I.
  - exact square_not_empty.
  - vm_compute. reflexivity.
  - reflexivity.
Defined.

End MSTFacts.

(** ** Additional connections between leaves *)

Module AdditionalConnectionsFacts.
Import OrderedDict OrderedDictFacts AdditionalConnections.

(** The two adjacency entries of every added connection
    [(node, nearest_node, distance)]. *)
Definition sym2 (added : list (node * node * Z)) : list (node * (node * Z)) :=
  added ≫= (fun e : node * node * Z => [(e.1.1, (e.1.2, e.2)); (e.1.2, (e.1.1, e.2))]).

(** [distance] was assigned in a scan from [n] over [others]. *)
Definition set_by (n : node) (others : list node) (distance : option Z) : Prop :=
  exists x d, x ∈ others /\ x <> n /\ calculate_weight n x = Some d /\
    distance = Some d.

Lemma set_by_cons n x others distance :
  set_by n others distance -> set_by n (x :: others) distance.
Proof. intros (y & d & ? & ? & ? & ?). exists y, d. split_and!; [by right|done..]. Qed.

Lemma scan_spec mst dmin n others : forall nearest distance,
  (forall x, x ∈ others -> is_Some (calculate_weight n x)) ->
  exists nearest' distance',
    scan mst dmin n others nearest distance = Some (nearest', distance') /\
    ((nearest' = nearest /\ (distance' = distance \/ set_by n others distance')) \/
     (exists m, nearest' = Some m /\ m ∈ others /\ m <> n /\
        set_by n others distance')).
Proof.
  induction others as [|o others IH]; intros nearest distance Htotal.
  - exists nearest, distance. simpl. auto.
  - assert (forall x, x ∈ others -> is_Some (calculate_weight n x)) as Htotal'
      by (intros x ?; apply Htotal; by right).
    simpl. destruct (decide (n <> o)) as [Hno|Hno].
    + destruct (Htotal o) as [d Hd]; [by left|]. rewrite Hd. simpl.
      assert (set_by n (o :: others) (Some d)) as Hset.
      { exists o, d. split_and!; [by left|done..]. }
      destruct ((d >? dmin) && negb (crosses_existing_edges mst n o)).
      * destruct (IH (Some o) (Some d) Htotal')
          as (nearest' & distance' & -> & [[-> Hdist]|(m & -> & ? & ? & ?)]).
        -- eexists _, _. split; [done|]. right. exists o.
           split_and!; [done|by left|done|].
           destruct Hdist as [->|?]; [done|by apply set_by_cons].
        -- eexists _, _. split; [done|]. right. exists m.
           split_and!; [done|by right|done|by apply set_by_cons].
      * destruct (IH nearest (Some d) Htotal')
          as (nearest' & distance' & -> & [[-> Hdist]|(m & -> & ? & ? & ?)]).
        -- eexists _, _. split; [done|]. left. split; [done|]. right.
           destruct Hdist as [->|?]; [done|by apply set_by_cons].
        -- eexists _, _. split; [done|]. right. exists m.
           split_and!; [done|by right|done|by apply set_by_cons].
    + destruct (IH nearest distance Htotal')
        as (nearest' & distance' & -> & [[-> Hdist]|(m & -> & ? & ? & ?)]).
      * eexists _, _. split; [done|]. left. split; [done|].
        destruct Hdist as [->|?]; [by left|right; by apply set_by_cons].
      * eexists _, _. split; [done|]. right. exists m.
        split_and!; [done|by right|done|by apply set_by_cons].
Qed.

(** What is known of an added connection: it runs from a leaf to another
    leaf, and its weight is what [__calculate_weight] gives for the first
    leaf and some other leaf. *)
Definition added_ok (leaves : list node) (e : node * node * Z) : Prop :=
  e.1.1 ∈ leaves /\ e.1.2 ∈ leaves /\ e.1.1 <> e.1.2 /\
  exists x, x ∈ leaves /\ x <> e.1.1 /\ calculate_weight e.1.1 x = Some e.2.

Lemma connect_all_spec dmin leaves todo : forall mst distance,
  (forall x, x ∈ todo -> x ∈ leaves) ->
  (forall x, x ∈ leaves -> x ∈ keys mst) ->
  (forall u v, u ∈ leaves -> v ∈ leaves -> is_Some (calculate_weight u v)) ->
  exists mst' added,
    connect_all dmin leaves todo mst distance = Some mst' /\
    keys mst' = keys mst /\
    entries mst' ≡ₚ entries mst ++ sym2 added /\
    added.*1.*1 `sublist_of` todo /\
    Forall (added_ok leaves) added.
Proof.
  induction todo as [|n todo IH]; intros mst distance Htodo Hkeys Htotal.
  - exists mst, []. simpl. rewrite app_nil_r. split_and!; try done; constructor.
  - assert (n ∈ leaves) as Hn by (apply Htodo; by left).
    assert (forall x, x ∈ todo -> x ∈ leaves) as Htodo'
      by (intros x ?; apply Htodo; by right).
    simpl.
    destruct (scan_spec mst dmin n leaves None distance)
      as (nearest & distance' & -> & Hscan); [by auto|]. simpl.
    destruct Hscan as [[-> _]|(m & -> & Hm & Hmn & (x & d & Hx & Hxn & Hd & ->))].
    + simpl. destruct (IH mst distance' Htodo' Hkeys Htotal)
        as (mst' & added & -> & ? & ? & ? & ?).
      exists mst', added. split_and!; try done. by apply sublist_cons.
    + simpl.
      set (mst1 := update (fun l => l ++ [(n, d)])
                     (update (fun l => l ++ [(m, d)]) mst n) m).
      assert (keys mst1 = keys mst) as Hk1 by (unfold mst1; by rewrite !keys_update).
      assert (entries mst1 ≡ₚ (m, (n, d)) :: (n, (m, d)) :: entries mst) as He1.
      { unfold mst1. rewrite entries_update by (rewrite keys_update; auto).
        by rewrite entries_update by auto. }
      destruct (IH mst1 (Some d) Htodo') as (mst' & added & -> & Hk & He & Hsub & Hall);
        [by rewrite Hk1|done|].
      exists mst', ((n, m, d) :: added). split_and!.
      * done.
      * by rewrite Hk, Hk1.
      * rewrite He, He1. simpl.
        rewrite <- Permutation_middle. rewrite (perm_swap (n, (m, d))).
        by rewrite <- Permutation_middle.
      * simpl. by apply sublist_skip.
      * constructor; [|done]. split_and!; simpl; [done..|by apply not_eq_sym|].
        exists x. done.
Qed.

(** A path of three buildings: the two ends are leaves, about 5.1 apart. *)
Definition bent_road : roads :=
  [((0, 0), [((2, 3), 3)]);
   ((2, 3), [((0, 0), 3); ((5, 1), 3)]);
   ((5, 1), [((2, 3), 3)])].

(** The weights of the added entries are exact distances: their squares
    are the squared distances of the endpoints. *)
Definition exact_weights (mst mst' : roads) : Prop :=
  forall u v w, (u, (v, w)) ∈ entries mst' -> (u, (v, w)) ∉ entries mst ->
    w * w = (u.1 - v.1) ^ 2 + (u.2 - v.2) ^ 2.

(** C4, as stated, fails: the weight of an added connection is not the
    exact distance.  The ends of [bent_road] are joined with weight 5, and
    the square of their distance is 26. *)
Lemma add_connections_not_exact :
  ~ (forall mst mst', add_connections mst 3 = Some mst' -> exact_weights mst mst').
Proof.
  intros H.
  assert (add_connections bent_road 3 =
    Some [((0, 0), [((2, 3), 3); ((5, 1), 5)]);
          ((2, 3), [((0, 0), 3); ((5, 1), 3)]);
          ((5, 1), [((2, 3), 3); ((0, 0), 5)])]) as Hrun
    by (vm_compute; reflexivity).
  specialize (H _ _ Hrun (0, 0) (5, 1) 5).
  lapply H; [intros H'; lapply H'; [intros Heq; by vm_compute in Heq|]|].
  - vm_compute. intros Hin.
    repeat (apply elem_of_cons in Hin as [Hin|Hin]; [discriminate Hin|]).
    by apply elem_of_nil in Hin.
  - vm_compute. do 1 apply list_elem_of_further. apply list_elem_of_here.
Qed.

(** The same road with a short branch: a third leaf, close to the first. *)
Definition forked_road : roads :=
  [((0, 0), [((2, 3), 3)]);
   ((2, 3), [((0, 0), 3); ((5, 1), 3); ((1, 2), 1)]);
   ((5, 1), [((2, 3), 3)]);
   ((1, 2), [((2, 3), 1)])].

(** The weight appended is the value of [distance] when the scan ends,
    the weight for the last leaf scanned: here the leaf [(5, 1)] is joined
    to [(0, 0)] with the weight 4 of its scan of [(1, 2)], and
    [__calculate_weight] gives 5 for the two ends. *)
Example add_connections_last_scanned :
  add_connections forked_road 3 =
    Some [((0, 0), [((2, 3), 3); ((5, 1), 4)]);
          ((2, 3), [((0, 0), 3); ((5, 1), 3); ((1, 2), 1)]);
          ((5, 1), [((2, 3), 3); ((0, 0), 4)]);
          ((1, 2), [((2, 3), 1)])] /\
  calculate_weight (5, 1) (0, 0) = Some 5 /\
  calculate_weight (5, 1) (1, 2) = Some 4.
Proof. split_and!; vm_compute; reflexivity. Qed.

(** C4, amended.  For a road dictionary with distinct keys (and
    coordinates for which [__calculate_weight] does not overflow),
    [add_connections] returns the dictionary with the same keys and, added
    to its adjacency entries, the two directions of a list [added] of
    connections [(leaf, other leaf, weight)], both with the same weight.
    The first ends of [added] are distinct leaves, in the order of the
    leaves: every leaf starts at most one connection, so there are at most
    as many as leaves.  Each weight is an integer that
    [__calculate_weight] (a rounded-down distance) gives for the first end
    and a leaf. *)
Theorem add_connections_spec mst dmin :
  NoDup (keys mst) ->
  (forall u v, u ∈ single_connection_nodes mst -> v ∈ single_connection_nodes mst ->
     is_Some (calculate_weight u v)) ->
  exists mst' added,
    add_connections mst dmin = Some mst' /\
    keys mst' = keys mst /\
    entries mst' ≡ₚ entries mst ++ sym2 added /\
    added.*1.*1 `sublist_of` single_connection_nodes mst /\
    NoDup (added.*1.*1) /\
    (length added <= length (single_connection_nodes mst))%nat /\
    Forall (added_ok (single_connection_nodes mst)) added.
Proof.
  intros Hnd Htotal.
  assert (single_connection_nodes mst `sublist_of` keys mst) as Hsub.
  { unfold single_connection_nodes, keys. apply fmap_sublist, sublist_filter. }
  destruct (connect_all_spec dmin (single_connection_nodes mst)
              (single_connection_nodes mst) mst None)
    as (mst' & added & Hrun & Hk & He & Hs & Hall); [done| |done|].
  { intros x Hx. by eapply elem_of_sublist. }
  exists mst', added. split_and!; try done.
  - eapply sublist_NoDup; [|done]. by eapply sublist_NoDup.
  - apply sublist_length in Hs. by rewrite !length_fmap in Hs.
Qed.

Lemma add_connections_spec_witness :
  exists mst' added,
    add_connections bent_road 3 = Some mst' /\
    keys mst' = keys bent_road /\
    entries mst' ≡ₚ entries bent_road ++ sym2 added /\
    added.*1.*1 `sublist_of` single_connection_nodes bent_road /\
    NoDup (added.*1.*1) /\
    (length added <= length (single_connection_nodes bent_road))%nat /\
    Forall (added_ok (single_connection_nodes bent_road)) added.
Proof.
  apply (add_connections_spec bent_road 3).
  - apply (bool_decide_unpack _). vm_compute. exact I.
  - intros u v Hu Hv.
    assert (forall x, x ∈ single_connection_nodes bent_road -> x = (0, 0) \/ x = (5, 1))
      as Hleaf.
    { intros x Hx. vm_compute in Hx.
      apply elem_of_cons in Hx as [->|Hx]; [by left|].
      apply elem_of_cons in Hx as [->|Hx]; [by right|].
      by apply elem_of_nil in Hx. }
    destruct (Hleaf u Hu) as [->| ->], (Hleaf v Hv) as [->| ->];
      vm_compute; eauto.
Defined.

End AdditionalConnectionsFacts.

(** ** The Bernoulli trials of the disease *)

Module DiseaseFacts.
Import Disease.

Lemma randint_range a b x : a <= b -> a <= randint a b x <= b.
Proof. intros. unfold randint. pose proof (Z.mod_pos_bound x (b - a + 1)). lia. Qed.

Lemma randint_id a b v : a <= v <= b -> randint a b (v - a) = v.
Proof. intros. unfold randint. rewrite Z.mod_small; lia. Qed.

(** The outcome of a trial for each of the values [randint] can give, as
    a list. *)
Definition outcomes (rate : float) : list bool :=
  (fun v => PrimFloat.ltb (Py.to_float v) (rate * 1000)%float) <$> seqZ 0 1001.

Lemma trial_outcomes rate x :
  outcomes rate !! Z.to_nat (randint 0 1000 x) = Some (trial rate x).
Proof.
  pose proof (randint_range 0 1000 x ltac:(lia)). unfold outcomes, trial.
  rewrite list_lookup_fmap, lookup_seqZ_lt by lia.
  cbn [fmap option_fmap option_map]. by rewrite Z.add_0_l, Z2Nat.id by lia.
Qed.

(** C6. [random.randint(0, 1000)] includes both ends: the integer drawn
    is one of the 1001 values 0..1000, and 1000 is drawn (from the raw
    value 1000).  A trial at the hourly probability 1.0 (a rate of 24 per
    day) fails on that draw, and of the 1001 draws 42 succeed at the
    hourly probability 1/24. *)
Theorem randint_includes_1000 :
  (forall x, 0 <= randint 0 1000 x <= 1000) /\
  randint 0 1000 1000 = 1000 /\
  infect (init 24 1 1 1 1) 1000 = false /\
  length (filter (fun b => b = true) (outcomes (infection_rate (init 1 1 1 1 1))))
    = 42%nat /\
  length (outcomes (infection_rate (init 1 1 1 1 1))) = 1001%nat.
Proof.
  split_and!; [|by vm_compute..].
  intros x. apply randint_range. lia.
Qed.

(** The trials of a disease with the rates 1.0 and 0.0 per day: a draw
    succeeds at 1.0 per day exactly when it is at most 41, and no draw
    succeeds at 0.0. *)
Lemma trial_one_per_day x :
  trial (1 / 24)%float x = bool_decide (randint 0 1000 x <= 41).
Proof.
  pose proof (trial_outcomes (1 / 24)%float x) as H.
  pose proof (randint_range 0 1000 x ltac:(lia)).
  assert (Forall2 (fun b v => b = bool_decide (v <= 41))
            (outcomes (1 / 24)%float) (seqZ 0 1001)) as Hall.
  { apply (bool_decide_unpack _). by vm_compute. }
  destruct (Forall2_lookup_l _ _ _ _ _ Hall H) as (v & Hv & ->).
  rewrite lookup_seqZ in Hv. destruct Hv as [-> _]. f_equal. apply bool_decide_ext. lia.
Qed.

Lemma trial_zero_per_day x : trial (0 / 24)%float x = false.
Proof.
  pose proof (trial_outcomes (0 / 24)%float x) as H.
  assert (Forall (fun b => b = false) (outcomes (0 / 24)%float)) as Hall.
  { apply (bool_decide_unpack _). by vm_compute. }
  rewrite Forall_forall in Hall. apply Hall.
  by eapply list_elem_of_lookup_2.
Qed.

End DiseaseFacts.

(** ** The infection status of a person *)

Module PersonFacts.
Import Disease DiseaseFacts Person.

(** A person at home, with an office and routes. *)
Definition resident (id : Z) (st : Status) (pos : position) : Person.t :=
  {| person_id := id; home_location := (0, 0); office_location := (3, 0);
     home_position := pos; office_position := Some (100, 0)%float;
     current_position := pos; home_radius := 5; office_radius := 5;
     home_to_office_route := [pos; (100, 0)%float];
     office_to_home_route := Some [(100, 0)%float; pos];
     speed := 1000; leave_home := 8; status := st;
     route := None; route_index := 0; moving := false;
     incubation_time := 48; seconds_per_hour := 1 |}.

(** C7, as stated, fails: with a recovery rate of 1.0 per day the hourly
    probability is 1/24, and an infected person whose draw is 500 stays
    infected. *)
Lemma recovery_not_certain :
  ~ (forall infection incubation sph rand p k,
       status p = Infected ->
       status (update_infection_status (init infection incubation 1 0 sph) rand p k).1
         = Recovered).
Proof.
  intros H.
  specialize (H 1%float 1%float 1%float (fun _ => 500)
                (resident 0 Infected (0, 0)%float) 0%nat eq_refl).
  by vm_compute in H.
Qed.

(** C7, amended.  For a disease with a recovery rate of 1.0 and a
    mortality rate of 0.0 per day, the hourly update of an infected person
    makes one draw for the recovery; the person becomes recovered exactly
    when that draw is at most 41 (below 1000/24), and otherwise stays
    infected, the draw for the mortality never succeeding. *)
Theorem update_infected_rate_one infection incubation sph rand p k :
  status p = Infected ->
  update_infection_status (init infection incubation 1 0 sph) rand p k =
    if bool_decide (randint 0 1000 (rand k) <= 41)
    then (set_infection p Recovered (moving p) (incubation_time p), S k)
    else (p, S (S k)).
Proof.
  intros Hp. unfold update_infection_status. rewrite Hp.
  unfold recover, die. simpl.
  by rewrite trial_one_per_day, trial_zero_per_day.
Qed.

Lemma update_infected_rate_one_witness :
  update_infection_status (init 1 2 1 0 1) (fun _ => 41)
    (resident 0 Infected (0, 0)%float) 0 =
    if bool_decide (randint 0 1000 41 <= 41)
    then (set_infection (resident 0 Infected (0, 0)%float) Recovered
            (moving (resident 0 Infected (0, 0)%float))
            (incubation_time (resident 0 Infected (0, 0)%float)), 1%nat)
    else (resident 0 Infected (0, 0)%float, 2%nat).
Proof.
  apply (update_infected_rate_one 1 2 1 (fun _ => 41)
           (resident 0 Infected (0, 0)%float) 0).
  reflexivity.
Defined.

End PersonFacts.

(** ** The population: terminal states, and the order of a tick *)

Module PopulationFacts.
Import Person PersonFacts Population.

(** [kept p q]: a person who was recovered is recovered, and a person who
    was deceased is deceased and where it was. *)
Definition kept (p q : Person.t) : Prop :=
  (status p = Recovered -> status q = Recovered) /\
  (status p = Deceased ->
     status q = Deceased /\ current_position q = current_position p).

Lemma kept_refl p : kept p p.
Proof. by split. Qed.

Lemma kept_trans p q r : kept p q -> kept q r -> kept p r.
Proof.
  intros [H1 H2] [H3 H4]. split; [by auto|].
  intros Hp. destruct (H2 Hp) as [Hq Hpos]. destruct (H4 Hq) as [? ?].
  split; congruence.
Qed.

Lemma all_kept_refl ps : Forall2 kept ps ps.
Proof. apply Forall_Forall2_diag, Forall_true, kept_refl. Qed.

Lemma all_kept_trans ps qs rs :
  Forall2 kept ps qs -> Forall2 kept qs rs -> Forall2 kept ps rs.
Proof.
  intros H. revert rs. induction H; inversion 1; subst; constructor;
    eauto using kept_trans.
Qed.

Lemma all_kept_insert ps i p q :
  ps !! i = Some p -> kept p q -> Forall2 kept ps (<[i := q]> ps).
Proof.
  intros Hi Hk. rewrite <- (list_insert_id ps i p) at 1 by done.
  apply Forall2_insert; [apply all_kept_refl|done].
Qed.

Lemma kept_exposed p : status p = Susceptible -> kept p (set_status p Exposed).
Proof. intros Hp. split; intros ?; congruence. Qed.

Lemma update_position_status p q : update_position p = Some q -> status q = status p.
Proof.
  unfold update_position. intros H.
  destruct (decide (status p = Deceased)); [by simplify_eq|].
  destruct (moving p); [|by simplify_eq].
  destruct (route p) as [r|]; [|done]. simpl in H.
  destruct (r !! route_index p); [|by simplify_eq].
  destruct (PrimFloat.ltb _ _); [by simplify_eq|].
  destruct (PrimFloat.eqb _ _); by simplify_eq.
Qed.

Lemma kept_update_position p q : update_position p = Some q -> kept p q.
Proof.
  intros H. pose proof (update_position_status p q H) as Hs.
  split; [congruence|]. intros Hp. split; [congruence|].
  unfold update_position in H. by rewrite decide_True in H by done; simplify_eq.
Qed.

Lemma kept_update_infection_status d rand p k :
  kept p (Person.update_infection_status d rand p k).1.
Proof.
  unfold Person.update_infection_status.
  split; intros Hp; rewrite Hp; done.
Qed.

Lemma kept_start_move_to_office p : kept p (start_move_to_office p).
Proof. unfold start_move_to_office. case_decide; [|apply kept_refl]. by split. Qed.

Lemma kept_start_move_to_home p : kept p (start_move_to_home p).
Proof. unfold start_move_to_home. case_decide; [|apply kept_refl]. by split. Qed.

(** A loop keeps what each round keeps. *)
Lemma for_each_kept {A} (f : state -> A -> option state) l :
  (forall st a st', f st a = Some st' -> Forall2 kept st.1 st'.1) ->
  forall st st', for_each f st l = Some st' -> Forall2 kept st.1 st'.1.
Proof.
  intros Hf. induction l as [|a l IH]; intros st st' Hrun; simpl in Hrun.
  - simplify_eq. apply all_kept_refl.
  - destruct (f st a) as [st1|] eqn:Hst1; simplify_eq/=.
    eapply all_kept_trans; [by eapply Hf|by apply IH].
Qed.

Lemma contact_kept d rand i st j st' :
  contact d rand i st j = Some st' -> Forall2 kept st.1 st'.1.
Proof.
  unfold contact. intros H.
  destruct (st.1 !! i) as [ind|]; simplify_eq/=.
  destruct (st.1 !! j) as [other|] eqn:Hj; simplify_eq/=.
  destruct (bool_decide (status other = Susceptible)) eqn:Hs; simpl in H;
    [|simplify_eq; apply all_kept_refl].
  apply bool_decide_eq_true in Hs.
  repeat (case_match; simplify_eq/=); try apply all_kept_refl.
  eapply all_kept_insert; [done|]. by apply kept_exposed.
Qed.

Lemma check_interactions_kept pop rand st i st' :
  check_interactions pop rand st i = Some st' -> Forall2 kept st.1 st'.1.
Proof.
  unfold check_interactions. intros H.
  destruct (st.1 !! i) as [ind|]; simplify_eq/=.
  case_decide; [|simplify_eq; apply all_kept_refl].
  destruct (route_intersections pop !! person_id ind) as [others|]; simplify_eq/=.
  revert H. apply for_each_kept. intros ? ? ?. apply contact_kept.
Qed.

Lemma move_and_check_kept pop rand st i st' :
  move_and_check pop rand st i = Some st' -> Forall2 kept st.1 st'.1.
Proof.
  unfold move_and_check. intros H.
  destruct (st.1 !! i) as [ind|] eqn:Hi; simplify_eq/=.
  destruct (update_position ind) as [ind'|] eqn:Hu; simplify_eq/=.
  eapply all_kept_trans; [|by eapply check_interactions_kept].
  simpl. eapply all_kept_insert; [done|]. by apply kept_update_position.
Qed.

Lemma share_building_kept d rand st j st' :
  share_building d rand st j = Some st' -> Forall2 kept st.1 st'.1.
Proof.
  unfold share_building. intros H.
  destruct (st.1 !! j) as [occ|] eqn:Hj; simplify_eq/=.
  destruct (bool_decide (status occ = Susceptible)) eqn:Hs; simpl in H;
    [|simplify_eq; apply all_kept_refl].
  apply bool_decide_eq_true in Hs.
  repeat (case_match; simplify_eq/=); try apply all_kept_refl.
  eapply all_kept_insert; [done|]. by apply kept_exposed.
Qed.

Lemma check_building_kept pop rand st i st' :
  check_building pop rand st i = Some st' -> Forall2 kept st.1 st'.1.
Proof.
  unfold check_building. intros H.
  destruct (st.1 !! i) as [ind|]; simplify_eq/=.
  case_decide; [|simplify_eq; apply all_kept_refl].
  match type of H with (?o ≫= _) = _ => destruct o as [occs|] end; simplify_eq/=.
  revert H. apply for_each_kept. intros ? ? ?. apply share_building_kept.
Qed.

Lemma progress_kept pop rand st i st' :
  progress pop rand st i = Some st' -> Forall2 kept st.1 st'.1.
Proof.
  unfold progress. intros H.
  destruct (st.1 !! i) as [ind|] eqn:Hi; simplify_eq/=.
  pose proof (kept_update_infection_status (disease pop) rand ind st.2) as Hk.
  destruct (Person.update_infection_status (disease pop) rand ind st.2) as [ind' k'].
  simplify_eq/=. by eapply all_kept_insert.
Qed.

Lemma apply_event_kept rand st e st' :
  apply_event rand st e = Some st' -> Forall2 kept (people st.1) (people st'.1).
Proof.
  destruct e; simpl; intros H.
  - destruct (update_positions st.1 rand st.2) as [r|] eqn:Hr; simplify_eq/=.
    revert Hr. unfold update_positions.
    apply (for_each_kept (move_and_check st.1 rand)). intros ? ? ?.
    apply move_and_check_kept.
  - destruct (update_infection_status st.1 rand st.2) as [r|] eqn:Hr; simplify_eq/=.
    unfold update_infection_status in Hr.
    destruct (for_each (check_building st.1 rand) _ _) as [st1|] eqn:H1; simplify_eq/=.
    eapply all_kept_trans.
    + revert H1. apply (for_each_kept (check_building st.1 rand)). intros ? ? ?.
      apply check_building_kept.
    + revert Hr. apply (for_each_kept (progress st.1 rand)). intros ? ? ?.
      apply progress_kept.
  - simplify_eq/=. unfold move_to_offices. apply Forall2_fmap_r, Forall_Forall2_diag.
    apply Forall_true, kept_start_move_to_office.
  - simplify_eq/=. unfold move_to_homes. apply Forall2_fmap_r, Forall_Forall2_diag.
    apply Forall_true, kept_start_move_to_home.
  - destruct (people st.1 !! i) as [p|] eqn:Hi; simplify_eq/=.
    eapply all_kept_insert; [done|]. apply kept_start_move_to_office.
  - destruct (people st.1 !! i) as [p|] eqn:Hi; simplify_eq/=.
    eapply all_kept_insert; [done|]. apply kept_start_move_to_home.
Qed.

Lemma run_kept rand events : forall st st',
  run rand st events = Some st' -> Forall2 kept (people st.1) (people st'.1).
Proof.
  unfold run. induction events as [|e events IH]; intros st st' H; simpl in H.
  - simplify_eq. apply all_kept_refl.
  - destruct (apply_event rand st e) as [st1|] eqn:H1; simplify_eq/=.
    eapply all_kept_trans; [by eapply apply_event_kept|by apply IH].
Qed.

(** A street of four: an infectious resident, a susceptible one who is
    one step away and on the way to the office, a recovered one and a
    deceased one. *)
Definition commuter : Person.t :=
  set_motion (resident 1 Susceptible (1, 0)%float) (1, 0)%float
             (Some [(100, 0)%float]) 0 true.

Definition street : Population.t :=
  {| people := [resident 0 Infected (0, 0)%float; commuter;
                resident 2 Recovered (2, 0)%float;
                set_motion (resident 3 Deceased (3, 0)%float) (3, 0)%float
                           (Some [(100, 0)%float]) 0 true];
     route_intersections :=
       list_to_map [(0, [1; 2; 3]%nat); (1, [0; 2; 3]%nat);
                    (2, [0; 1; 3]%nat); (3, [0; 1; 2]%nat)];
     houses := [Building (0, 0) [0; 1; 2; 3]%nat];
     offices := [Building (3, 0) [0; 1; 2; 3]%nat];
     disease := Disease.init 1 2 1 1 1 |}.

Definition a_day : list event :=
  [Tick; Hour; MoveToOffices; Tick; StartMoveToHome 3; Hour; MoveToHomes; Tick].

Definition street_after : Population.t * nat :=
  default (street, 0%nat) (run (fun k => Z.of_nat k * 7) (street, 0%nat) a_day).

(** C9. Through any sequence of ticks, hourly updates and starts of
    movement that the simulation completes, a person whose status is R
    keeps the status R, and a person whose status is D keeps the status D
    and its position. *)
Theorem terminal_states rand events pop k pop' k' i p :
  run rand (pop, k) events = Some (pop', k') ->
  people pop !! i = Some p ->
  exists q, people pop' !! i = Some q /\
    (status p = Recovered -> status q = Recovered) /\
    (status p = Deceased ->
       status q = Deceased /\ current_position q = current_position p).
Proof.
  intros Hrun Hi. apply run_kept in Hrun. simpl in Hrun.
  destruct (Forall2_lookup_l _ _ _ _ _ Hrun Hi) as (q & Hq & Hk).
  by exists q.
Qed.

Lemma terminal_states_witness :
  exists q, people street_after.1 !! 3%nat = Some q /\
    (status (set_motion (resident 3 Deceased (3, 0)%float) (3, 0)%float
                        (Some [(100, 0)%float]) 0 true) = Recovered ->
       status q = Recovered) /\
    (status (set_motion (resident 3 Deceased (3, 0)%float) (3, 0)%float
                        (Some [(100, 0)%float]) 0 true) = Deceased ->
       status q = Deceased /\
       current_position q =
         current_position (set_motion (resident 3 Deceased (3, 0)%float) (3, 0)%float
                                      (Some [(100, 0)%float]) 0 true)).
Proof.
  apply (terminal_states (fun k => Z.of_nat k * 7) a_day street 0%nat
           street_after.1 street_after.2 3%nat).
  - vm_compute. reflexivity.
  - reflexivity.
Defined.

(** *** The order of motion and contact checks in a tick *)

(** The first two persons of the street on their own. *)
Definition crossing : Population.t :=
  {| people := [resident 0 Infected (0, 0)%float; commuter];
     route_intersections := list_to_map [(0, [1%nat]); (1, [0%nat])];
     houses := [Building (0, 0) [0; 1]%nat];
     offices := [Building (3, 0) [0; 1]%nat];
     disease := Disease.init 1 2 1 1 1 |}.

(** C5, as stated, fails: in [update_positions] the contacts of a person
    are checked before the persons later in the roster have moved.  In
    [crossing] the infectious resident meets the commuter where the
    commuter was, one step away, and infects it; when all motion comes
    first the commuter is out of reach. *)
Lemma tick_not_all_motion_first :
  ~ (forall pop rand k, update_positions pop rand k = tick_all_motion_first pop rand k).
Proof.
  intros H. specialize (H crossing (fun _ => 0) 0%nat).
  vm_compute in H. discriminate H.
Qed.

(** [forget p]: the person [p] with the difference between S and E
    forgotten. *)
Definition forget (p : Person.t) : Person.t :=
  set_status p (match status p with Exposed => Susceptible | st => st end).

Lemma forget_set_exposed p :
  status p = Susceptible -> forget (set_status p Exposed) = forget p.
Proof. intros Hp. unfold forget. simpl. by rewrite Hp. Qed.

Lemma forget_cases p p' :
  forget p = forget p' ->
  p' = p \/ (status p = Susceptible /\ p' = set_status p Exposed) \/
  (status p' = Susceptible /\ p = set_status p' Exposed).
Proof.
  destruct p, p'. unfold forget, set_status. simpl. intros H.
  injection H as -> -> -> -> -> -> -> -> -> -> -> -> Hst -> -> -> -> ->.
  destruct status0, status1; simplify_eq; auto.
Qed.

Lemma update_position_exposed p :
  status p = Susceptible ->
  update_position (set_status p Exposed) =
    (fun q => set_status q Exposed) <$> update_position p.
Proof.
  intros Hp. unfold update_position. simpl. rewrite Hp.
  rewrite !decide_False by done.
  destruct (moving p); [|done].
  destruct (route p) as [r|]; [|done]. simpl.
  destruct (r !! route_index p); [|done].
  destruct (PrimFloat.ltb _ _); [done|].
  by destruct (PrimFloat.eqb _ _).
Qed.

(** The motion of a person does not look at the difference between S and
    E. *)
Lemma update_position_forget p p' q q' :
  forget p = forget p' ->
  update_position p = Some q -> update_position p' = Some q' ->
  forget q = forget q'.
Proof.
  intros [->|[[Hs ->]|[Hs ->]]]%forget_cases Hq Hq'.
  - congruence.
  - rewrite update_position_exposed, Hq in Hq' by done. simplify_eq/=.
    rewrite forget_set_exposed; [done|].
    by rewrite (update_position_status _ _ Hq).
  - rewrite update_position_exposed, Hq' in Hq by done. simplify_eq/=.
    rewrite forget_set_exposed; [done|].
    by rewrite (update_position_status _ _ Hq').
Qed.

Lemma for_each_forget {A} (f : state -> A -> option state) l :
  (forall st a st', f st a = Some st' -> forget <$> st'.1 = forget <$> st.1) ->
  forall st st', for_each f st l = Some st' -> forget <$> st'.1 = forget <$> st.1.
Proof.
  intros Hf. induction l as [|a l IH]; intros st st' Hrun; simpl in Hrun.
  - by simplify_eq.
  - destruct (f st a) as [st1|] eqn:Hst1; simplify_eq/=.
    rewrite (IH _ _ Hrun). by eapply Hf.
Qed.

Lemma contact_forget d rand i st j st' :
  contact d rand i st j = Some st' -> forget <$> st'.1 = forget <$> st.1.
Proof.
  unfold contact. intros H.
  destruct (st.1 !! i) as [ind|]; simplify_eq/=.
  destruct (st.1 !! j) as [other|] eqn:Hj; simplify_eq/=.
  destruct (bool_decide (status other = Susceptible)) eqn:Hs; simpl in H;
    [|by simplify_eq].
  apply bool_decide_eq_true in Hs.
  repeat (case_match; simplify_eq/=); try done.
  rewrite list_fmap_insert, forget_set_exposed by done.
  apply list_insert_id. by rewrite list_lookup_fmap, Hj.
Qed.

Lemma check_interactions_forget pop rand st i st' :
  check_interactions pop rand st i = Some st' -> forget <$> st'.1 = forget <$> st.1.
Proof.
  unfold check_interactions. intros H.
  destruct (st.1 !! i) as [ind|]; simplify_eq/=.
  case_decide; [|by simplify_eq].
  destruct (route_intersections pop !! person_id ind) as [others|]; simplify_eq/=.
  revert H. apply for_each_forget. intros ? ? ?. apply contact_forget.
Qed.

Lemma take_drop_step {A} (l1 l2 : list A) i x :
  l1 !! i = Some x -> (i < length l2)%nat ->
  <[i := x]> (take i l1 ++ drop i l2) = take (S i) l1 ++ drop (S i) l2.
Proof.
  intros Hx Hi. pose proof (lookup_lt_Some _ _ _ Hx).
  destruct (lookup_lt_is_Some_2 l2 i Hi) as [y Hy].
  rewrite (take_S_r _ _ _ Hx), (drop_S _ _ _ Hy), <- app_assoc. simpl.
  rewrite insert_app_r_alt by (rewrite length_take; lia).
  rewrite length_take, Nat.min_l by lia. by rewrite Nat.sub_diag.
Qed.

(** The rounds of a tick from the person at place [i] on: what has been
    moved is, but for S and E, what moving everybody first gives. *)
Lemma tick_rounds pop rand orig moved :
  Forall2 (fun p q => update_position p = Some q) orig moved ->
  forall m i st st', (i + m = length orig)%nat ->
  forget <$> st.1 = forget <$> (take i moved ++ drop i orig) ->
  for_each (move_and_check pop rand) st (seq i m) = Some st' ->
  forget <$> st'.1 = forget <$> moved.
Proof.
  intros Hmoved. pose proof (Forall2_length _ _ _ Hmoved) as Hlen.
  induction m as [|m IH]; intros i st st' Him Hst Hrun; simpl in Hrun.
  - simplify_eq. rewrite Hst.
    rewrite take_ge, drop_ge by lia. by rewrite app_nil_r.
  - destruct (move_and_check pop rand st i) as [st1|] eqn:Hstep; simplify_eq/=.
    apply (IH (S i) st1 st'); [lia| |done].
    unfold move_and_check in Hstep.
    destruct (st.1 !! i) as [ind|] eqn:Hi; simplify_eq/=.
    destruct (update_position ind) as [ind'|] eqn:Hu; simplify_eq/=.
    apply check_interactions_forget in Hstep. simpl in Hstep. rewrite Hstep.
    destruct (lookup_lt_is_Some_2 orig i) as [o Ho]; [lia|].
    destruct (Forall2_lookup_l _ _ _ _ _ Hmoved Ho) as (mv & Hmv & Hupd).
    assert (forget ind = forget o) as Hindo.
    { pose proof (f_equal (fun l => l !! i) Hst) as Hl. simpl in Hl.
      rewrite !list_lookup_fmap, Hi in Hl.
      rewrite lookup_app_r in Hl by (rewrite length_take; lia).
      rewrite length_take, Nat.min_l, Nat.sub_diag in Hl by lia.
      rewrite lookup_drop, Nat.add_0_r, Ho in Hl.
      cbv [fmap option_fmap option_map] in Hl. congruence. }
    rewrite <- (take_drop_step moved orig i mv) by (done || lia).
    rewrite !list_fmap_insert, Hst.
    by rewrite (update_position_forget _ _ _ _ Hindo Hu Hupd).
Qed.

(** Persons who are not moving stay as they are. *)
Lemma update_position_not_moving p : moving p = false -> update_position p = Some p.
Proof.
  intros Hm. unfold update_position. rewrite Hm.
  case_decide; [|done]. destruct p; simpl in *. by subst.
Qed.

Definition at_rest (ps : list Person.t) : Prop := Forall (fun p => moving p = false) ps.

Lemma for_each_at_rest {A} (f : state -> A -> option state) l :
  (forall st a st', at_rest st.1 -> f st a = Some st' -> at_rest st'.1) ->
  forall st st', at_rest st.1 -> for_each f st l = Some st' -> at_rest st'.1.
Proof.
  intros Hf. induction l as [|a l IH]; intros st st' Hst Hrun; simpl in Hrun.
  - by simplify_eq.
  - destruct (f st a) as [st1|] eqn:Hst1; simplify_eq/=. eauto.
Qed.

Lemma contact_at_rest d rand i st j st' :
  at_rest st.1 -> contact d rand i st j = Some st' -> at_rest st'.1.
Proof.
  unfold contact, at_rest. intros Hst H.
  destruct (st.1 !! i) as [ind|]; simplify_eq/=.
  destruct (st.1 !! j) as [other|] eqn:Hj; simplify_eq/=.
  repeat (case_match; simplify_eq/=); try done.
  apply Forall_insert; [done|]. simpl.
  rewrite Forall_forall in Hst. apply Hst. by eapply list_elem_of_lookup_2.
Qed.

Lemma check_interactions_at_rest pop rand st i st' :
  at_rest st.1 -> check_interactions pop rand st i = Some st' -> at_rest st'.1.
Proof.
  unfold check_interactions. intros Hst H.
  destruct (st.1 !! i) as [ind|]; simplify_eq/=.
  case_decide; [|by simplify_eq].
  destruct (route_intersections pop !! person_id ind) as [others|]; simplify_eq/=.
  revert H. apply for_each_at_rest; [|done]. intros ? ? ?. apply contact_at_rest.
Qed.

Lemma rounds_at_rest pop rand l : forall st,
  at_rest st.1 ->
  for_each (move_and_check pop rand) st l = for_each (check_interactions pop rand) st l.
Proof.
  induction l as [|i l IH]; intros st Hst; [done|]. simpl.
  assert (move_and_check pop rand st i = check_interactions pop rand st i) as ->.
  { unfold move_and_check. destruct (st.1 !! i) as [ind|] eqn:Hi.
    - simpl. rewrite update_position_not_moving.
      + simpl. rewrite list_insert_id by done. by destruct st.
      + unfold at_rest in Hst. rewrite Forall_forall in Hst. apply Hst.
        by eapply list_elem_of_lookup_2.
    - unfold check_interactions. by rewrite Hi. }
  destruct (check_interactions pop rand st i) as [st1|] eqn:Hc; [|done]. simpl.
  apply IH. by eapply check_interactions_at_rest.
Qed.

(** C5, amended.  When a tick and the all-motion-first procedure both
    complete, they leave every person with the same position, route and
    other attributes, and with the same status or with S in one and E in
    the other; and they give the same persons and make the same draws
    when no person is moving. *)
Theorem tick_motion_first pop rand k ps1 k1 ps2 k2 :
  update_positions pop rand k = Some (ps1, k1) ->
  tick_all_motion_first pop rand k = Some (ps2, k2) ->
  forget <$> ps1 = forget <$> ps2 /\
  (at_rest (people pop) -> ps1 = ps2 /\ k1 = k2).
Proof.
  intros H1 H2. split.
  - unfold tick_all_motion_first in H2.
    destruct (mapM update_position (people pop)) as [moved|] eqn:Hm; simplify_eq/=.
    apply mapM_Some_1 in Hm.
    apply for_each_forget in H2; [|intros ? ? ?; apply check_interactions_forget].
    simpl in H2. rewrite H2.
    apply (tick_rounds pop rand (people pop) moved Hm (length (people pop)) 0%nat
             (people pop, k) (ps1, k1)); [done| |done].
    simpl. by rewrite drop_0.
  - intros Hrest. unfold update_positions in H1.
    rewrite rounds_at_rest in H1 by done.
    unfold tick_all_motion_first in H2.
    assert (mapM update_position (people pop) = Some (people pop)) as Hm.
    { apply mapM_Some_2, Forall_Forall2_diag.
      eapply Forall_impl; [exact Hrest|]. intros p. apply update_position_not_moving. }
    rewrite Hm in H2. simpl in H2. rewrite H1 in H2. by simplify_eq.
Qed.

Definition crossing_tick : state :=
  default ([], 0%nat) (update_positions crossing (fun _ => 0) 0).

Definition crossing_motion_first : state :=
  default ([], 0%nat) (tick_all_motion_first crossing (fun _ => 0) 0).

Lemma tick_motion_first_witness :
  forget <$> crossing_tick.1 = forget <$> crossing_motion_first.1 /\
  (at_rest (people crossing) ->
     crossing_tick.1 = crossing_motion_first.1 /\
     crossing_tick.2 = crossing_motion_first.2).
Proof.
  apply (tick_motion_first crossing (fun _ => 0) 0%nat).
  - vm_compute. reflexivity.
  - vm_compute. reflexivity.
Defined.

End PopulationFacts.

(** ** The priority queue: what insertions and pops keep *)

Module QueueOrderFacts.
Import PriorityQueue PriorityQueueFacts.

Section Order.
Context {P : Type} (plt : P -> P -> bool).
Implicit Types (q : list (P * node)).

(** The items that a sequence of operations inserts. *)
Definition inserted (ops : list (op P)) : list node :=
  ops ≫= (fun o => match o with Insert item _ => [item] | Pop => [] end).

(** No item is lost and none is made up: the items queued at the start
    and the items inserted are, in some order, the items popped and the
    items still queued. *)
Theorem run_keeps_items ops : forall q items q',
  run plt ops q = Some (items, q') ->
  q.*2 ++ inserted ops ≡ₚ items ++ q'.*2.
Proof.
  induction ops as [|[item priority|] ops IH]; intros q items q' Hrun; simpl in Hrun.
  - simplify_eq. simpl. by rewrite app_nil_r.
  - apply IH in Hrun. rewrite <- Hrun.
    rewrite (insert_item_perm plt item priority q). unfold inserted. simpl.
    by rewrite <- Permutation_middle.
  - destruct (pop_item plt q) as [[item q1]|] eqn:Hpop; [|done].
    destruct (run plt ops q1) as [[items1 q2]|] eqn:Hrest; [|done].
    simplify_eq. apply IH in Hrest.
    destruct (pop_item_perm plt q item q1 Hpop) as [p Hq].
    unfold inserted in *. simpl. rewrite Hq. simpl. by rewrite Hrest.
Qed.

(** *** Insertion into a heap *)

(** The heap property on the list: no element is smaller than its
    parent, the element at [(index - 1) // 2]. *)
Definition heap q : Prop :=
  forall i, (0 < i < length q)%nat -> prio_lt plt q i ((i - 1) / 2) = false.

(** The queue after the calls [insert_item(item, priority)] for the
    [(priority, item)] of a list, on a new queue. *)
Definition fill (items : list (P * node)) : list (P * node) :=
  foldl (fun q e => insert_item plt e.2 e.1 q) [] items.

Lemma swap_lookup i j q k :
  (i < length q)%nat -> (j < length q)%nat ->
  swap i j q !! k =
    q !! (if decide (k = i) then j else if decide (k = j) then i else k).
Proof.
  intros Hi Hj. unfold swap.
  destruct (lookup_lt_is_Some_2 q i Hi) as [a Ha].
  destruct (lookup_lt_is_Some_2 q j Hj) as [b Hb]. rewrite Ha, Hb.
  destruct (decide (k = j)) as [->|Hkj].
  - rewrite list_lookup_insert_eq by (by rewrite length_insert).
    destruct (decide (j = i)) as [->|]; congruence.
  - rewrite list_lookup_insert_ne by done.
    destruct (decide (k = i)) as [->|Hki].
    + by rewrite list_lookup_insert_eq.
    + by rewrite list_lookup_insert_ne.
Qed.

Lemma prio_lt_swap i j q a b :
  (i < length q)%nat -> (j < length q)%nat ->
  prio_lt plt (swap i j q) a b =
    prio_lt plt q (if decide (a = i) then j else if decide (a = j) then i else a)
                  (if decide (b = i) then j else if decide (b = j) then i else b).
Proof. intros Hi Hj. unfold prio_lt. by rewrite !swap_lookup. Qed.

Lemma prio_lt_app_l q x a b :
  (a < length q)%nat -> (b < length q)%nat ->
  prio_lt plt (q ++ [x]) a b = prio_lt plt q a b.
Proof. intros. unfold prio_lt. by rewrite !lookup_app_l. Qed.

(** The priorities are ordered as numbers are. *)
Hypothesis plt_irrefl : forall a, plt a a = false.
Hypothesis plt_trans : forall a b c, plt a b = true -> plt b c = true -> plt a c = true.
Hypothesis plt_ntrans : forall a b c, plt a b = false -> plt b c = false -> plt a c = false.

Lemma prio_lt_asym q i j : prio_lt plt q i j = true -> prio_lt plt q j i = false.
Proof using plt_irrefl plt_trans.
  unfold prio_lt. destruct (q !! i) as [a|], (q !! j) as [b|]; try done.
  intros Hab. destruct (plt b.1 a.1) eqn:Hba; [|done].
  by rewrite <- (plt_irrefl a.1), <- (plt_trans _ _ _ Hab Hba).
Qed.

Lemma prio_lt_trans q i j k :
  prio_lt plt q i j = true -> prio_lt plt q j k = true -> prio_lt plt q i k = true.
Proof using plt_trans.
  unfold prio_lt. destruct (q !! i), (q !! j), (q !! k); try done. apply plt_trans.
Qed.

Lemma prio_lt_ntrans q i j k :
  (j < length q)%nat ->
  prio_lt plt q i j = false -> prio_lt plt q j k = false -> prio_lt plt q i k = false.
Proof using plt_ntrans.
  intros Hj. unfold prio_lt.
  destruct (lookup_lt_is_Some_2 q j Hj) as [b ->].
  destruct (q !! i), (q !! k); try done. apply plt_ntrans.
Qed.

(** [__bubble_up] repairs a list in which only the element at [index]
    may be smaller than its parent, its children being no smaller than
    that parent. *)
Lemma bubble_up_heap index q :
  (index < length q)%nat ->
  (forall i, (0 < i < length q)%nat -> i <> index ->
     prio_lt plt q i ((i - 1) / 2) = false) ->
  (forall c, (0 < c < length q)%nat -> ((c - 1) / 2 = index)%nat -> (0 < index)%nat ->
     prio_lt plt q c ((index - 1) / 2) = false) ->
  heap (bubble_up plt index q).
Proof using All.
  funelim (bubble_up plt index q); simp bubble_up; intros Hlen H1 H2.
  - intros i Hi. apply H1; lia.
  - cbv zeta. destruct (prio_lt plt q (S i) (i / 2)) eqn:Hlt.
    + pose proof (Nat.div_mod_eq i 2) as Hdiv.
      pose proof (Nat.mod_upper_bound i 2 ltac:(lia)) as Hmod.
      assert (i / 2 < length q)%nat as Hp by lia.
      apply H; rewrite ?swap_length; [done| |].
      * intros c Hc Hne. rewrite prio_lt_swap by done.
        pose proof (Nat.div_mod_eq (c - 1) 2).
        pose proof (Nat.mod_upper_bound (c - 1) 2 ltac:(lia)).
        rewrite (decide_False (P := (c = i / 2)%nat)) by done.
        destruct (decide (c = S i)) as [->|Hci].
        -- replace (S i - 1)%nat with i by lia.
           rewrite (decide_False (P := (i / 2 = S i)%nat)) by lia.
           rewrite (decide_True (P := (i / 2 = i / 2)%nat)) by done.
           by apply prio_lt_asym.
        -- destruct (decide ((c - 1) / 2 = S i)%nat) as [Heq|Hn1].
           ++ pose proof (H2 c ltac:(lia) Heq ltac:(lia)) as H2c.
              by replace (S i - 1)%nat with i in H2c by lia.
           ++ destruct (decide ((c - 1) / 2 = i / 2)%nat) as [Heq|Hn2].
              ** destruct (prio_lt plt q c (S i)) eqn:Hc2; [|done].
                 rewrite <- (H1 c) by lia. rewrite Heq.
                 symmetry. by eapply prio_lt_trans.
              ** apply (H1 c); lia.
      * intros c Hc Hpar Hpos. rewrite prio_lt_swap by done.
        pose proof (Nat.div_mod_eq (i / 2 - 1) 2).
        pose proof (Nat.mod_upper_bound (i / 2 - 1) 2 ltac:(lia)).
        rewrite (decide_False (P := ((i / 2 - 1) / 2 = S i)%nat)) by lia.
        rewrite (decide_False (P := ((i / 2 - 1) / 2 = i / 2)%nat)) by lia.
        assert (prio_lt plt q (i / 2) ((i / 2 - 1) / 2) = false) as Hpp
          by (apply H1; lia).
        pose proof (Nat.div_mod_eq (c - 1) 2).
        pose proof (Nat.mod_upper_bound (c - 1) 2 ltac:(lia)).
        destruct (decide (c = S i)) as [->|Hci]; [done|].
        rewrite decide_False by lia.
        apply (prio_lt_ntrans q c (i / 2)); [done| |done].
        rewrite <- Hpar. apply H1; lia.
    + intros c Hc. destruct (decide (c = S i)) as [->|Hne].
      * by replace (S i - 1)%nat with i by lia.
      * by apply H1.
Qed.

Lemma insert_item_heap item priority q :
  heap q -> heap (insert_item plt item priority q).
Proof using All.
  intros Hq. unfold insert_item. cbv zeta.
  rewrite length_app, Nat.add_1_r. replace (S (length q) - 1)%nat with (length q) by lia.
  apply bubble_up_heap; rewrite ?length_app, ?Nat.add_1_r.
  - lia.
  - intros i Hi Hne. pose proof (Nat.div_mod_eq (i - 1) 2).
    rewrite prio_lt_app_l by lia. apply Hq. lia.
  - intros c Hc Hpar _. pose proof (Nat.div_mod_eq (c - 1) 2).
    pose proof (Nat.mod_upper_bound (c - 1) 2 ltac:(lia)). lia.
Qed.

Lemma fill_heap items : heap (fill items).
Proof using All.
  unfold fill. induction items as [|e items IH] using rev_ind.
  - intros i Hi. simpl in Hi. lia.
  - rewrite foldl_app. simpl. by apply insert_item_heap.
Qed.

Lemma fill_perm items : fill items ≡ₚ items.
Proof.
  unfold fill. induction items as [|e items IH] using rev_ind; [done|].
  rewrite foldl_app. simpl. rewrite insert_item_perm, IH.
  destruct e. simpl. by rewrite Permutation_app_comm.
Qed.

(** In a heap no element is smaller than the first. *)
Lemma heap_first q e :
  heap q -> q !! 0%nat = Some e ->
  forall i x, q !! i = Some x -> plt x.1 e.1 = false.
Proof using plt_irrefl plt_ntrans.
  intros Hq He i. induction i as [i IH] using lt_wf_ind. intros x Hx.
  destruct (decide (i = 0%nat)) as [->|Hi].
  - assert (x = e) by congruence. subst. apply plt_irrefl.
  - pose proof (lookup_lt_Some _ _ _ Hx) as Hlen.
    pose proof (Nat.div_mod_eq (i - 1) 2).
    pose proof (Nat.mod_upper_bound (i - 1) 2 ltac:(lia)).
    destruct (lookup_lt_is_Some_2 q ((i - 1) / 2)) as [y Hy]; [lia|].
    apply (plt_ntrans _ y.1).
    + specialize (Hq i ltac:(lia)). unfold prio_lt in Hq. by rewrite Hx, Hy in Hq.
    + apply (IH ((i - 1) / 2)%nat); [lia|done].
Qed.

(** After insertions only, [pop_item] returns an item of least priority:
    the item is one of those inserted, the others stay queued, and none
    of the priorities inserted is smaller than its priority. *)
Theorem fill_pop_least items item q' :
  pop_item plt (fill items) = Some (item, q') ->
  exists p, items ≡ₚ (p, item) :: q' /\
    Forall (fun e => plt e.1 p = false) items.
Proof using All.
  intros Hpop. pose proof (fill_heap items) as Hheap.
  pose proof (fill_perm items) as Hperm.
  assert (exists p, fill items !! 0%nat = Some (p, item) /\
                    fill items ≡ₚ (p, item) :: q') as (p & H0 & Hq).
  { destruct (fill items) as [|[p x] [|e rest]]; simpl in Hpop; simplify_eq.
    - by exists p.
    - exists p. split; [done|]. by rewrite bubble_down_perm. }
  exists p. split; [by rewrite <- Hperm|].
  rewrite <- Hperm. apply Forall_forall. intros x Hx.
  apply list_elem_of_lookup_1 in Hx as [i Hi].
  apply (heap_first _ _ Hheap H0 i x Hi).
Qed.

End Order.

Lemma run_keeps_items_witness :
  [] ++ inserted heap_ops ≡ₚ
    [(1, 0); (2, 0); (3, 0)] ++ [(5, (5, 0)); (7, (7, 0)); (6, (6, 0)); (4, (4, 0))].*2.
Proof.
  apply (run_keeps_items Z.ltb heap_ops []). vm_compute. reflexivity.
Defined.

Lemma fill_pop_least_witness :
  exists p, [(3, (3, 0)); (1, (1, 0)); (2, (2, 0))] ≡ₚ (p, (1, 0)) :: [(2, (2, 0)); (3, (3, 0))] /\
    Forall (fun e => (e.1 <? p) = false) [(3, (3, 0)); (1, (1, 0)); (2, (2, 0))].
Proof.
  apply (fill_pop_least Z.ltb).
  - intros a. apply Z.ltb_irrefl.
  - intros a b c. rewrite !Z.ltb_lt. lia.
  - intros a b c. rewrite !Z.ltb_ge. lia.
  - vm_compute. reflexivity.
Defined.

End QueueOrderFacts.

(** ** Shortest paths: the path returned *)

Module DijkstraPathFacts.
Import PriorityQueue Dijkstra DijkstraFacts.

Lemma chain_fun P v l1 : chain P v l1 -> forall l2, chain P v l2 -> l1 = l2.
Proof.
  induction 1 as [s Hs|v u l Hv Hch IH]; intros l2 H2; inversion H2; simplify_eq.
  - done.
  - by rewrite (IH _ H0).
Qed.

(** The chain of a node passes through the chains of all its nodes. *)
Lemma chain_prefix P v l :
  chain P v l -> forall x, x ∈ l -> exists l1 l2, l = l1 ++ l2 /\ chain P x l1.
Proof.
  induction 1 as [s Hs|v u l Hv Hch IH]; intros x Hx.
  - apply list_elem_of_singleton in Hx as ->. exists [s], []. split; [done|by constructor].
  - apply elem_of_app in Hx as [Hx|Hx].
    + destruct (IH x Hx) as (l1 & l2 & -> & Hc). exists l1, (l2 ++ [v]).
      split; [by rewrite app_assoc|done].
    + apply list_elem_of_singleton in Hx as ->. exists (l ++ [v]), [].
      split; [by rewrite app_nil_r|by econstructor].
Qed.

Lemma chain_NoDup P v l : chain P v l -> NoDup l.
Proof.
  induction 1 as [s Hs|v u l Hv Hch IH].
  - apply NoDup_singleton.
  - apply NoDup_app. split_and!; [done| |apply NoDup_singleton].
    intros x Hx ->%list_elem_of_singleton.
    destruct (chain_prefix _ _ _ Hch v Hx) as (l1 & l2 & -> & Hc).
    assert (chain P v ((l1 ++ l2) ++ [v])) as Hc' by (by econstructor).
    pose proof (f_equal length (chain_fun _ _ _ Hc _ Hc')) as Hlen.
    rewrite !length_app in Hlen. simpl in Hlen. lia.
Qed.

Lemma trace_inv P fuel : forall n acc r,
  trace fuel P n acc = Some r -> exists l, chain P n l /\ r = l ++ acc.
Proof.
  induction fuel as [|fuel IH]; intros n acc r Ht; [done|]. simpl in Ht.
  destruct (P !! n) as [[p|]|] eqn:Hn; [| |done].
  - destruct (IH _ _ _ Ht) as (l & Hl & ->). exists (l ++ [n]).
    split; [by econstructor|by rewrite <- app_assoc].
  - simplify_eq. exists [n]. split; [by constructor|done].
Qed.

(** Whenever [compute] returns, the path it returns visits no node
    twice. *)
Theorem compute_path_simple fuel g st start end_ path weight st' :
  compute fuel g st start end_ = Some (path, weight, st') -> NoDup path.
Proof.
  unfold compute. intros H.
  destruct (loop fuel g _) as [st1|]; [|done]. simpl in H.
  destruct (distances st1 !! end_) as [[d|]|]; simplify_eq; try apply NoDup_nil_2.
  destruct (trace fuel (previous st1) end_ []) as [l|] eqn:Ht; simplify_eq/=.
  destruct (trace_inv _ _ _ _ _ Ht) as (l' & Hl & ->).
  rewrite app_nil_r. by eapply chain_NoDup.
Qed.

Lemma compute_path_simple_witness : NoDup [(0, 0); (1, 0); (0, 1)].
Proof.
  apply (compute_path_simple 20 town init (0, 0) (0, 1) _ (Fin 3)
           (default init (loop 20 town (start_state town init (0, 0))))).
  vm_compute. reflexivity.
Defined.

End DijkstraPathFacts.

(** ** The weight of a road *)

Module WeightFacts.

(** [int(math.sqrt(s))] is the integer square root of [s]. *)
Definition floor_ok (s : Z) : bool :=
  match Py.float_of_int s with
  | Some f =>
      match Py.int_of_float (PrimFloat.sqrt f) with
      | Some r => r =? Z.sqrt s
      | None => false
      end
  | None => false
  end.

Fixpoint all_from (n : nat) (s : Z) : bool :=
  match n with
  | O => true
  | S n' => floor_ok s && all_from n' (s + 1)
  end.

Lemma all_from_spec n : forall s,
  all_from n s = true -> forall k, s <= k < s + Z.of_nat n -> floor_ok k = true.
Proof.
  induction n as [|n IH]; intros s H k Hk; [lia|].
  simpl in H. apply andb_true_iff in H as [Hs Hrest].
  destruct (decide (k = s)) as [->|Hne]; [done|].
  apply (IH (s + 1)); [done|lia].
Qed.

(** The squared distances of a map of up to 217 by 217 tiles, all
    tried. *)
Lemma floor_table : all_from (Z.to_nat 93313) 0 = true.
Proof. vm_compute. reflexivity. Qed.

Lemma floor_sqrt s :
  0 <= s <= 93312 ->
  (f ← Py.float_of_int s; Py.int_of_float (PrimFloat.sqrt f)) = Some (Z.sqrt s).
Proof.
  intros Hs. pose proof (all_from_spec _ _ floor_table s ltac:(lia)) as H.
  unfold floor_ok in H.
  destruct (Py.float_of_int s) as [f|]; [|done]. simpl.
  destruct (Py.int_of_float (PrimFloat.sqrt f)) as [r|]; [|done].
  apply Z.eqb_eq in H. by subst.
Qed.

(** For two buildings at most 216 tiles apart in each coordinate (every
    map of a display of up to 2160 pixels with buildings of 10 pixels or
    more), [__calculate_weight] of [MST] and of [AdditionalConnections]
    raise no error and return the Euclidean distance rounded down,
    exactly: the [w] with [w * w <= dx * dx + dy * dy < (w + 1) * (w + 1)]. *)
Theorem calculate_weight_floor (node1 node2 : node) :
  Z.abs (node1.1 - node2.1) <= 216 -> Z.abs (node1.2 - node2.2) <= 216 ->
  exists w,
    MST.calculate_weight node1 node2 = Some w /\
    AdditionalConnections.calculate_weight node1 node2 = Some w /\
    0 <= w /\
    w * w <= (node1.1 - node2.1) * (node1.1 - node2.1)
             + (node1.2 - node2.2) * (node1.2 - node2.2)
          < (w + 1) * (w + 1).
Proof.
  unfold MST.calculate_weight, AdditionalConnections.calculate_weight.
  generalize (node1.1 - node2.1) (node1.2 - node2.2).
  intros a b Ha%Z.abs_le Hb%Z.abs_le.
  assert (0 <= a * a <= 216 * 216) by nia.
  assert (0 <= b * b <= 216 * 216) by nia.
  rewrite !Z.pow_2_r. rewrite floor_sqrt by lia.
  pose proof (Z.sqrt_spec (a * a + b * b) ltac:(lia)) as Hsq. cbv zeta in Hsq.
  pose proof (Z.sqrt_nonneg (a * a + b * b)).
  exists (Z.sqrt (a * a + b * b)). split_and!; try done; lia.
Qed.

Lemma calculate_weight_floor_witness :
  exists w,
    MST.calculate_weight (0, 0) (5, 1) = Some w /\
    AdditionalConnections.calculate_weight (0, 0) (5, 1) = Some w /\
    0 <= w /\
    w * w <= (0 - 5) * (0 - 5) + (0 - 1) * (0 - 1) < (w + 1) * (w + 1).
Proof. apply (calculate_weight_floor (0, 0) (5, 1)); simpl; lia. Defined.

End WeightFacts.

(** ** The graph of a map *)

Module CreateGraphFacts.
Import CreateGraph.

Definition to_node (ij : nat * nat) : node := (Z.of_nat ij.1, Z.of_nat ij.2).

#[global] Instance to_node_inj : Inj (=) (=) to_node.
Proof. intros [a b] [c d] H. unfold to_node in H. simplify_eq/=. f_equal; lia. Qed.

(** A tile with a building on it. *)
Definition building (m : map_array) (ij : nat * nat) : Prop :=
  exists v, tile m ij.1 ij.2 = Some v /\ v <> 0.

#[global] Instance building_dec m ij : Decision (building m ij).
Proof.
  unfold building. destruct (tile m ij.1 ij.2) as [v|].
  - destruct (decide (v = 0)); [right; intros (? & ? & ?); congruence|left; eauto].
  - right. by intros (? & ? & ?).
Defined.

(** A 2D array: all rows have one length. *)
Definition rectangular (m : map_array) : Prop :=
  forall row0 row, m !! 0%nat = Some row0 -> row ∈ m -> length row = length row0.

Lemma elem_of_indices rows columns ij :
  ij ∈ indices rows columns <-> (ij.1 < rows)%nat /\ (ij.2 < columns)%nat.
Proof.
  unfold indices. rewrite list_elem_of_bind. split.
  - intros (i & Hij & Hi). apply list_elem_of_fmap in Hij as (j & -> & Hj).
    apply elem_of_seq in Hi, Hj. simpl. lia.
  - intros [Hi Hj]. exists ij.1. split.
    + apply list_elem_of_fmap. exists ij.2. split; [by destruct ij|].
      apply elem_of_seq. lia.
    + apply elem_of_seq. lia.
Qed.

Lemma NoDup_indices rows columns : NoDup (indices rows columns).
Proof.
  unfold indices. apply NoDup_bind.
  - intros i1 i2 ij _ _ H1 H2.
    apply list_elem_of_fmap in H1 as (? & -> & _).
    apply list_elem_of_fmap in H2 as (? & ? & _). by simplify_eq.
  - intros i _. apply NoDup_fmap; [|apply NoDup_seq]. by intros ? ? ?; simplify_eq.
  - apply NoDup_seq.
Qed.

Lemma found_filter m l found :
  mapM (fun ij : nat * nat =>
          v ← tile m ij.1 ij.2;
          Some (if decide (v <> 0) then [(Z.of_nat ij.1, Z.of_nat ij.2)] else [])) l
    = Some found ->
  mjoin found = to_node <$> filter (building m) l.
Proof.
  intros H%mapM_Some_1. induction H as [|ij fs l found Hf _ IH]; [done|].
  destruct (tile m ij.1 ij.2) as [v|] eqn:Hv; simplify_eq/=.
  rewrite IH, filter_cons.
  destruct (decide (v = 0)) as [->|Hne].
  - rewrite (decide_False (P := 0 <> 0)) by (intros H; by apply H).
    rewrite decide_False; [done|]. intros (v' & ? & ?). congruence.
  - rewrite (decide_True (P := v <> 0)) by done.
    rewrite decide_True by (exists v; done). done.
Qed.

Lemma points_spec m pts :
  points m = Some pts ->
  exists row0, m !! 0%nat = Some row0 /\
    pts = to_node <$> filter (building m) (indices (length m) (length row0)).
Proof.
  unfold points. intros H.
  destruct (m !! 0%nat) as [row0|]; simplify_eq/=.
  destruct (mapM _ _) as [found|] eqn:Hf; simplify_eq/=.
  exists row0. split; [done|]. by apply found_filter.
Qed.

Lemma points_total m row0 :
  m !! 0%nat = Some row0 -> rectangular m -> is_Some (points m).
Proof.
  intros H0 Hrect. unfold points. rewrite H0. simpl.
  assert (is_Some (mapM (fun ij : nat * nat =>
            v ← tile m ij.1 ij.2;
            Some (if decide (v <> 0) then [(Z.of_nat ij.1, Z.of_nat ij.2)] else []))
            (indices (length m) (length row0)))) as [found ->]; [|by eexists].
  apply mapM_is_Some_2. apply Forall_forall. intros ij [Hi Hj]%elem_of_indices.
  unfold compose, tile. destruct (lookup_lt_is_Some_2 m ij.1 Hi) as [row Hrow]. rewrite Hrow.
  simpl. destruct (lookup_lt_is_Some_2 row ij.2) as [v ->]; [|by eexists].
  rewrite (Hrect row0 row H0); [done|]. by eapply list_elem_of_lookup_2.
Qed.

(** On a map with at least one row, [make_graph] returns the complete
    graph of the buildings: its keys are the coordinates [(i, j)] of the
    tiles that are not 0, each once, and the neighbours of a key are all
    the other keys.  On a map without rows it raises. *)
Theorem make_graph_complete m :
  m <> [] -> rectangular m ->
  exists g, make_graph m = Some g /\
    NoDup g.*1 /\
    (forall p, p ∈ g.*1 <->
       exists i j v, p = (Z.of_nat i, Z.of_nat j) /\ tile m i j = Some v /\ v <> 0) /\
    (forall p nbrs, (p, nbrs) ∈ g ->
       forall q, q ∈ nbrs <-> q ∈ g.*1 /\ q <> p) /\
    make_graph [] = None.
Proof.
  intros Hne Hrect. destruct m as [|row0 m']; [done|]. clear Hne.
  set (m := row0 :: m') in *.
  destruct (points_total m row0 eq_refl Hrect) as [pts Hpts].
  destruct (points_spec m pts Hpts) as (row0' & H0 & Heq).
  assert (row0' = row0) as -> by (unfold m in H0; simpl in H0; congruence).
  clear H0.
  exists ((fun point : node => (point, filter (fun other_point : node => point <> other_point) pts))
            <$> pts).
  assert (((fun point : node => (point, filter (fun other_point : node => point <> other_point) pts))
             <$> pts).*1 = pts) as Hkeys.
  { rewrite <- list_fmap_compose. apply list_fmap_id. }
  split_and!.
  - unfold make_graph. by rewrite Hpts.
  - rewrite Hkeys, Heq. apply NoDup_fmap; [apply _|].
    apply NoDup_filter, NoDup_indices.
  - intros p. rewrite Hkeys, Heq. rewrite list_elem_of_fmap. split.
    + intros ([i j] & -> & [(v & Hv & Hnz) _]%list_elem_of_filter). by exists i, j, v.
    + intros (i & j & v & -> & Hv & Hnz). exists (i, j). split; [done|].
      apply list_elem_of_filter. split; [by exists v|].
      apply elem_of_indices. simpl. unfold tile in Hv.
      destruct (m !! i) as [row|] eqn:Hrow; simplify_eq/=.
      pose proof (lookup_lt_Some _ _ _ Hrow) as Hi.
      pose proof (lookup_lt_Some _ _ _ Hv) as Hj.
      rewrite (Hrect row0 row eq_refl) in Hj by (by eapply list_elem_of_lookup_2).
      simpl in Hi. split; lia.
  - intros p nbrs Hp q. rewrite Hkeys.
    apply list_elem_of_fmap in Hp as (p' & ? & _). simplify_eq.
    rewrite list_elem_of_filter. split; [intros [? ?]|intros [? ?]]; split; congruence.
  - done.
Qed.

(** A row of three tiles, the outer two with buildings. *)
Definition terrace : map_array := [[1; 0; 2]].

Lemma make_graph_complete_witness :
  exists g, make_graph terrace = Some g /\
    NoDup g.*1 /\
    (forall p, p ∈ g.*1 <->
       exists i j v, p = (Z.of_nat i, Z.of_nat j) /\ tile terrace i j = Some v /\ v <> 0) /\
    (forall p nbrs, (p, nbrs) ∈ g ->
       forall q, q ∈ nbrs <-> q ∈ g.*1 /\ q <> p) /\
    make_graph [] = None.
Proof.
  apply (make_graph_complete terrace); [done|].
  intros row0 row H0 Hrow. vm_compute in H0. simplify_eq.
  by apply list_elem_of_singleton in Hrow as ->.
Defined.

End CreateGraphFacts.

(** ** Kruskal's algorithm: the tree is a minimum spanning tree *)

Module KruskalFacts.
Import ListFacts OrderedDict OrderedDictFacts MST MSTFacts.

(** *** The order of the edges *)

(** The order of the tuples [(weight, (x1, y1), (x2, y2))], component by
    component. *)
Lemma edge_le_spec (a b : wedge) :
  edge_le a b <->
  a.1.1 < b.1.1 \/
  (a.1.1 = b.1.1 /\
   (a.1.2.1 < b.1.2.1 \/
    (a.1.2.1 = b.1.2.1 /\
     (a.1.2.2 < b.1.2.2 \/
      (a.1.2.2 = b.1.2.2 /\
       (a.2.1 < b.2.1 \/ (a.2.1 = b.2.1 /\ a.2.2 <= b.2.2))))))).
Proof.
  unfold edge_le, edge_leb, node_ltb, node_eqb.
  rewrite !orb_true_iff, !andb_true_iff, !orb_true_iff, !andb_true_iff.
  rewrite negb_true_iff, orb_false_iff, andb_false_iff.
  rewrite !Z.ltb_lt, !Z.eqb_eq, !Z.ltb_ge, Z.eqb_neq. lia.
Qed.

#[global] Instance edge_le_total : Total edge_le.
Proof. intros a b. rewrite !edge_le_spec. lia. Qed.

#[global] Instance edge_le_trans : Transitive edge_le.
Proof. intros a b c. rewrite !edge_le_spec. lia. Qed.

#[global] Instance edge_le_antisymm : AntiSymm (=) edge_le.
Proof.
  intros [[w1 [x1 y1]] [x2 y2]] [[w1' [x1' y1']] [x2' y2']].
  rewrite !edge_le_spec. simpl. intros H1 H2.
  assert (w1 = w1' /\ x1 = x1' /\ y1 = y1' /\ x2 = x2' /\ y2 = y2') by lia.
  by destruct_and!; subst.
Qed.

Lemma edge_le_weight a b : edge_le a b -> a.1.1 <= b.1.1.
Proof. rewrite edge_le_spec. lia. Qed.

Lemma sorted_weights (edges : list wedge) :
  StronglySorted (fun a b : wedge => a.1.1 <= b.1.1) (merge_sort edge_le edges).
Proof.
  pose proof (StronglySorted_merge_sort edge_le edges) as H.
  induction H as [|e l Hl IH Hall]; constructor; [done|].
  eapply Forall_impl; [exact Hall|]. intros b. apply edge_le_weight.
Qed.

(** [sort()] gives one result for all the orders in which the edges may
    be listed, so [__kruskal] does not depend on the order in which
    [__create_edge_list] goes through the dictionary. *)
Theorem kruskal_edge_order fuel g edges edges' s :
  edges ≡ₚ edges' -> kruskal fuel g edges s = kruskal fuel g edges' s.
Proof.
  intros Hperm. unfold kruskal.
  assert (merge_sort edge_le edges = merge_sort edge_le edges') as ->; [|done].
  apply (Sorted_unique edge_le); [apply Sorted_merge_sort, _..|].
  by rewrite !merge_sort_Permutation.
Qed.

Lemma kruskal_edge_order_witness :
  kruskal 5 square square_edges (Dsu ∅ ∅)
  = kruskal 5 square (reverse square_edges) (Dsu ∅ ∅).
Proof.
  apply (kruskal_edge_order 5 square square_edges (reverse square_edges)).
  by rewrite reverse_Permutation.
Defined.

(** *** Counting the classes of a forest *)

Section Rank.
Context (V : list node).
Hypothesis HV : NoDup V.

(** [reps es rho]: [rho] picks one node of [V] in every class of [V]
    joined by [es]. *)
Definition reps (es : list (node * node)) (rho : node -> node) : Prop :=
  (forall x, x ∈ V -> rho x ∈ V /\ conn es x (rho x)) /\
  (forall x y, x ∈ V -> y ∈ V -> conn es x y -> rho x = rho y).

Definition nclasses (rho : node -> node) : nat :=
  length (filter (fun x => rho x = x) V).

Lemma reps_idemp es rho x : reps es rho -> x ∈ V -> rho (rho x) = rho x.
Proof.
  intros [H1 H2] Hx. destruct (H1 x Hx) as [Hin Hc].
  symmetry. by apply H2.
Qed.

Lemma filter_ext_in {A} (P P' : A -> Prop)
  `{!forall x, Decision (P x)} `{!forall x, Decision (P' x)} (l : list A) :
  (forall x, x ∈ l -> P' x <-> P x) -> filter P' l = filter P l.
Proof.
  induction l as [|x l IH]; intros Hiff; [done|].
  rewrite !filter_cons.
  rewrite IH by (intros y ?; apply Hiff; by right).
  pose proof (Hiff x ltac:(by left)).
  destruct (decide (P x)).
  - by rewrite (decide_True (P := P' x)) by tauto.
  - by rewrite (decide_False (P := P' x)) by tauto.
Qed.

Lemma filter_all {A} (P : A -> Prop) `{!forall x, Decision (P x)} (l : list A) :
  (forall x, x ∈ l -> P x) -> filter P l = l.
Proof.
  induction l as [|x l IH]; intros Hall; [done|].
  rewrite filter_cons, decide_True by (apply Hall; by left).
  rewrite IH; [done|]. intros y ?. apply Hall. by right.
Qed.

Lemma filter_remove_one (P P' : node -> Prop)
  `{!forall x, Decision (P x)} `{!forall x, Decision (P' x)} (l : list node) r :
  NoDup l -> r ∈ l -> P r ->
  (forall x, x ∈ l -> P' x <-> P x /\ x <> r) ->
  (length (filter P' l) + 1 = length (filter P l))%nat.
Proof.
  intros Hnd Hr HPr Hiff. induction l as [|x l IH]; [by apply elem_of_nil in Hr|].
  apply NoDup_cons in Hnd as [Hx Hnd]. rewrite !filter_cons.
  destruct (decide (x = r)) as [->|Hne].
  - rewrite (decide_True (P := P r)) by done.
    rewrite (decide_False (P := P' r)).
    + simpl. f_equal. rewrite Nat.add_1_r. f_equal.
      assert (filter P' l = filter P l) as ->; [|lia].
      apply filter_ext_in. intros y Hy.
      rewrite (Hiff y) by (by right). split; [tauto|].
      intros ?. split; [done|]. intros ->. done.
    + rewrite (Hiff r) by (by left). tauto.
  - apply elem_of_cons in Hr as [?|Hr]; [congruence|].
    assert (forall y, y ∈ l -> P' y <-> P y /\ y <> r) as Hiff'
      by (intros y ?; apply Hiff; by right).
    specialize (IH Hnd Hr Hiff').
    pose proof (Hiff x ltac:(by left)) as Hxx.
    destruct (decide (P x)).
    + rewrite (decide_True (P := P' x)) by tauto. simpl. lia.
    + rewrite (decide_False (P := P' x)) by tauto. done.
Qed.

(** A forest of [k] edges on [V] leaves [|V| - k] classes. *)
Lemma forest_reps es :
  forest es -> (forall e, e ∈ es -> e.1 ∈ V /\ e.2 ∈ V) ->
  exists rho, reps es rho /\ (nclasses rho + length es = length V)%nat.
Proof using HV.
  induction 1 as [|u v es Hf IH Hnot]; intros Hends.
  - exists id. split; [split|].
    + intros x Hx. split; [done|]. reflexivity.
    + intros x y _ _ Hc. by apply conn_nil in Hc.
    + unfold nclasses. simpl. rewrite Nat.add_0_r. f_equal.
      by apply filter_all.
  - destruct (Hends (u, v)) as [Hu Hv]; [by left|]. simpl in Hu, Hv.
    destruct IH as (rho & Hrho & Hcount); [intros e ?; apply Hends; by right|].
    pose proof Hrho as [H1 H2].
    assert (forall x y, conn es x y -> conn ((u, v) :: es) x y) as Hmono.
    { intros x y. apply conn_mono. intros e ?. by right. }
    assert (conn ((u, v) :: es) v u) as Hvu.
    { symmetry. apply conn_edge. by left. }
    assert (rho u <> rho v) as Hne.
    { intros Heq. apply Hnot. destruct (H1 u Hu) as [_ Hcu], (H1 v Hv) as [_ Hcv].
      etrans; [exact Hcu|]. rewrite Heq. by symmetry. }
    exists (fun x => if decide (rho x = rho v) then rho u else rho x).
    split; [split|].
    + intros x Hx. destruct (H1 x Hx) as [Hin Hc]. case_decide as Hxv.
      * split; [by apply H1|]. destruct (H1 u Hu) as [_ Hcu], (H1 v Hv) as [_ Hcv].
        etrans; [apply Hmono, Hc|]. rewrite Hxv.
        etrans; [symmetry; apply Hmono, Hcv|]. etrans; [exact Hvu|by apply Hmono].
      * split; [done|by apply Hmono].
    + intros x y Hx Hy Hc.
      assert (forall a b, a ∈ V -> b ∈ V -> conn es a u -> conn es v b ->
                (if decide (rho a = rho v) then rho u else rho a) =
                (if decide (rho b = rho v) then rho u else rho b)) as Hcross.
      { intros a b Ha Hb Hau Hvb.
        rewrite (H2 a u Ha Hu Hau). rewrite <- (H2 v b Hv Hb Hvb).
        rewrite (decide_False (P := rho u = rho v)) by done.
        by rewrite (decide_True (P := rho v = rho v)) by done. }
      apply conn_cons in Hc as [Hc|[[Hxu Hvy]|[Hxv Huy]]].
      * by rewrite (H2 x y Hx Hy Hc).
      * by apply Hcross.
      * symmetry. apply Hcross; [done..|by symmetry|by symmetry].
    + unfold nclasses in *. simpl.
      pose proof (reps_idemp es rho v Hrho Hv) as Hidv.
      pose proof (reps_idemp es rho u Hrho Hu) as Hidu.
      rewrite <- Hcount.
      rewrite <- (filter_remove_one (fun x => rho x = x)
                    (fun x => (if decide (rho x = rho v) then rho u else rho x) = x)
                    V (rho v)); [lia|done|by apply H1|done|].
      intros x Hx. case_decide as Hxv.
      * split; [|intros [Hxx ?]; congruence].
        intros Hux. exfalso. apply Hne. rewrite <- Hxv, <- Hux. by rewrite Hidu.
      * split; [intros Hxx; split; [done|congruence]|tauto].
Qed.

(** A forest whose classes lie within those of another has no more
    edges. *)
Lemma forest_rank F A :
  forest F -> forest A ->
  (forall e, e ∈ F -> e.1 ∈ V /\ e.2 ∈ V) ->
  (forall e, e ∈ A -> e.1 ∈ V /\ e.2 ∈ V) ->
  (forall x y, x ∈ V -> y ∈ V -> conn F x y -> conn A x y) ->
  (length F <= length A)%nat.
Proof using HV.
  intros HF HA HFV HAV Hsub.
  destruct (forest_reps F HF HFV) as (rF & [F1 F2] & HcF).
  destruct (forest_reps A HA HAV) as (rA & [A1 A2] & HcA).
  assert (nclasses rA <= nclasses rF)%nat; [|lia].
  unfold nclasses.
  assert (filter (fun x => rA x = x) V ⊆+ rA <$> filter (fun x => rF x = x) V) as Hsm.
  { apply NoDup_submseteq; [by apply NoDup_filter|].
    intros r [Hr HrV]%list_elem_of_filter. apply list_elem_of_fmap.
    destruct (F1 r HrV) as [HinF HcF'].
    exists (rF r). split.
    - rewrite <- Hr at 1. apply A2; [done..|]. by apply Hsub.
    - apply list_elem_of_filter. split; [|done].
      symmetry. by apply F2. }
  apply submseteq_length in Hsm. by rewrite length_fmap in Hsm.
Qed.

End Rank.

(** *** The loop takes the edges lightest first *)

(** The edges of weight at most [t]. *)
Definition upto (t : Z) (es : list wedge) : list wedge :=
  filter (fun e : wedge => e.1.1 <= t) es.

Lemma elem_of_upto t es e : e ∈ upto t es <-> e.1.1 <= t /\ e ∈ es.
Proof. unfold upto. by rewrite list_elem_of_filter. Qed.

Lemma elem_of_pairs es u v : (u, v) ∈ pairs es <-> exists w, (w, u, v) ∈ es.
Proof.
  unfold pairs. rewrite list_elem_of_fmap. split.
  - intros ([[w a] b] & Heq & Hin). simplify_eq/=. by exists w.
  - intros [w Hin]. by exists (w, u, v).
Qed.

Lemma conn_pairs_mono es es' x y :
  (forall e, e ∈ es -> e ∈ es') -> conn (pairs es) x y -> conn (pairs es') x y.
Proof.
  intros Hsub. apply conn_mono. intros [u v] [w Hin]%elem_of_pairs.
  apply elem_of_pairs. exists w. by apply Hsub.
Qed.

(** When the edges come in the order of their weights, the ends of every
    edge the loop has gone through are joined by accepted edges that are
    no heavier. *)
Lemma kruskal_loop_greedy g edges : forall s mst acc,
  kinv g s mst acc ->
  (forall e : wedge, e ∈ edges -> is_Some (g !! e.1.2) /\ is_Some (g !! e.2)) ->
  StronglySorted (fun a b : wedge => a.1.1 <= b.1.1) edges ->
  (forall a e : wedge, a ∈ acc -> e ∈ edges -> a.1.1 <= e.1.1) ->
  exists fuel0 mst' s' acc',
    (forall fuel, (fuel0 <= fuel)%nat ->
       kruskal_loop fuel edges s mst = Some (mst', s')) /\
    kinv g s' mst' acc' /\
    (forall a, a ∈ acc -> a ∈ acc') /\
    (forall a, a ∈ acc' -> a ∈ acc \/ a ∈ edges) /\
    (forall e : wedge, e ∈ edges -> conn (pairs (upto e.1.1 acc')) e.1.2 e.2).
Proof.
  induction edges as [|[[w u] v] edges IH]; intros s mst acc Hinv Hedges Hsorted Hlight.
  - exists 0%nat, mst, s, acc. split_and!; [done|done|done|by left|].
    intros e He. by apply elem_of_nil in He.
  - destruct (Hedges (w, u, v)) as [Hu Hv]; [by left|]. simpl in Hu, Hv.
    assert (forall e : wedge, e ∈ edges -> is_Some (g !! e.1.2) /\ is_Some (g !! e.2))
      as Hrest by (intros e ?; apply Hedges; by right).
    apply StronglySorted_inv in Hsorted as [Hsorted Hhead].
    rewrite Forall_forall in Hhead.
    pose proof (k_wf _ _ _ _ Hinv) as Hwf.
    destruct (wf_root _ _ Hwf u Hu) as (r1 & Hr1 & Hgr1).
    destruct (wf_root _ _ Hwf v Hv) as (r2 & Hr2 & Hgr2).
    destruct (find_spec _ _ _ Hr1) as (f1 & p1 & Hf1 & Hroots1 & Hself1).
    destruct (find_spec _ _ _ (Hroots1 _ _ Hr2)) as (f2 & p2 & Hf2 & Hroots2 & Hself2).
    set (s1 := Dsu p2 (rank s)).
    assert (kinv g s1 mst acc) as Hinv1.
    { apply kinv_compress; [done|by auto|]. intros y. by rewrite Hself2. }
    destruct (decide (r1 = r2)) as [<-|Hne].
    + destruct (IH s1 mst acc Hinv1 Hrest Hsorted) as
        (f3 & mst' & s' & acc' & Hl & ? & Hkeep & Hfrom & Hc).
      { intros a e Ha He. apply Hlight; [done|by right]. }
      exists (max (max f1 f2) f3), mst', s', acc'. split_and!; [|done|done| |].
      * intros fuel Hfuel. simpl. rewrite Hf1 by lia. simpl. rewrite Hf2 by lia.
        simpl. destruct (decide (r1 <> r1)); [done|]. apply Hl. lia.
      * intros a Ha. destruct (Hfrom a Ha); [by left|right; by right].
      * intros e [->|?]%elem_of_cons; [|by apply Hc]. simpl.
        apply (conn_pairs_mono acc).
        { intros a Ha. apply elem_of_upto. split; [|by apply Hkeep].
          apply (Hlight a (w, u, v)); [done|by left]. }
        apply (k_conn _ _ _ _ Hinv); [done..|]. by exists r1.
    + destruct (wf_rank _ _ Hwf r1 Hgr1) as [k1 Hk1].
      destruct (wf_rank _ _ Hwf r2 Hgr2) as [k2 Hk2].
      destruct (union_spec s1 u v r1 r2 k1 k2) as
        (f3 & s2 & a & b & Hun & Hab & Hroots3 & Hself3 & Hrank3); [by simpl; auto..|].
      assert (kinv g s2 (add_edge mst u v w) ((w, u, v) :: acc)) as Hinv2.
      { eapply (kinv_union g s1); try done; simpl; [by auto..|].
        intros x Hx. rewrite Hrank3. case_decide; [|done]. simpl.
        destruct (decide (r1 = x)) as [->|?].
        - rewrite lookup_insert_eq. by eexists.
        - by rewrite lookup_insert_ne. }
      destruct (IH s2 _ _ Hinv2 Hrest Hsorted) as
        (f4 & mst' & s' & acc' & Hl & ? & Hkeep & Hfrom & Hc).
      { intros a' e [->|Ha]%elem_of_cons He.
        - by apply (Hhead e).
        - apply Hlight; [done|by right]. }
      exists (max (max f1 f2) (max f3 f4)), mst', s', acc'. split_and!; [|done| | |].
      * intros fuel Hfuel. simpl. rewrite Hf1 by lia. simpl. rewrite Hf2 by lia.
        simpl. destruct (decide (r1 <> r2)); [|done].
        fold s1. rewrite Hun by lia. simpl. apply Hl. lia.
      * intros a' Ha. apply Hkeep. by right.
      * intros a' Ha. destruct (Hfrom a' Ha) as [[->|?]%elem_of_cons|?].
        -- right. by left.
        -- by left.
        -- right. by right.
      * intros e [->|?]%elem_of_cons; [|by apply Hc]. simpl.
        apply conn_edge, elem_of_pairs. exists w. apply elem_of_upto.
        split; [done|]. apply Hkeep. by left.
Qed.

(** *** Forests *)

Lemma acyclic_forest es : acyclic es -> forest es.
Proof.
  induction es as [|[u v] es IH]; intros Hac; constructor.
  - apply IH. intros l1 e l2 -> Hc.
    apply (Hac ((u, v) :: l1) e l2 eq_refl). simpl.
    revert Hc. apply conn_mono. intros e' ?. by right.
  - apply (Hac [] (u, v) es eq_refl).
Qed.

Lemma forest_upto t es : forest (pairs es) -> forest (pairs (upto t es)).
Proof.
  induction es as [|[[w u] v] es IH]; intros Hf; [constructor|].
  inversion Hf as [|u' v' es' Hf' Hn]; simplify_eq/=.
  unfold upto. rewrite filter_cons. simpl. case_decide.
  - simpl. constructor; [by apply IH|].
    intros Hc. apply Hn. revert Hc. apply conn_pairs_mono.
    by intros e [_ ?]%elem_of_upto.
  - by apply IH.
Qed.

(** A connection along edges whose ends are all joined in [es'] is a
    connection in [es']. *)
Lemma conn_sub es es' x y :
  (forall u v, (u, v) ∈ es -> conn es' u v) -> conn es x y -> conn es' x y.
Proof.
  intros Hsub. induction 1 as [x|x z y Hstep _ IH]; [done|].
  etrans; [|exact IH]. destruct Hstep as [?|?]; [|symmetry]; by apply Hsub.
Qed.

(** *** Weights *)

Definition zsum (l : list Z) : Z := foldr Z.add 0 l.

(** The sum of the weights of a list of edges. *)
Definition total_weight (es : list wedge) : Z :=
  zsum ((fun e : wedge => e.1.1) <$> es).

Definition capped (c : Z) (l : list Z) : Z := zsum (Z.min c <$> l).

Definition below (t : Z) (l : list Z) : nat :=
  length (filter (fun w => w <= t) l).

Lemma capped_step c l :
  capped (c + 1) l = capped c l + Z.of_nat (length l) - Z.of_nat (below c l).
Proof.
  unfold capped, below. induction l as [|w l IH]; [done|].
  rewrite filter_cons, !fmap_cons. cbn [zsum foldr]. fold (zsum (Z.min (c + 1) <$> l)).
  fold (zsum (Z.min c <$> l)). rewrite IH.
  generalize (zsum (Z.min c <$> l)). intros z.
  case_decide; cbn [length]; rewrite ?Nat2Z.inj_succ; lia.
Qed.

Lemma capped_low c l :
  (forall w, w ∈ l -> c <= w) -> capped c l = c * Z.of_nat (length l).
Proof.
  unfold capped. induction l as [|w l IH]; intros Hall; [simpl; lia|].
  rewrite fmap_cons. cbn [zsum foldr length]. fold (zsum (Z.min c <$> l)).
  rewrite IH by (intros ? ?; apply Hall; by right).
  pose proof (Hall w ltac:(by left)). rewrite Nat2Z.inj_succ. lia.
Qed.

Lemma capped_high c l : (forall w, w ∈ l -> w <= c) -> capped c l = zsum l.
Proof.
  unfold capped. induction l as [|w l IH]; intros Hall; [done|].
  rewrite fmap_cons. cbn [zsum foldr]. fold (zsum (Z.min c <$> l)). fold (zsum l).
  rewrite IH by (intros ? ?; apply Hall; by right).
  pose proof (Hall w ltac:(by left)). lia.
Qed.

Lemma bounds (l : list Z) : exists lo hi, lo <= hi /\ forall w, w ∈ l -> lo <= w <= hi.
Proof.
  induction l as [|x l (lo & hi & Hle & Hall)].
  - exists 0, 0. split; [lia|]. intros w Hw. by apply elem_of_nil in Hw.
  - exists (Z.min lo x), (Z.max hi x). split; [lia|].
    intros w [->|Hw%Hall]%elem_of_cons; lia.
Qed.

(** Of two lists of the same length, the one that has at least as many
    elements below every bound has the smaller sum. *)
Lemma zsum_le (T O : list Z) :
  length T = length O -> (forall t, (below t O <= below t T)%nat) ->
  zsum T <= zsum O.
Proof.
  intros Hlen Hbelow.
  destruct (bounds (T ++ O)) as (lo & hi & Hle & Hall).
  assert (forall k : nat, capped (lo + Z.of_nat k) T <= capped (lo + Z.of_nat k) O) as Hk.
  { induction k as [|k IH].
    - rewrite Z.add_0_r, !capped_low, Hlen; [lia|..];
        intros w Hw; apply Hall; apply elem_of_app; auto.
    - replace (lo + Z.of_nat (S k)) with (lo + Z.of_nat k + 1) by lia.
      rewrite !capped_step, Hlen. specialize (Hbelow (lo + Z.of_nat k)). lia. }
  specialize (Hk (Z.to_nat (hi - lo))).
  rewrite !capped_high in Hk; [done|..];
    intros w Hw; assert (w <= hi) by (apply Hall, elem_of_app; auto); lia.
Qed.

Lemma below_weights t es :
  below t ((fun e : wedge => e.1.1) <$> es) = length (upto t es).
Proof.
  unfold below, upto. induction es as [|e es IH]; [done|].
  rewrite fmap_cons, !filter_cons. case_decide; simpl; by rewrite IH.
Qed.

(** *** The minimum spanning tree *)

(** For a graph whose neighbours are all nodes of the graph, and the edge
    list made from it (in any order), [__kruskal] returns, given enough
    depth for [__find], the two directions of the edges of a list [tree]
    of edges of the graph that has no cycle, joins the two ends of every
    edge of the graph, and weighs no more than any list [other] of edges
    of the graph that also has no cycle and joins the two ends of every
    edge: the roads are a minimum spanning tree (a minimum spanning forest
    when the graph is not connected). *)
Theorem kruskal_minimum g el edges s :
  closed g -> create_edge_list g = Some el -> edges ≡ₚ el ->
  exists fuel0, forall fuel, (fuel0 <= fuel)%nat ->
  exists mst sorted s' tree,
    kruskal fuel g edges s = Some (mst, sorted, s') /\
    entries mst ≡ₚ sym tree /\
    (forall e, e ∈ tree -> e ∈ el) /\
    acyclic (pairs tree) /\
    (forall e : wedge, e ∈ el -> conn (pairs tree) e.1.2 e.2) /\
    forall other : list wedge,
      (forall e, e ∈ other -> e ∈ el) ->
      acyclic (pairs other) ->
      (forall e : wedge, e ∈ el -> conn (pairs other) e.1.2 e.2) ->
      total_weight tree <= total_weight other.
Proof.
  intros Hclosed Hel Hperm.
  destruct (create_edge_list_spec g el Hel) as [Hadj _].
  assert (merge_sort edge_le edges ≡ₚ el) as Hsorted.
  { by rewrite merge_sort_Permutation. }
  assert (forall e : wedge, e ∈ el -> is_Some (g !! e.1.2) /\ is_Some (g !! e.2)) as Hends.
  { intros e He. by apply (closed_adj g), Hadj. }
  destruct (kruskal_loop_greedy g (merge_sort edge_le edges) (make_sets g s) [] [])
    as (fuel0 & mst & s' & tree & Hloop & Hinv & _ & Hfrom & Hjoin).
  { apply kinv_init. }
  { intros e He. rewrite Hsorted in He. by apply Hends. }
  { apply sorted_weights. }
  { intros a e Ha. by apply elem_of_nil in Ha. }
  assert (forall e, e ∈ tree -> e ∈ el) as Htree.
  { intros e He. destruct (Hfrom e He) as [Hnil|Hin]; [by apply elem_of_nil in Hnil|].
    by rewrite <- Hsorted. }
  assert (forall (e : wedge) t, e ∈ el -> e.1.1 <= t ->
            conn (pairs (upto t tree)) e.1.2 e.2) as Hlayer.
  { intros e t He Ht. rewrite <- Hsorted in He.
    apply (conn_pairs_mono (upto e.1.1 tree)); [|by apply Hjoin].
    intros a [? ?]%elem_of_upto. apply elem_of_upto. split; [lia|done]. }
  assert (forall e : wedge, e ∈ el -> conn (pairs tree) e.1.2 e.2) as Hspan.
  { intros e He. apply (conn_pairs_mono (upto e.1.1 tree)).
    - by intros a [_ ?]%elem_of_upto.
    - by apply Hlayer. }
  exists fuel0. intros fuel Hfuel.
  exists mst, (merge_sort edge_le edges), s', tree. split_and!.
  - unfold kruskal. by rewrite Hloop.
  - apply Hinv.
  - done.
  - apply forest_acyclic, Hinv.
  - done.
  - intros other Hsub Hacyclic Hother.
    pose proof (acyclic_forest _ Hacyclic) as Hfo.
    pose proof (k_forest _ _ _ _ Hinv) as Hft.
    assert (forall (es : list wedge) t, (forall e, e ∈ es -> e ∈ el) ->
              forall e, e ∈ pairs (upto t es) -> e.1 ∈ nodes g /\ e.2 ∈ nodes g) as Hin.
    { intros es t Hes [u v] [w [_ He]%elem_of_upto]%elem_of_pairs.
      rewrite !nodes_spec. by apply (Hends (w, u, v)), Hes. }
    assert (forall (es : list wedge), (forall e, e ∈ es -> e ∈ el) ->
              forall e, e ∈ pairs es -> e.1 ∈ nodes g /\ e.2 ∈ nodes g) as Hin'.
    { intros es Hes [u v] [w He]%elem_of_pairs.
      rewrite !nodes_spec. by apply (Hends (w, u, v)), Hes. }
    assert (length tree = length other) as Hlen.
    { apply Nat.le_antisymm.
      - rewrite <- (length_fmap (fun e : wedge => (e.1.2, e.2)) tree).
        rewrite <- (length_fmap (fun e : wedge => (e.1.2, e.2)) other).
        apply (forest_rank (nodes g) (NoDup_nodes g)); [done|done|by apply Hin'..|].
        intros x y _ _. apply conn_sub. intros u v [w He]%elem_of_pairs.
        by apply (Hother (w, u, v)), Htree.
      - rewrite <- (length_fmap (fun e : wedge => (e.1.2, e.2)) tree).
        rewrite <- (length_fmap (fun e : wedge => (e.1.2, e.2)) other).
        apply (forest_rank (nodes g) (NoDup_nodes g)); [done|done|by apply Hin'..|].
        intros x y _ _. apply conn_sub. intros u v [w He]%elem_of_pairs.
        by apply (Hspan (w, u, v)), Hsub. }
    apply zsum_le; [by rewrite !length_fmap|].
    intros t. rewrite !below_weights.
    rewrite <- (length_fmap (fun e : wedge => (e.1.2, e.2)) (upto t tree)).
    rewrite <- (length_fmap (fun e : wedge => (e.1.2, e.2)) (upto t other)).
    apply (forest_rank (nodes g) (NoDup_nodes g));
      [by apply forest_upto|by apply forest_upto|by apply Hin|by apply Hin|].
    intros x y _ _. apply conn_sub.
    intros u v [w [Hw He]%elem_of_upto]%elem_of_pairs.
    by apply (Hlayer (w, u, v)); [apply Hsub|].
Qed.

Lemma kruskal_minimum_witness :
  exists fuel0, forall fuel, (fuel0 <= fuel)%nat ->
  exists mst sorted s' tree,
    kruskal fuel square square_edges (Dsu ∅ ∅) = Some (mst, sorted, s') /\
    entries mst ≡ₚ sym tree /\
    (forall e, e ∈ tree -> e ∈ square_edges) /\
    acyclic (pairs tree) /\
    (forall e : wedge, e ∈ square_edges -> conn (pairs tree) e.1.2 e.2) /\
    forall other : list wedge,
      (forall e, e ∈ other -> e ∈ square_edges) ->
      acyclic (pairs other) ->
      (forall e : wedge, e ∈ square_edges -> conn (pairs other) e.1.2 e.2) ->
      total_weight tree <= total_weight other.
Proof.
  apply (kruskal_minimum square square_edges square_edges (Dsu ∅ ∅)).
  - apply (bool_decide_unpack _). vm_compute. exact I.
  - vm_compute. reflexivity.
  - reflexivity.
Defined.

End KruskalFacts.

(** ** The roads of a map *)

Module RoadsFacts.
Import ListFacts OrderedDict OrderedDictFacts MST MSTFacts.
Import CreateGraph CreateGraphFacts Roads WeightFacts KruskalFacts.
Import AdditionalConnectionsFacts.

(** A building, by the coordinates the roads use: [(x, y)] is the tile
    of row [y] and column [x]. *)
Definition site (m : map_array) (p : node) : Prop :=
  exists i j, p = (Z.of_nat j, Z.of_nat i) /\ building m (i, j).

(** A road from [a] to [b] in the adjacency lists. *)
Definition road (rds : roads) (a b : node) : Prop :=
  exists w, (a, (b, w)) ∈ entries rds.

(** The weight of a road between two buildings: the distance, rounded
    down. *)
Definition distance (a b : node) : Z :=
  Z.sqrt ((a.1 - b.1) * (a.1 - b.1) + (a.2 - b.2) * (a.2 - b.2)).

#[global] Instance swap_node_inj : Inj (=) (=) swap_node.
Proof. intros [a b] [c d] H. unfold swap_node in H. by simplify_eq/=. Qed.

Lemma swap_node_swap p : swap_node (swap_node p) = p.
Proof. by destruct p. Qed.

Lemma swap_coordinates_lookup graph k nbrs :
  NoDup graph.*1 ->
  swap_coordinates graph !! k = Some nbrs <->
  exists p ns, (p, ns) ∈ graph /\ k = swap_node p /\ nbrs = swap_node <$> ns.
Proof.
  unfold swap_coordinates. induction graph as [|x graph IH] using rev_ind.
  - intros _. simpl. rewrite lookup_empty. split; [done|].
    intros (p & ns & H & _). by apply elem_of_nil in H.
  - rewrite fmap_app, foldl_snoc. intros (Hnd & Hdisj & _)%NoDup_app.
    destruct (decide (k = swap_node x.1)) as [->|Hne].
    + rewrite lookup_insert_eq. split.
      * intros [= <-]. exists x.1, x.2. split; [|done].
        apply elem_of_app. right. destruct x. by apply list_elem_of_singleton.
      * intros (p & ns & Hin & Hk & ->). apply (inj swap_node) in Hk.
        apply elem_of_app in Hin as [Hin|Hin%list_elem_of_singleton].
        -- exfalso. apply (Hdisj p).
           ++ apply list_elem_of_fmap. by exists (p, ns).
           ++ rewrite <- Hk. simpl. by apply list_elem_of_singleton.
        -- by subst.
    + rewrite lookup_insert_ne by done. rewrite (IH Hnd).
      split; intros (p & ns & Hin & ? & ?); exists p, ns; split_and!; try done.
      * apply elem_of_app. by left.
      * apply elem_of_app in Hin as [?|Hin%list_elem_of_singleton]; [done|].
        subst. done.
Qed.

Lemma building_bounds m i j :
  building m (i, j) ->
  (i < length m)%nat /\ exists row, row ∈ m /\ (j < length row)%nat.
Proof.
  intros (v & Hv & _). unfold tile in Hv. simpl in Hv.
  destruct (m !! i) as [row|] eqn:Hrow; simplify_eq/=.
  split; [by eapply lookup_lt_Some|]. exists row.
  split; [by eapply list_elem_of_lookup_2|by eapply lookup_lt_Some].
Qed.

Lemma points_site m row0 p :
  m !! 0%nat = Some row0 -> rectangular m ->
  p ∈ to_node <$> filter (building m) (indices (length m) (length row0))
  <-> site m (swap_node p).
Proof.
  intros H0 Hrect. rewrite list_elem_of_fmap. split.
  - intros ([i j] & -> & [Hb _]%list_elem_of_filter). by exists i, j.
  - intros (i & j & Hp & Hb). exists (i, j).
    split; [destruct p; unfold swap_node, to_node in *; by simplify_eq/=|].
    apply list_elem_of_filter. split; [done|]. apply elem_of_indices. simpl.
    destruct (building_bounds m i j Hb) as (Hi & row & Hrow & Hj).
    rewrite (Hrect row0 row H0 Hrow) in Hj. done.
Qed.

(** The graph of [MST.__init__]: the complete graph of the buildings. *)
Lemma graph_spec m :
  m <> [] -> rectangular m ->
  exists graph, make_graph m = Some graph /\
    (forall k nbrs, swap_coordinates graph !! k = Some nbrs ->
       site m k /\ forall v, v ∈ nbrs <-> site m v /\ v <> k) /\
    (forall k, site m k -> is_Some (swap_coordinates graph !! k)).
Proof.
  intros Hne Hrect. destruct m as [|row0 m']; [done|]. clear Hne.
  set (m := row0 :: m') in *.
  destruct (points_total m row0 eq_refl Hrect) as [pts Hpts].
  destruct (points_spec m pts Hpts) as (row0' & H0 & Heq).
  assert (row0' = row0) as -> by (unfold m in H0; simpl in H0; congruence).
  pose proof (points_site m row0) as Hsite.
  rewrite <- Heq in Hsite.
  set (graph := (fun point : node =>
                   (point, filter (fun other_point : node => point <> other_point) pts))
                  <$> pts).
  assert (graph.*1 = pts) as Hkeys.
  { unfold graph. rewrite <- list_fmap_compose. apply list_fmap_id. }
  assert (NoDup graph.*1) as Hnd.
  { rewrite Hkeys, Heq. apply NoDup_fmap; [apply _|].
    apply NoDup_filter, NoDup_indices. }
  exists graph. split_and!.
  - unfold make_graph. by rewrite Hpts.
  - intros k nbrs (p & ns & Hin & -> & ->)%swap_coordinates_lookup; [|done].
    apply list_elem_of_fmap in Hin as (p' & Hp' & Hin). simplify_eq.
    split; [by apply Hsite|]. intros v. rewrite list_elem_of_fmap. split.
    + intros (q & -> & [Hpq Hq]%list_elem_of_filter).
      split; [by apply Hsite|]. intros Heq'. by apply (inj swap_node) in Heq'.
    + intros [Hv Hvk]. exists (swap_node v). rewrite swap_node_swap.
      split; [done|]. apply list_elem_of_filter. split.
      * intros ->. by rewrite swap_node_swap in Hvk.
      * apply Hsite; [done..|]. by rewrite swap_node_swap.
  - intros k Hk. rewrite <- (swap_node_swap k) in Hk. apply Hsite in Hk; [|done..].
    exists (swap_node <$> filter (fun other_point : node => swap_node k <> other_point) pts).
    apply swap_coordinates_lookup; [done|].
    exists (swap_node k), (filter (fun other_point : node => swap_node k <> other_point) pts).
    split_and!; [|by rewrite swap_node_swap|done].
    apply list_elem_of_fmap. by exists (swap_node k).
Qed.

(** A map of at most 217 by 217 tiles: the maps whose squared distances
    are all in the table of [WeightFacts]. *)
Definition fits (m : map_array) : Prop :=
  (length m <= 217)%nat /\ forall row, row ∈ m -> (length row <= 217)%nat.

Lemma site_bounds m p : fits m -> site m p -> 0 <= p.1 <= 216 /\ 0 <= p.2 <= 216.
Proof.
  intros [Hrows Hcols] (i & j & -> & Hb).
  destruct (building_bounds m i j Hb) as (Hi & row & Hrow & Hj).
  specialize (Hcols row Hrow). simpl. lia.
Qed.

Lemma weight_total a b :
  0 <= a.1 <= 216 /\ 0 <= a.2 <= 216 -> 0 <= b.1 <= 216 /\ 0 <= b.2 <= 216 ->
  MST.calculate_weight a b = Some (distance a b) /\
  AdditionalConnections.calculate_weight a b = Some (distance a b).
Proof.
  intros Ha Hb.
  unfold MST.calculate_weight, AdditionalConnections.calculate_weight, distance.
  assert (-216 <= a.1 - b.1 <= 216) as Hx by lia.
  assert (-216 <= a.2 - b.2 <= 216) as Hy by lia.
  revert Hx Hy. generalize (a.1 - b.1) (a.2 - b.2). intros x y Hx Hy.
  assert (0 <= x * x <= 216 * 216) by nia.
  assert (0 <= y * y <= 216 * 216) by nia.
  rewrite !Z.pow_2_r. by rewrite floor_sqrt by lia.
Qed.

Lemma create_edge_list_total g :
  (forall u v, adj g u v -> is_Some (MST.calculate_weight u v)) ->
  is_Some (create_edge_list g).
Proof.
  intros Htotal. unfold create_edge_list.
  assert (is_Some (mapM (fun item : node * list node =>
            mapM (fun neighbour =>
                    weight ← MST.calculate_weight item.1 neighbour;
                    Some (weight, item.1, neighbour)) item.2)
            (map_to_list g))) as [per_node ->]; [|by eexists].
  apply mapM_is_Some_2, Forall_forall. intros [u nbrs] Hitem%elem_of_map_to_list.
  unfold compose. simpl. apply mapM_is_Some_2, Forall_forall. intros v Hv.
  unfold compose. destruct (Htotal u v) as [w ->]; [by exists nbrs|]. by eexists.
Qed.

Lemma create_edge_list_weight g el :
  create_edge_list g = Some el ->
  forall e : wedge, e ∈ el -> MST.calculate_weight e.1.2 e.2 = Some e.1.1.
Proof.
  unfold create_edge_list. intros Hel.
  destruct (mapM _ (map_to_list g)) as [per_node|] eqn:Hm; simplify_eq/=.
  apply mapM_Some_1 in Hm.
  intros e (ys & He & Hys)%list_elem_of_join.
  apply list_elem_of_lookup in Hys as [i Hi].
  destruct (Forall2_lookup_r _ _ _ _ _ Hm Hi) as ([u nbrs] & Hitem & Hmap).
  simpl in Hmap. apply mapM_Some_1 in Hmap.
  apply list_elem_of_lookup in He as [j Hj].
  destruct (Forall2_lookup_r _ _ _ _ _ Hmap Hj) as (v & Hv & Hw).
  destruct (MST.calculate_weight u v) as [w|] eqn:Hc; by simplify_eq/=.
Qed.

Lemma add_edge_keys mst u v w k :
  k ∈ keys (add_edge mst u v w) -> k ∈ keys mst \/ k = u \/ k = v.
Proof.
  unfold add_edge. rewrite !keys_update.
  destruct (contains mst u); destruct (contains _ v);
    rewrite ?keys_add, ?elem_of_app, ?list_elem_of_singleton; tauto.
Qed.

(** The keys of the road dictionary are ends of edges. *)
Lemma kruskal_loop_keys fuel edges : forall s mst mst' s',
  kruskal_loop fuel edges s mst = Some (mst', s') ->
  forall k, k ∈ keys mst' ->
    k ∈ keys mst \/ exists e : wedge, e ∈ edges /\ (k = e.1.2 \/ k = e.2).
Proof.
  induction edges as [|[[w u] v] edges IH]; intros s mst mst' s' Hrun k Hk.
  - simpl in Hrun. simplify_eq. by left.
  - simpl in Hrun.
    destruct (find fuel (parent s) u) as [[root1 p1]|]; simplify_eq/=.
    destruct (find fuel p1 v) as [[root2 p2]|]; simplify_eq/=.
    destruct (decide (root1 <> root2)).
    + destruct (union fuel (Dsu p2 (rank s)) u v) as [s2|]; simplify_eq/=.
      destruct (IH _ _ _ _ Hrun k Hk) as [Hin|(e & He & Hends)].
      * apply add_edge_keys in Hin as [?|[->| ->]]; [by left|right..];
          exists (w, u, v); (split; [by left|simpl; auto]).
      * right. exists e. split; [by right|done].
    + destruct (IH _ _ _ _ Hrun k Hk) as [Hin|(e & He & Hends)]; [by left|].
      right. exists e. split; [by right|done].
Qed.

Lemma elem_of_sym tree a b w :
  (a, (b, w)) ∈ sym tree <-> (w, a, b) ∈ tree \/ (w, b, a) ∈ tree.
Proof.
  unfold sym. rewrite list_elem_of_bind. split.
  - intros ([[w' u] v] & Hin & He). simpl in Hin.
    apply elem_of_cons in Hin as [?|Hin]; [simplify_eq; by left|].
    apply list_elem_of_singleton in Hin. simplify_eq. by right.
  - intros [H|H]; eexists; (split; [|exact H]); simpl.
    + by left.
    + right. by left.
Qed.

(** What [MST(map).get_mst(False)] returns. *)
Lemma get_mst_tree m :
  m <> [] -> rectangular m -> fits m ->
  exists fuel0 rds tree,
    (forall fuel, (fuel0 <= fuel)%nat -> get_mst fuel m false = Some rds) /\
    NoDup (keys rds) /\
    entries rds ≡ₚ sym tree /\
    (forall e : wedge, e ∈ tree ->
       site m e.1.2 /\ site m e.2 /\ e.1.2 <> e.2 /\ e.1.1 = distance e.1.2 e.2) /\
    acyclic (pairs tree) /\
    (forall a b, site m a -> site m b -> conn (pairs tree) a b) /\
    (forall k, k ∈ keys rds -> site m k).
Proof.
  intros Hne Hrect Hfits.
  destruct (graph_spec m Hne Hrect) as (graph & Hmk & Hlook & Hsome).
  set (g := swap_coordinates graph) in *.
  assert (forall u v, adj g u v -> site m u /\ site m v /\ u <> v) as Hadj.
  { intros u v (nbrs & Hu & Hv). destruct (Hlook u nbrs Hu) as [Hsu Hn].
    apply Hn in Hv as [? ?]. split_and!; [done..|]. by apply not_eq_sym. }
  assert (closed g) as Hclosed.
  { intros k nbrs Hk. apply Forall_forall. intros v Hv.
    apply Hsome. by apply (Hlook k nbrs Hk). }
  destruct (create_edge_list_total g) as [el Hel].
  { intros u v (Hu & Hv & _)%Hadj.
    destruct (weight_total u v) as [-> _]; [by eapply site_bounds..|]. by eexists. }
  destruct (create_edge_list_spec g el Hel) as [Hfrom Hall].
  pose proof (create_edge_list_weight g el Hel) as Hweight.
  assert (merge_sort edge_le el ≡ₚ el) as Hsorted by apply merge_sort_Permutation.
  destruct (kruskal_loop_greedy g (merge_sort edge_le el) (make_sets g (Dsu ∅ ∅)) [] [])
    as (fuel0 & mst & s' & tree & Hloop & Hinv & _ & Hsub & Hjoin).
  { apply kinv_init. }
  { intros e He. rewrite Hsorted in He. by apply (closed_adj g), Hfrom. }
  { apply sorted_weights. }
  { intros a e Ha. by apply elem_of_nil in Ha. }
  assert (forall e, e ∈ tree -> e ∈ el) as Htree.
  { intros e He. destruct (Hsub e He) as [Hnil|Hin]; [by apply elem_of_nil in Hnil|].
    by rewrite <- Hsorted. }
  exists fuel0, mst, tree. split_and!.
  - intros fuel Hfuel.
    unfold get_mst, mst_init. rewrite Hmk. simpl. fold g. rewrite Hel. simpl.
    unfold kruskal. by rewrite Hloop.
  - apply Hinv.
  - apply Hinv.
  - intros e He%Htree. destruct (Hadj _ _ (Hfrom e He)) as (Hu & Hv & Huv).
    split_and!; [done..|].
    pose proof (Hweight e He) as Hw.
    destruct (weight_total e.1.2 e.2) as [Hd _]; [by eapply site_bounds..|]. congruence.
  - apply forest_acyclic, Hinv.
  - intros a b Ha Hb. destruct (decide (a = b)) as [->|Hab]; [done|].
    destruct (Hsome a Ha) as [nbrs Hnbrs].
    destruct (Hall a b) as [w Hw].
    { exists nbrs. split; [done|]. apply (Hlook a nbrs Hnbrs). split; [done|].
      by apply not_eq_sym. }
    rewrite <- Hsorted in Hw. apply Hjoin in Hw. simpl in Hw.
    revert Hw. apply conn_pairs_mono. by intros e [_ ?]%elem_of_upto.
  - intros k Hk.
    destruct (kruskal_loop_keys _ _ _ _ _ _ (Hloop fuel0 (Nat.le_refl _)) k Hk)
      as [Hnil|(e & He & Hends)]; [by apply elem_of_nil in Hnil|].
    rewrite Hsorted in He. destruct (Hadj _ _ (Hfrom e He)) as (Hu & Hv & _).
    by destruct Hends as [-> | ->].
Qed.

(** On a map of at least one row and at most 217 by 217 tiles,
    [MST(map).get_mst(False)], which gives [Roads] its roads, raises no
    error, given enough depth for [__find], and returns a spanning tree of
    the buildings: the adjacency entries are the two directions of a list
    of edges without a cycle, each between two different buildings and
    weighing their distance rounded down, that joins every two
    buildings. *)
Theorem get_mst_spanning_tree m :
  m <> [] -> rectangular m -> fits m ->
  exists fuel0, forall fuel, (fuel0 <= fuel)%nat ->
  exists rds tree,
    get_mst fuel m false = Some rds /\
    NoDup (keys rds) /\
    entries rds ≡ₚ sym tree /\
    (forall e : wedge, e ∈ tree ->
       site m e.1.2 /\ site m e.2 /\ e.1.2 <> e.2 /\ e.1.1 = distance e.1.2 e.2) /\
    acyclic (pairs tree) /\
    (forall a b, site m a -> site m b -> conn (pairs tree) a b).
Proof.
  intros Hne Hrect Hfits.
  destruct (get_mst_tree m Hne Hrect Hfits)
    as (fuel0 & rds & tree & Hrun & ? & ? & ? & ? & ? & _).
  exists fuel0. intros fuel Hfuel. exists rds, tree. split_and!; auto.
Qed.

Lemma terrace_rectangular : rectangular terrace.
Proof.
  intros row0 row H0 Hrow. vm_compute in H0. simplify_eq.
  by apply list_elem_of_singleton in Hrow as ->.
Qed.

Lemma terrace_fits : fits terrace.
Proof.
  split; [simpl; lia|]. intros row ->%list_elem_of_singleton. simpl. lia.
Qed.

Lemma get_mst_spanning_tree_witness :
  exists fuel0, forall fuel, (fuel0 <= fuel)%nat ->
  exists rds tree,
    get_mst fuel terrace false = Some rds /\
    NoDup (keys rds) /\
    entries rds ≡ₚ sym tree /\
    (forall e : wedge, e ∈ tree ->
       site terrace e.1.2 /\ site terrace e.2 /\ e.1.2 <> e.2 /\
       e.1.1 = distance e.1.2 e.2) /\
    acyclic (pairs tree) /\
    (forall a b, site terrace a -> site terrace b -> conn (pairs tree) a b).
Proof.
  apply (get_mst_spanning_tree terrace);
    [done|exact terrace_rectangular|exact terrace_fits].
Defined.

(** What [MST(map).get_mst(additional_roads)] returns, with or without
    the additional roads. *)
Lemma get_mst_roads m additional_roads :
  m <> [] -> rectangular m -> fits m ->
  exists fuel0 rds,
    (forall fuel, (fuel0 <= fuel)%nat ->
       get_mst fuel m additional_roads = Some rds) /\
    NoDup (keys rds) /\
    (forall a b w, (a, (b, w)) ∈ entries rds ->
       site m a /\ site m b /\ a <> b /\ 0 <= w /\ (b, (a, w)) ∈ entries rds) /\
    (forall a b, site m a -> site m b -> rtc (road rds) a b).
Proof.
  intros Hne Hrect Hfits.
  destruct (get_mst_tree m Hne Hrect Hfits)
    as (fuel0 & mst & tree & Hrun & Hnd & Hent & Htree & _ & Hspan & Hkeys).
  assert (forall a b w, (a, (b, w)) ∈ entries mst ->
            site m a /\ site m b /\ a <> b /\ 0 <= w /\ (b, (a, w)) ∈ entries mst)
    as Hroads.
  { intros a b w. rewrite !Hent, !elem_of_sym.
    intros [He|He]; destruct (Htree _ He) as (? & ? & ? & Hw); simpl in *;
      split_and!; auto; rewrite Hw; apply Z.sqrt_nonneg. }
  assert (forall a b, site m a -> site m b -> rtc (road mst) a b) as Hjoin.
  { intros a b Ha Hb. specialize (Hspan a b Ha Hb).
    clear Ha Hb. induction Hspan as [x|x z y Hstep _ IH]; [done|].
    apply rtc_l with z; [|done].
    destruct Hstep as [[w Hw]%elem_of_pairs|[w Hw]%elem_of_pairs];
      exists w; rewrite Hent, elem_of_sym; auto. }
  destruct additional_roads; [|by exists fuel0, mst].
  assert (forall x, x ∈ AdditionalConnections.single_connection_nodes mst -> x ∈ keys mst)
    as Hleaves.
  { intros x Hx. eapply elem_of_sublist; [exact Hx|].
    unfold AdditionalConnections.single_connection_nodes, keys.
    apply fmap_sublist, sublist_filter. }
  destruct (connect_all_spec 3 (AdditionalConnections.single_connection_nodes mst)
              (AdditionalConnections.single_connection_nodes mst) mst None)
    as (mst' & added & Hadd & Hk & He & _ & Hadded); [done|done| |].
  { intros u v Hu%Hleaves%Hkeys Hv%Hleaves%Hkeys.
    destruct (weight_total u v) as [_ ->]; [by eapply site_bounds..|]. by eexists. }
  exists fuel0, mst'. split_and!; [|by rewrite Hk| |].
  { intros fuel Hfuel. specialize (Hrun fuel Hfuel). unfold get_mst in *.
    destruct (mst_init m) as [[g edges]|]; [|done]. simpl in *.
    destruct (kruskal fuel g edges (Dsu ∅ ∅)) as [[[mst0 sorted] s']|]; [|done].
    simpl in *. by simplify_eq. }
  - intros a b w. rewrite !He, !elem_of_app.
    intros [Hin|Hin].
    + destruct (Hroads a b w Hin) as (? & ? & ? & ? & ?). auto 6.
    + unfold sym2 in *. apply list_elem_of_bind in Hin as ([[u v] d] & Hin & Hadd').
      rewrite Forall_forall in Hadded.
      destruct (Hadded _ Hadd') as
        (Hu%Hleaves%Hkeys & Hv%Hleaves%Hkeys & Huv & x & Hx%Hleaves%Hkeys & _ & Hd).
      simpl in *.
      assert (0 <= d) as Hpos.
      { destruct (weight_total u x) as [_ Hux]; [by eapply site_bounds..|].
        rewrite Hux in Hd. simplify_eq. apply Z.sqrt_nonneg. }
      assert ((b, (a, w)) ∈ [(u, (v, d)); (v, (u, d))]) as Hback.
      { apply elem_of_cons in Hin as [?|Hin]; [simplify_eq; right; by left|].
        apply list_elem_of_singleton in Hin. simplify_eq. by left. }
      assert (site m a /\ site m b /\ a <> b /\ w = d) as (? & ? & ? & ->).
      { apply elem_of_cons in Hin as [?|Hin]; [by simplify_eq|].
        apply list_elem_of_singleton in Hin. simplify_eq. auto. }
      split_and!; [done..|]. right.
      apply list_elem_of_bind. by exists (u, v, d).
  - intros a b Ha Hb. eapply rtc_subrel; [|by apply Hjoin].
    intros x y [w Hw]. exists w. rewrite He, elem_of_app. by left.
Qed.

(** With or without the additional roads, the roads that [Roads] gets
    from [MST(map).get_mst(additional_roads)] run between two different
    buildings, are listed in both directions with one weight, and join
    every two buildings of the map. *)
Theorem get_mst_connected m additional_roads :
  m <> [] -> rectangular m -> fits m ->
  exists fuel0, forall fuel, (fuel0 <= fuel)%nat ->
  exists rds,
    get_mst fuel m additional_roads = Some rds /\
    (forall a b w, (a, (b, w)) ∈ entries rds ->
       site m a /\ site m b /\ a <> b /\ (b, (a, w)) ∈ entries rds) /\
    (forall a b, site m a -> site m b -> rtc (road rds) a b).
Proof.
  intros Hne Hrect Hfits.
  destruct (get_mst_roads m additional_roads Hne Hrect Hfits)
    as (fuel0 & rds & Hrun & _ & Hroads & Hjoin).
  exists fuel0. intros fuel Hfuel.
  exists rds. split_and!; [by apply Hrun| |done].
  intros a b w Hin. destruct (Hroads a b w Hin) as (? & ? & ? & _ & ?). done.
Qed.

Lemma get_mst_connected_witness :
  exists fuel0, forall fuel, (fuel0 <= fuel)%nat ->
  exists rds,
    get_mst fuel terrace true = Some rds /\
    (forall a b w, (a, (b, w)) ∈ entries rds ->
       site terrace a /\ site terrace b /\ a <> b /\ (b, (a, w)) ∈ entries rds) /\
    (forall a b, site terrace a -> site terrace b -> rtc (road rds) a b).
Proof.
  apply (get_mst_connected terrace true);
    [done|exact terrace_rectangular|exact terrace_fits].
Defined.

End RoadsFacts.

(** ** Routes between the buildings *)

Module RouteFacts.
Import PriorityQueue Dijkstra DijkstraFacts.
Import CreateGraph CreateGraphFacts Roads RoadsFacts OrderedDictFacts.

(** [Dijkstra(roads)]: the road dictionary as the attribute [__graph]. *)
Definition road_graph (rds : MST.roads) : graph := list_to_map rds.

Lemma road_graph_edge rds u v w :
  NoDup (OrderedDict.keys rds) ->
  edge (road_graph rds) u v w <-> (u, (v, w)) ∈ entries rds.
Proof.
  intros Hnd. unfold edge, road_graph, entries. rewrite list_elem_of_bind. split.
  - intros (nbrs & Hu & Hin). apply elem_of_list_to_map in Hu; [|done].
    exists (u, nbrs). split; [|done]. simpl. apply list_elem_of_fmap. by exists (v, w).
  - intros ([u' nbrs] & Hin & Hitem). simpl in Hin.
    apply list_elem_of_fmap in Hin as (x & ? & Hx). simplify_eq.
    exists nbrs. split; [|done]. by apply elem_of_list_to_map.
Qed.

Lemma road_reachable rds a b :
  NoDup (OrderedDict.keys rds) ->
  rtc (road rds) a b -> reachable (road_graph rds) a b.
Proof.
  intros Hnd. induction 1 as [x|x z y [w Hw] _ (l & c & Hh & Hl & Hp)].
  - exists [x], 0. split_and!; [done..|constructor].
  - apply road_graph_edge in Hw; [|done].
    destruct l as [|z' l]; [done|]. simpl in Hh. simplify_eq.
    exists (x :: z :: l), (w + c). split_and!; [done|done|by constructor].
Qed.

(** On a road network, [compute] finds a shortest path to every end that
    can be reached and has roads of its own, or is the start. *)
Lemma compute_route g st start end_ :
  road_network g -> queue st = [] ->
  reachable g start end_ -> start = end_ \/ is_Some (g !! end_) ->
  exists fuel0, forall fuel, (fuel0 <= fuel)%nat ->
  exists path d st',
    compute fuel g st start end_ = Some (path, Fin d, st') /\
    queue st' = [] /\
    path_from_to g start end_ path d /\
    (forall l c, path_from_to g start end_ l c -> d <= c).
Proof.
  intros Hg Hq (l0 & c0 & Hreach) Hend.
  destruct (compute_loop g st start Hg Hq) as (fuel1 & st' & Hinv & Hs & Hq' & Hloop).
  assert (forall l c, path_from_to g start end_ l c ->
            exists dt, distances st' !! end_ = Some (Fin dt) /\ dt <= c) as Hlow.
  { intros l c (Hh & Hl & Hp).
    destruct (final_lower g st' Hs Hq' l c Hp start end_ 0 Hh Hl) as (dt & ? & ?).
    - apply Hinv.
    - exists dt. split; [done|lia]. }
  destruct (Hlow l0 c0 Hreach) as (d & Hd & _).
  assert (is_Some (previous st' !! end_)) as Hsome.
  { destruct Hend as [<-|Hend]; [rewrite (inv_start_p _ _ _ Hinv); by eexists|].
    destruct (previous st' !! end_) eqn:Hp; [done|].
    by rewrite (inv_inf _ _ _ Hinv end_ Hend Hp) in Hd. }
  destruct (inv_chain _ _ _ Hinv _ Hsome) as [l Hl].
  pose proof (final_chain g start Hg st' Hinv Hs Hq' _ _ Hl d Hd) as Hpath.
  exists (max fuel1 (length l)). intros fuel Hfuel.
  exists l, d, st'. split_and!; [|done|done|].
  - unfold compute. fold (start_state g st start).
    rewrite Hloop by lia. simpl. rewrite Hd.
    rewrite (trace_mono _ _ fuel _ _ _ (trace_chain _ _ _ Hl [])) by lia.
    simpl. by rewrite app_nil_r.
  - intros l' c Hp'. destruct (Hlow l' c Hp') as (dt & ? & ?). simplify_eq. lia.
Qed.

(** On roads that are listed in both directions, with weights that are
    not negative, [compute] finds a shortest route between any two nodes
    that the roads join. *)
Lemma roads_route rds st a b :
  NoDup (OrderedDict.keys rds) ->
  (forall u v w, (u, (v, w)) ∈ entries rds -> 0 <= w /\ (v, (u, w)) ∈ entries rds) ->
  queue st = [] -> rtc (road rds) a b ->
  exists rounds, forall fuel, (rounds <= fuel)%nat ->
  exists path d st',
    compute fuel (road_graph rds) st a b = Some (path, Fin d, st') /\
    queue st' = [] /\
    path_from_to (road_graph rds) a b path d /\
    (forall l c, path_from_to (road_graph rds) a b l c -> d <= c).
Proof.
  intros Hnd Hroads Hq Hjoin.
  assert (forall u v w, edge (road_graph rds) u v w ->
            is_Some (road_graph rds !! v) /\ 0 <= w) as Hedge.
  { intros u v w Hin%road_graph_edge; [|done].
    destruct (Hroads u v w Hin) as [Hw Hback].
    split; [|done]. apply road_graph_edge in Hback as (nbrs & ? & _); [|done].
    by eexists. }
  apply compute_route; [|done| |].
  - intros k nbrs Hk. apply Forall_forall. intros [v w] Hin.
    apply (Hedge k v w). by exists nbrs.
  - by apply road_reachable.
  - destruct (decide (a = b)) as [|Hab]; [by left|right].
    destruct (rtc_inv_r _ _ Hjoin) as [?|(z & _ & [w Hw])]; [done|].
    destruct (Hroads z b w Hw) as [_ Hback].
    apply road_graph_edge in Hback as (nbrs & ? & _); [|done]. by eexists.
Qed.

(** On a map of at least one row and at most 217 by 217 tiles, with or
    without the additional roads, a [Dijkstra] object made for the roads
    of the map finds a route between any two buildings: [compute], on a
    fresh or re-used object, returns a path from the one to the other
    along roads, of a finite weight that is the sum of the weights of its
    roads and the least of all such paths, and leaves the queue empty for
    the next call. *)
Theorem route_between_buildings m additional_roads :
  m <> [] -> rectangular m -> fits m ->
  exists depth rds,
    (forall fuel, (depth <= fuel)%nat ->
       get_mst fuel m additional_roads = Some rds) /\
    forall st a b, queue st = [] -> site m a -> site m b ->
    exists rounds, forall fuel, (rounds <= fuel)%nat ->
    exists path d st',
      compute fuel (road_graph rds) st a b = Some (path, Fin d, st') /\
      queue st' = [] /\
      path_from_to (road_graph rds) a b path d /\
      (forall l c, path_from_to (road_graph rds) a b l c -> d <= c).
Proof.
  intros Hne Hrect Hfits.
  destruct (get_mst_roads m additional_roads Hne Hrect Hfits)
    as (depth & rds & Hrun & Hnd & Hroads & Hjoin).
  exists depth, rds. split; [done|]. intros st a b Hq Ha Hb.
  apply roads_route; [done| |done|by apply Hjoin].
  intros u v w Hin. destruct (Hroads u v w Hin) as (_ & _ & _ & ? & ?). done.
Qed.

Lemma route_between_buildings_witness :
  exists depth rds,
    (forall fuel, (depth <= fuel)%nat -> get_mst fuel terrace true = Some rds) /\
    forall st a b, queue st = [] -> site terrace a -> site terrace b ->
    exists rounds, forall fuel, (rounds <= fuel)%nat ->
    exists path d st',
      compute fuel (road_graph rds) st a b = Some (path, Fin d, st') /\
      queue st' = [] /\
      path_from_to (road_graph rds) a b path d /\
      (forall l c, path_from_to (road_graph rds) a b l c -> d <= c).
Proof.
  apply (route_between_buildings terrace true);
    [done|exact terrace_rectangular|exact terrace_fits].
Defined.

End RouteFacts.

(** ** The course of the epidemic *)

Module EpidemicFacts.
Import Person PersonFacts Population PopulationFacts.

(** An invariant of the body is an invariant of the loop. *)
Lemma for_each_invariant {A B} (f : B -> A -> option B) (J : B -> Prop) l :
  (forall b a b', J b -> f b a = Some b' -> J b') ->
  forall b b', J b -> for_each f b l = Some b' -> J b'.
Proof.
  intros Hf. induction l as [|a l IH]; intros b b' Hb Hrun; simpl in Hrun.
  - by simplify_eq.
  - destruct (f b a) as [b1|] eqn:Hb1; simplify_eq/=. eauto.
Qed.

(** *** What holds between a person before and after *)

Section Preserved.
Context (R : relation Person.t) `{!Reflexive R, !Transitive R}.
Hypothesis R_move : forall p q, update_position p = Some q -> R p q.
Hypothesis R_exposed : forall p, status p = Susceptible -> R p (set_status p Exposed).
Hypothesis R_progress : forall d rand p k,
  R p (Person.update_infection_status d rand p k).1.
Hypothesis R_office : forall p, R p (start_move_to_office p).
Hypothesis R_home : forall p, R p (start_move_to_home p).

Lemma all_insert ps0 ps i p q :
  Forall2 R ps0 ps -> ps !! i = Some p -> R p q -> Forall2 R ps0 (<[i := q]> ps).
Proof.
  intros Hall Hi Hpq.
  destruct (Forall2_lookup_r _ _ _ _ _ Hall Hi) as (p0 & Hp0 & Hr).
  rewrite <- (list_insert_id ps0 i p0) by done.
  apply Forall2_insert; [done|]. by etrans.
Qed.

Lemma contact_all ps0 d rand i st j st' :
  Forall2 R ps0 st.1 -> contact d rand i st j = Some st' -> Forall2 R ps0 st'.1.
Proof using R_exposed Transitive0.
  unfold contact. intros Hall H.
  destruct (st.1 !! i) as [ind|]; simplify_eq/=.
  destruct (st.1 !! j) as [other|] eqn:Hj; simplify_eq/=.
  destruct (bool_decide (status other = Susceptible)) eqn:Hs; simpl in H;
    [|by simplify_eq].
  apply bool_decide_eq_true in Hs.
  repeat (case_match; simplify_eq/=); try done.
  eapply all_insert; [done..|]. by apply R_exposed.
Qed.

Lemma check_interactions_all ps0 pop rand st i st' :
  Forall2 R ps0 st.1 -> check_interactions pop rand st i = Some st' ->
  Forall2 R ps0 st'.1.
Proof using R_exposed Transitive0.
  unfold check_interactions. intros Hall H.
  destruct (st.1 !! i) as [ind|]; simplify_eq/=.
  case_decide; [|by simplify_eq].
  destruct (route_intersections pop !! person_id ind) as [others|]; simplify_eq/=.
  revert H. apply (for_each_invariant _ (fun st => Forall2 R ps0 st.1)); [|done].
  intros ? ? ?. apply contact_all.
Qed.

Lemma move_and_check_all ps0 pop rand st i st' :
  Forall2 R ps0 st.1 -> move_and_check pop rand st i = Some st' ->
  Forall2 R ps0 st'.1.
Proof using R_exposed R_move Transitive0.
  unfold move_and_check. intros Hall H.
  destruct (st.1 !! i) as [ind|] eqn:Hi; simplify_eq/=.
  destruct (update_position ind) as [ind'|] eqn:Hm; simplify_eq/=.
  revert H. apply check_interactions_all. simpl.
  eapply all_insert; [done..|]. by apply R_move.
Qed.

Lemma share_building_all ps0 d rand st j st' :
  Forall2 R ps0 st.1 -> share_building d rand st j = Some st' -> Forall2 R ps0 st'.1.
Proof using R_exposed Transitive0.
  unfold share_building. intros Hall H.
  destruct (st.1 !! j) as [occ|] eqn:Hj; simplify_eq/=.
  destruct (bool_decide (status occ = Susceptible)) eqn:Hs; simpl in H;
    [|by simplify_eq].
  apply bool_decide_eq_true in Hs.
  repeat (case_match; simplify_eq/=); try done.
  eapply all_insert; [done..|]. by apply R_exposed.
Qed.

Lemma check_building_all ps0 pop rand st i st' :
  Forall2 R ps0 st.1 -> check_building pop rand st i = Some st' ->
  Forall2 R ps0 st'.1.
Proof using R_exposed Transitive0.
  unfold check_building. intros Hall H.
  destruct (st.1 !! i) as [ind|]; simplify_eq/=.
  case_decide; [|by simplify_eq].
  match type of H with (?o ≫= _) = _ => destruct o as [occs|] end; simplify_eq/=.
  revert H. apply (for_each_invariant _ (fun st => Forall2 R ps0 st.1)); [|done].
  intros ? ? ?. apply share_building_all.
Qed.

Lemma progress_all ps0 pop rand st i st' :
  Forall2 R ps0 st.1 -> progress pop rand st i = Some st' -> Forall2 R ps0 st'.1.
Proof using R_progress Transitive0.
  unfold progress. intros Hall H.
  destruct (st.1 !! i) as [ind|] eqn:Hi; simplify_eq/=.
  pose proof (R_progress (disease pop) rand ind st.2) as Hk.
  destruct (Person.update_infection_status (disease pop) rand ind st.2) as [ind' k'].
  simplify_eq/=. by eapply all_insert.
Qed.

Lemma all_fmap ps0 ps (f : Person.t -> Person.t) :
  Forall2 R ps0 ps -> (forall p, R p (f p)) -> Forall2 R ps0 (f <$> ps).
Proof using Transitive0.
  intros Hall Hf. apply Forall2_fmap_r. eapply Forall2_impl; [done|].
  intros p0 p Hp. simpl. by trans p.
Qed.

Lemma apply_event_all ps0 rand st e st' :
  Forall2 R ps0 (people st.1) -> apply_event rand st e = Some st' ->
  Forall2 R ps0 (people st'.1).
Proof using All.
  intros Hall. destruct e; simpl; intros H.
  - destruct (update_positions st.1 rand st.2) as [r|] eqn:Hr; simplify_eq/=.
    revert Hr. unfold update_positions.
    apply (for_each_invariant _ (fun st => Forall2 R ps0 st.1)); [|done].
    intros ? ? ?. apply move_and_check_all.
  - destruct (update_infection_status st.1 rand st.2) as [r|] eqn:Hr; simplify_eq/=.
    unfold update_infection_status in Hr.
    destruct (for_each (check_building st.1 rand) _ _) as [st1|] eqn:H1; simplify_eq/=.
    revert Hr. apply (for_each_invariant _ (fun st => Forall2 R ps0 st.1)).
    { intros ? ? ?. apply progress_all. }
    revert H1. apply (for_each_invariant _ (fun st => Forall2 R ps0 st.1)); [|done].
    intros ? ? ?. apply check_building_all.
  - simplify_eq/=. by apply all_fmap.
  - simplify_eq/=. by apply all_fmap.
  - destruct (people st.1 !! i) as [p|] eqn:Hi; simplify_eq/=.
    by eapply all_insert.
  - destruct (people st.1 !! i) as [p|] eqn:Hi; simplify_eq/=.
    by eapply all_insert.
Qed.

Lemma run_all rand events st st' :
  run rand st events = Some st' -> Forall2 R (people st.1) (people st'.1).
Proof using All.
  unfold run.
  apply (for_each_invariant _ (fun s => Forall2 R (people st.1) (people s.1))).
  - intros ? ? ?. apply apply_event_all.
  - apply Forall_Forall2_diag, Forall_true. intros p. reflexivity.
Qed.

End Preserved.

(** *** The status only moves forward *)

(** How far the disease has come: S, then E, then I, then R or D. *)
Definition stage (st : Status) : nat :=
  match st with
  | Susceptible => 0
  | Exposed => 1
  | Infected => 2
  | Recovered | Deceased => 3
  end.

(** [onward s s']: the status [s'] is [s], or a later stage. *)
Definition onward (s s' : Status) : Prop := s' = s \/ (stage s < stage s')%nat.

(** The attributes that no update writes. *)
Definition fixed (p : Person.t) :=
  (person_id p, home_location p, office_location p, home_position p,
   office_position p, home_radius p, office_radius p, home_to_office_route p,
   office_to_home_route p, speed p, leave_home p, seconds_per_hour p).

Definition follows (p q : Person.t) : Prop :=
  onward (status p) (status q) /\ fixed q = fixed p.

#[global] Instance follows_refl : Reflexive follows.
Proof. intros p. split; [by left|done]. Qed.

#[global] Instance follows_trans : Transitive follows.
Proof.
  intros p q r [H1 H2] [H3 H4]. split; [|congruence].
  unfold onward in *. destruct H1 as [H1|H1], H3 as [H3|H3].
  - left. congruence.
  - right. by rewrite <- H1.
  - right. by rewrite H3.
  - right. lia.
Qed.

Lemma update_position_fixed p q : update_position p = Some q -> fixed q = fixed p.
Proof.
  unfold update_position. intros H.
  destruct (decide (status p = Deceased)); [by simplify_eq|].
  destruct (moving p); [|by simplify_eq].
  destruct (route p) as [r|]; [|done]. simpl in H.
  destruct (r !! route_index p); [|by simplify_eq].
  destruct (PrimFloat.ltb _ _); [by simplify_eq|].
  destruct (PrimFloat.eqb _ _); by simplify_eq.
Qed.

Lemma follows_update_position p q : update_position p = Some q -> follows p q.
Proof.
  intros H. split; [left; by eapply update_position_status|].
  by apply update_position_fixed.
Qed.

Lemma follows_exposed p : status p = Susceptible -> follows p (set_status p Exposed).
Proof. intros Hp. split; [|done]. right. simpl. rewrite Hp. simpl. lia. Qed.

Lemma follows_update_infection_status d rand p k :
  follows p (Person.update_infection_status d rand p k).1.
Proof.
  unfold Person.update_infection_status.
  destruct (status p) eqn:Hp; simpl; try reflexivity.
  - case_match; (split; [|done]); simpl; rewrite Hp; [right; simpl; lia|by left].
  - repeat case_match; simpl; try reflexivity;
      (split; [|done]); simpl; rewrite Hp; right; simpl; lia.
Qed.

Lemma follows_start_move_to_office p : follows p (start_move_to_office p).
Proof. unfold start_move_to_office. case_decide; [|reflexivity]. split; [by left|done]. Qed.

Lemma follows_start_move_to_home p : follows p (start_move_to_home p).
Proof. unfold start_move_to_home. case_decide; [|reflexivity]. split; [by left|done]. Qed.

(** Through any sequence of ticks, hourly updates and starts of movement
    that the simulation completes, the roster keeps its length and its
    order, every person keeps its identity, home, office, routes, radii
    and speed, and its status is what it was or a later stage of S, E, I,
    R or D: nobody becomes susceptible again, and nobody is exposed or
    infected again after recovery or death. *)
Theorem status_onward rand events pop k pop' k' :
  run rand (pop, k) events = Some (pop', k') ->
  Forall2 (fun p q => onward (status p) (status q) /\ fixed q = fixed p)
          (people pop) (people pop').
Proof.
  intros Hrun.
  apply (run_all follows follows_update_position follows_exposed
           follows_update_infection_status follows_start_move_to_office
           follows_start_move_to_home) in Hrun.
  exact Hrun.
Qed.

Lemma status_onward_witness :
  Forall2 (fun p q => onward (status p) (status q) /\ fixed q = fixed p)
          (people street) (people street_after.1).
Proof.
  apply (status_onward (fun k => Z.of_nat k * 7) a_day street 0%nat
           street_after.1 street_after.2).
  vm_compute. reflexivity.
Defined.

(** *** When no infection is left *)

(** No status is E or I. *)
Definition calm (sts : list Status) : Prop :=
  Forall (fun st => st <> Exposed /\ st <> Infected) sts.

Lemma has_active_infections_calm pop :
  has_active_infections pop = false <-> calm (status <$> people pop).
Proof.
  unfold has_active_infections, calm. rewrite Forall_fmap.
  induction (people pop) as [|p ps IH]; simpl.
  - split; [constructor|done].
  - rewrite orb_false_iff, IH, Forall_cons, bool_decide_eq_false. simpl. tauto.
Qed.

Section Calm.
Context (sts : list Status) (k0 : nat).
Hypothesis Hcalm : calm sts.

(** The statuses and the number of draws are what they were. *)
Definition still (st : state) : Prop := status <$> st.1 = sts /\ st.2 = k0.

Lemma still_lookup st i p :
  still st -> st.1 !! i = Some p -> status p <> Exposed /\ status p <> Infected.
Proof using Hcalm.
  intros [Hs _] Hi. unfold calm in Hcalm. rewrite Forall_forall in Hcalm.
  apply Hcalm. rewrite <- Hs. apply list_elem_of_fmap. exists p.
  split; [done|]. by eapply list_elem_of_lookup_2.
Qed.

Lemma still_insert st i p q :
  still st -> st.1 !! i = Some p -> status q = status p ->
  still (<[i := q]> st.1, st.2).
Proof.
  intros [Hs Hk] Hi Hq. split; [|done]. simpl.
  rewrite list_fmap_insert, Hq, <- Hs. apply list_insert_id.
  by rewrite list_lookup_fmap, Hi.
Qed.

Lemma move_and_check_still pop rand st i st' :
  still st -> move_and_check pop rand st i = Some st' -> still st'.
Proof using Hcalm.
  unfold move_and_check. intros Hst H.
  destruct (st.1 !! i) as [ind|] eqn:Hi; simplify_eq/=.
  destruct (update_position ind) as [ind'|] eqn:Hm; simplify_eq/=.
  pose proof (update_position_status _ _ Hm) as Hs.
  pose proof (still_insert st i ind ind' Hst Hi Hs) as Hst'.
  unfold check_interactions in H. simpl in H.
  rewrite list_lookup_insert_eq in H by (by eapply lookup_lt_Some). simpl in H.
  destruct (still_lookup st i ind Hst Hi) as [_ Hni].
  rewrite decide_False in H by congruence. by simplify_eq.
Qed.

Lemma check_building_still pop rand st i st' :
  still st -> check_building pop rand st i = Some st' -> still st'.
Proof using Hcalm.
  unfold check_building. intros Hst H.
  destruct (st.1 !! i) as [ind|] eqn:Hi; simplify_eq/=.
  destruct (still_lookup st i ind Hst Hi) as [_ Hni].
  rewrite decide_False in H by done. by simplify_eq.
Qed.

Lemma progress_still pop rand st i st' :
  still st -> progress pop rand st i = Some st' -> still st'.
Proof using Hcalm.
  unfold progress. intros Hst H.
  destruct (st.1 !! i) as [ind|] eqn:Hi; simplify_eq/=.
  destruct (still_lookup st i ind Hst Hi) as [Hne Hni].
  unfold Person.update_infection_status in H.
  destruct (status ind) eqn:Hs; try done; simplify_eq/=;
    rewrite list_insert_id by done; by destruct st.
Qed.

Lemma still_fmap st (f : Person.t -> Person.t) :
  still st -> (forall p, status (f p) = status p) -> still (f <$> st.1, st.2).
Proof.
  intros [Hs Hk] Hf. split; [|done]. simpl. rewrite <- Hs, <- list_fmap_compose.
  apply list_fmap_ext. intros ? p _. apply Hf.
Qed.

Lemma start_move_to_office_status p : status (start_move_to_office p) = status p.
Proof. unfold start_move_to_office. by case_decide. Qed.

Lemma start_move_to_home_status p : status (start_move_to_home p) = status p.
Proof. unfold start_move_to_home. by case_decide. Qed.

Lemma apply_event_still rand st e st' :
  still (people st.1, st.2) -> apply_event rand st e = Some st' ->
  still (people st'.1, st'.2).
Proof using Hcalm.
  intros Hst. destruct e; simpl; intros H.
  - destruct (update_positions st.1 rand st.2) as [r|] eqn:Hr; simplify_eq/=.
    assert (still r); [|by destruct r].
    revert Hr. unfold update_positions. apply (for_each_invariant _ still); [|done].
    intros ? ? ?. apply move_and_check_still.
  - destruct (update_infection_status st.1 rand st.2) as [r|] eqn:Hr; simplify_eq/=.
    assert (still r); [|by destruct r].
    unfold update_infection_status in Hr.
    destruct (for_each (check_building st.1 rand) _ _) as [st1|] eqn:H1; simplify_eq/=.
    revert Hr. apply (for_each_invariant _ still).
    { intros ? ? ?. apply progress_still. }
    revert H1. apply (for_each_invariant _ still); [|done].
    intros ? ? ?. apply check_building_still.
  - simplify_eq/=.
    apply (still_fmap (people st.1, st.2)); [done|apply start_move_to_office_status].
  - simplify_eq/=.
    apply (still_fmap (people st.1, st.2)); [done|apply start_move_to_home_status].
  - destruct (people st.1 !! i) as [p|] eqn:Hi; simplify_eq/=.
    apply (still_insert (people st.1, st.2) i p); [done..|].
    apply start_move_to_office_status.
  - destruct (people st.1 !! i) as [p|] eqn:Hi; simplify_eq/=.
    apply (still_insert (people st.1, st.2) i p); [done..|].
    apply start_move_to_home_status.
Qed.

Lemma run_still rand events st st' :
  still (people st.1, st.2) -> run rand st events = Some st' ->
  still (people st'.1, st'.2).
Proof using Hcalm.
  unfold run. apply (for_each_invariant _ (fun s => still (people s.1, s.2))).
  intros ? ? ?. apply apply_event_still.
Qed.

End Calm.

(** Once [has_active_infections] is false, it stays false: through any
    sequence of ticks, hourly updates and starts of movement that the
    simulation completes, every person keeps its status and no random
    number is drawn. *)
Theorem no_infection_left rand events pop k pop' k' :
  has_active_infections pop = false ->
  run rand (pop, k) events = Some (pop', k') ->
  status <$> people pop' = status <$> people pop /\
  k' = k /\
  has_active_infections pop' = false.
Proof.
  intros Hcalm%has_active_infections_calm Hrun.
  destruct (run_still (status <$> people pop) k Hcalm rand events (pop, k) (pop', k'))
    as [Hs Hk]; [done|done|].
  simpl in *. split_and!; [done..|].
  apply has_active_infections_calm. by rewrite Hs.
Qed.

(** The street when the infection is over. *)
Definition street_done : Population.t :=
  set_people street
    [resident 0 Recovered (0, 0)%float; resident 1 Susceptible (1, 0)%float;
     resident 2 Recovered (2, 0)%float; resident 3 Deceased (3, 0)%float].

Definition street_done_after : Population.t * nat :=
  default (street_done, 0%nat) (run (fun k => Z.of_nat k * 7) (street_done, 0%nat) a_day).

Lemma no_infection_left_witness :
  status <$> people street_done_after.1 = status <$> people street_done /\
  street_done_after.2 = 0%nat /\
  has_active_infections street_done_after.1 = false.
Proof.
  apply (no_infection_left (fun k => Z.of_nat k * 7) a_day street_done 0%nat
           street_done_after.1 street_done_after.2).
  - vm_compute. reflexivity.
  - vm_compute. reflexivity.
Defined.

(** *** The counts of the statuses *)

(** The number of persons with the status [st]. *)
Definition count (st : Status) (ps : list Person.t) : nat :=
  length (filter (fun p => status p = st) ps).

Lemma count_cons st p ps :
  count st (p :: ps) = ((if decide (status p = st) then 1 else 0) + count st ps)%nat.
Proof. unfold count. rewrite filter_cons. by case_decide. Qed.

Lemma counts_foldl ps : forall (m : gmap Status Z) (c : Status -> Z),
  (forall st, m !! st = Some (c st)) ->
  forall st,
    foldl (fun counts individual => alter (fun c => c + 1) (status individual) counts)
          m ps !! st
    = Some (c st + Z.of_nat (count st ps)).
Proof.
  induction ps as [|p ps IH]; intros m c Hm st; simpl.
  - rewrite Hm. f_equal. unfold count. simpl. lia.
  - rewrite (IH _ (fun st' => if decide (status p = st') then c st' + 1 else c st')).
    + rewrite count_cons. f_equal. case_decide; lia.
    + intros st'. case_decide as Hst.
      * subst. by rewrite lookup_alter_eq, Hm.
      * by rewrite lookup_alter_ne, Hm.
Qed.

Lemma get_status_counts_count pop st :
  get_status_counts pop !! st = Some (Z.of_nat (count st (people pop))).
Proof.
  unfold get_status_counts. rewrite (counts_foldl _ _ (fun _ => 0)); [done|].
  by intros [].
Qed.

Lemma count_total ps :
  (count Susceptible ps + count Exposed ps + count Infected ps
   + count Recovered ps + count Deceased ps = length ps)%nat.
Proof.
  induction ps as [|p ps IH]; [done|]. rewrite !count_cons. simpl.
  destruct (status p); repeat case_decide; try done; lia.
Qed.

Lemma follows_counts ps qs :
  Forall2 follows ps qs ->
  (count Susceptible qs <= count Susceptible ps)%nat /\
  (count Recovered ps <= count Recovered qs)%nat /\
  (count Deceased ps <= count Deceased qs)%nat.
Proof.
  induction 1 as [|p q ps qs [Hon _] _ IH]; [done|]. rewrite !count_cons.
  unfold onward in Hon.
  destruct (status p), (status q); simpl in Hon;
    repeat case_decide; try done; try lia; destruct Hon; try done; lia.
Qed.

(** After any sequence of ticks, hourly updates and starts of movement
    that the simulation completes, [get_status_counts] gives for each of
    S, E, I, R and D the number of persons with that status; the five
    counts add up to the number of persons at the start, the count of S is
    no more than at the start, and the counts of R and of D are no less. *)
Theorem status_counts rand events pop k pop' k' :
  run rand (pop, k) events = Some (pop', k') ->
  (forall st, get_status_counts pop' !! st = Some (Z.of_nat (count st (people pop')))) /\
  (count Susceptible (people pop') + count Exposed (people pop')
   + count Infected (people pop') + count Recovered (people pop')
   + count Deceased (people pop') = length (people pop))%nat /\
  (count Susceptible (people pop') <= count Susceptible (people pop))%nat /\
  (count Recovered (people pop) <= count Recovered (people pop'))%nat /\
  (count Deceased (people pop) <= count Deceased (people pop'))%nat.
Proof.
  intros Hrun.
  apply (run_all follows follows_update_position follows_exposed
           follows_update_infection_status follows_start_move_to_office
           follows_start_move_to_home) in Hrun.
  simpl in Hrun. split; [intros st; apply get_status_counts_count|].
  rewrite count_total, <- (Forall2_length _ _ _ Hrun). split; [done|].
  by apply follows_counts.
Qed.

Lemma status_counts_witness :
  (forall st, get_status_counts street_after.1 !! st
              = Some (Z.of_nat (count st (people street_after.1)))) /\
  (count Susceptible (people street_after.1) + count Exposed (people street_after.1)
   + count Infected (people street_after.1) + count Recovered (people street_after.1)
   + count Deceased (people street_after.1) = length (people street))%nat /\
  (count Susceptible (people street_after.1) <= count Susceptible (people street))%nat /\
  (count Recovered (people street) <= count Recovered (people street_after.1))%nat /\
  (count Deceased (people street) <= count Deceased (people street_after.1))%nat.
Proof.
  apply (status_counts (fun k => Z.of_nat k * 7) a_day street 0%nat
           street_after.1 street_after.2).
  vm_compute. reflexivity.
Defined.

End EpidemicFacts.

(** ** The clock and the graph *)

Module ClockFacts.
Import Person Population PopulationFacts EpidemicFacts.

(** *** One hour and one tick of the population *)

Lemma hour_follows pop rand k r :
  Population.update_infection_status pop rand k = Some r ->
  Forall2 follows (people pop) r.1.
Proof.
  intros H.
  apply (apply_event_all follows follows_update_position follows_exposed
           follows_update_infection_status follows_start_move_to_office
           follows_start_move_to_home (people pop) rand (pop, k) Hour
           (set_people pop r.1, r.2)).
  - reflexivity.
  - simpl. by rewrite H.
Qed.

Lemma tick_follows pop rand k r :
  update_positions pop rand k = Some r -> Forall2 follows (people pop) r.1.
Proof.
  intros H.
  apply (apply_event_all follows follows_update_position follows_exposed
           follows_update_infection_status follows_start_move_to_office
           follows_start_move_to_home (people pop) rand (pop, k) Tick
           (set_people pop r.1, r.2)).
  - reflexivity.
  - simpl. by rewrite H.
Qed.

Lemma hour_calm pop rand k r :
  has_active_infections pop = false ->
  Population.update_infection_status pop rand k = Some r ->
  has_active_infections (set_people pop r.1) = false.
Proof.
  intros Hcalm%has_active_infections_calm H.
  destruct (apply_event_still (status <$> people pop) k Hcalm rand (pop, k) Hour
              (set_people pop r.1, r.2)) as [Hs _]; [done|by simpl; rewrite H|].
  apply has_active_infections_calm. simpl in *. by rewrite Hs.
Qed.

Lemma tick_calm pop rand k r :
  has_active_infections pop = false ->
  update_positions pop rand k = Some r ->
  has_active_infections (set_people pop r.1) = false.
Proof.
  intros Hcalm%has_active_infections_calm H.
  destruct (apply_event_still (status <$> people pop) k Hcalm rand (pop, k) Tick
              (set_people pop r.1, r.2)) as [Hs _]; [done|by simpl; rewrite H|].
  apply has_active_infections_calm. simpl in *. by rewrite Hs.
Qed.

(** *** The samples of the graph *)

(** The five lists are as long as the list of x-values, and the five
    counts of every sample add up to [N]. *)
Definition sums_to (N : nat) (g : PlotGraph.t) : Prop :=
  length (PlotGraph.susceptible g) = length (PlotGraph.hours g) /\
  length (PlotGraph.exposed g) = length (PlotGraph.hours g) /\
  length (PlotGraph.infected g) = length (PlotGraph.hours g) /\
  length (PlotGraph.recovered g) = length (PlotGraph.hours g) /\
  length (PlotGraph.deceased g) = length (PlotGraph.hours g) /\
  forall n s e i r d,
    PlotGraph.susceptible g !! n = Some s -> PlotGraph.exposed g !! n = Some e ->
    PlotGraph.infected g !! n = Some i -> PlotGraph.recovered g !! n = Some r ->
    PlotGraph.deceased g !! n = Some d ->
    s + e + i + r + d = Z.of_nat N.

Lemma lookup_snoc_cases {A} (l : list A) x n y :
  (l ++ [x]) !! n = Some y ->
  ((n < length l)%nat /\ l !! n = Some y) \/ (n = length l /\ y = x).
Proof.
  intros H. destruct (decide (n < length l)%nat) as [Hlt|Hge].
  - left. by rewrite lookup_app_l in H.
  - right. rewrite lookup_app_r in H by lia.
    destruct (n - length l)%nat as [|m] eqn:Hm; simplify_eq/=. split; [lia|done].
Qed.

Lemma update_counts g day hour pop :
  PlotGraph.update g day hour (get_status_counts pop) =
  Some (PlotGraph.Make
          (PlotGraph.hours g ++ [(day - 1) * 24 + hour])
          (PlotGraph.susceptible g ++ [Z.of_nat (count Susceptible (people pop))])
          (PlotGraph.exposed g ++ [Z.of_nat (count Exposed (people pop))])
          (PlotGraph.infected g ++ [Z.of_nat (count Infected (people pop))])
          (PlotGraph.recovered g ++ [Z.of_nat (count Recovered (people pop))])
          (PlotGraph.deceased g ++ [Z.of_nat (count Deceased (people pop))])).
Proof. unfold PlotGraph.update. by rewrite !get_status_counts_count. Qed.

Lemma sums_to_update N g day hour pop g' :
  sums_to N g -> length (people pop) = N ->
  PlotGraph.update g day hour (get_status_counts pop) = Some g' ->
  sums_to N g' /\ PlotGraph.hours g' = PlotGraph.hours g ++ [(day - 1) * 24 + hour].
Proof.
  intros (H1 & H2 & H3 & H4 & H5 & Hsum) HN Hg.
  rewrite update_counts in Hg. simplify_eq. split; [|done].
  unfold sums_to. simpl. rewrite !length_app. simpl.
  split_and!; [lia..|].
  intros n s e i r d
    [[Hs ?]|[Hs ?]]%lookup_snoc_cases [[He ?]|[He ?]]%lookup_snoc_cases
    [[Hi ?]|[Hi ?]]%lookup_snoc_cases [[Hr ?]|[Hr ?]]%lookup_snoc_cases
    [[Hd ?]|[Hd ?]]%lookup_snoc_cases; try lia.
  - by eapply Hsum.
  - subst. pose proof (count_total (people pop)). lia.
Qed.

Lemma seqZ_snoc n : 0 <= n -> seqZ 0 (n + 1) = seqZ 0 n ++ [n].
Proof. intros Hn. rewrite seqZ_app by lia. f_equal. Qed.

(** *** The invariant of the simulation loop *)

Record inv (N : nat) (c : Clock.t) : Prop := {
  inv_day : 1 <= Clock.day c;
  inv_hour : 0 <= Clock.hour c <= 24;
  inv_people : length (people (Clock.population c)) = N;
  inv_hours :
    PlotGraph.hours (Clock.graph c) =
      seqZ 0 (24 * (Clock.day c - 1) + Clock.hour c + 1)
      ++ (if Clock.running c then [] else [24 * (Clock.day c - 1) + Clock.hour c]);
  inv_sums : sums_to N (Clock.graph c);
  inv_stop : Clock.running c = false ->
    has_active_infections (Clock.population c) = false;
}.

Lemma init_inv pop k sph now c :
  Clock.init pop k sph now = Some c -> inv (length (people pop)) c.
Proof.
  unfold Clock.init. intros H.
  destruct (PlotGraph.update _ _ _ _) as [g|] eqn:Hg; simplify_eq/=.
  destruct (sums_to_update (length (people pop)) PlotGraph.init 1 0 pop g) as [Hs Hh];
    [|done|done|].
  { unfold sums_to. simpl. by split_and!. }
  split; simpl; try done; by rewrite Hh.
Qed.

Lemma update_time_inv N rand now c c' :
  inv N c -> Clock.update_time rand now c = Some c' -> inv N c'.
Proof.
  intros Hinv. pose proof Hinv as [Hday Hhour Hpeople Hhours Hsums Hstop].
  unfold Clock.update_time. intros H.
  destruct (Clock.running c) eqn:Hrun; simpl in H; [|by simplify_eq].
  destruct (has_active_infections (Clock.population c)) eqn:Hact; simpl in H.
  - destruct (PrimFloat.leb _ _); [|by simplify_eq].
    destruct (Population.update_infection_status _ _ _) as [r|] eqn:Hr; simplify_eq/=.
    destruct (PlotGraph.update _ _ _ _) as [g|] eqn:Hg; simplify_eq/=.
    pose proof (Forall2_length _ _ _ (hour_follows _ _ _ _ Hr)) as Hlen.
    destruct (sums_to_update _ _ _ _ _ _ Hsums
                (eq_sym Hlen : length (people (set_people (Clock.population c) r.1)) = _)
                Hg) as [Hs Hh].
    split; simpl; try done.
    + case_match; lia.
    + case_match; lia.
    + by rewrite length_fmap.
    + rewrite Hh, Hhours, app_nil_r.
      assert (24 * ((if 24 <? Clock.hour c + 1 then Clock.day c + 1 else Clock.day c) - 1)
              + (if 24 <? Clock.hour c + 1 then 1 else Clock.hour c + 1)
              = 24 * (Clock.day c - 1) + Clock.hour c + 1) as ->.
      { destruct (24 <? Clock.hour c + 1) eqn:Hlt; [apply Z.ltb_lt in Hlt|]; lia. }
      rewrite (seqZ_snoc (24 * (Clock.day c - 1) + Clock.hour c + 1)) by lia.
      rewrite app_nil_r. do 2 f_equal. lia.
  - destruct (Population.update_infection_status _ _ _) as [r|] eqn:Hr; simplify_eq/=.
    destruct (PlotGraph.update _ _ _ _) as [g|] eqn:Hg; simplify_eq/=.
    pose proof (Forall2_length _ _ _ (hour_follows _ _ _ _ Hr)) as Hlen.
    destruct (sums_to_update _ _ _ _ _ _ Hsums
                (eq_sym Hlen : length (people (set_people (Clock.population c) r.1)) = _)
                Hg) as [Hs Hh].
    split; simpl; try done.
    + rewrite Hh, Hhours, app_nil_r. do 2 f_equal. lia.
    + intros _. by eapply hour_calm.
Qed.

Lemma frame_inv N rand c now c' :
  inv N c -> Main.frame rand c now = Some c' -> inv N c'.
Proof.
  unfold Main.frame. intros Hinv H.
  destruct (Clock.running c); [|by simplify_eq].
  destruct (Clock.update_time rand now c) as [c1|] eqn:Hc1; simplify_eq/=.
  destruct (update_positions _ _ _) as [r|] eqn:Hr; simplify_eq/=.
  destruct (update_time_inv N rand now c c1 Hinv Hc1)
    as [Hday Hhour Hpeople Hhours Hsums Hstop].
  pose proof (Forall2_length _ _ _ (tick_follows _ _ _ _ Hr)) as Hlen.
  split; simpl; try done.
  - congruence.
  - intros Hrun. eapply tick_calm; [by apply Hstop|done].
Qed.

(** The x-values of the graph count the hours: through any rounds of the
    simulation loop that complete, whatever the times read, the samples
    were taken at the hours 0, 1, ..., [24 * (day - 1) + hour] of the
    clock, with [day >= 1] and [0 <= hour <= 24], and once more at the
    last of them when the clock has stopped; each of the five lines has a
    value for every sample, and the five values of a sample add up to the
    number of persons. *)
Theorem graph_timeline rand pop k sph now times c0 c :
  Clock.init pop k sph now = Some c0 ->
  Main.run_simulation rand c0 times = Some c ->
  1 <= Clock.day c /\ 0 <= Clock.hour c <= 24 /\
  PlotGraph.hours (Clock.graph c) =
    seqZ 0 (24 * (Clock.day c - 1) + Clock.hour c + 1)
    ++ (if Clock.running c then [] else [24 * (Clock.day c - 1) + Clock.hour c]) /\
  length (PlotGraph.susceptible (Clock.graph c)) = length (PlotGraph.hours (Clock.graph c)) /\
  length (PlotGraph.exposed (Clock.graph c)) = length (PlotGraph.hours (Clock.graph c)) /\
  length (PlotGraph.infected (Clock.graph c)) = length (PlotGraph.hours (Clock.graph c)) /\
  length (PlotGraph.recovered (Clock.graph c)) = length (PlotGraph.hours (Clock.graph c)) /\
  length (PlotGraph.deceased (Clock.graph c)) = length (PlotGraph.hours (Clock.graph c)) /\
  forall n s e i r d,
    PlotGraph.susceptible (Clock.graph c) !! n = Some s ->
    PlotGraph.exposed (Clock.graph c) !! n = Some e ->
    PlotGraph.infected (Clock.graph c) !! n = Some i ->
    PlotGraph.recovered (Clock.graph c) !! n = Some r ->
    PlotGraph.deceased (Clock.graph c) !! n = Some d ->
    s + e + i + r + d = Z.of_nat (length (people pop)).
Proof.
  intros Hinit%init_inv Hrun.
  assert (inv (length (people pop)) c) as [Hday Hhour _ Hhours Hsums _].
  { revert Hrun. unfold Main.run_simulation.
    apply (for_each_invariant _ (inv (length (people pop)))); [|done].
    intros ? ? ?. apply frame_inv. }
  destruct Hsums as (? & ? & ? & ? & ? & ?). split_and!; try done; lia.
Qed.

(** The clock of the street, at the start and three rounds later, an
    hour apart. *)
Definition street_clock : Clock.t :=
  default (Clock.Make 1 0 true 1 street 0 0 PlotGraph.init) (Clock.init street 0 1 0).

Definition street_clock_after : Clock.t :=
  default street_clock
    (Main.run_simulation (fun k => Z.of_nat k * 7) street_clock [1; 2; 3]%float).

Lemma graph_timeline_witness :
  1 <= Clock.day street_clock_after /\ 0 <= Clock.hour street_clock_after <= 24 /\
  PlotGraph.hours (Clock.graph street_clock_after) =
    seqZ 0 (24 * (Clock.day street_clock_after - 1) + Clock.hour street_clock_after + 1)
    ++ (if Clock.running street_clock_after then []
        else [24 * (Clock.day street_clock_after - 1) + Clock.hour street_clock_after]) /\
  length (PlotGraph.susceptible (Clock.graph street_clock_after))
    = length (PlotGraph.hours (Clock.graph street_clock_after)) /\
  length (PlotGraph.exposed (Clock.graph street_clock_after))
    = length (PlotGraph.hours (Clock.graph street_clock_after)) /\
  length (PlotGraph.infected (Clock.graph street_clock_after))
    = length (PlotGraph.hours (Clock.graph street_clock_after)) /\
  length (PlotGraph.recovered (Clock.graph street_clock_after))
    = length (PlotGraph.hours (Clock.graph street_clock_after)) /\
  length (PlotGraph.deceased (Clock.graph street_clock_after))
    = length (PlotGraph.hours (Clock.graph street_clock_after)) /\
  forall n s e i r d,
    PlotGraph.susceptible (Clock.graph street_clock_after) !! n = Some s ->
    PlotGraph.exposed (Clock.graph street_clock_after) !! n = Some e ->
    PlotGraph.infected (Clock.graph street_clock_after) !! n = Some i ->
    PlotGraph.recovered (Clock.graph street_clock_after) !! n = Some r ->
    PlotGraph.deceased (Clock.graph street_clock_after) !! n = Some d ->
    s + e + i + r + d = Z.of_nat (length (people street)).
Proof.
  apply (graph_timeline (fun k => Z.of_nat k * 7) street 0%nat 1%float 0%float
           [1; 2; 3]%float street_clock street_clock_after).
  - vm_compute. reflexivity.
  - vm_compute. reflexivity.
Defined.

(** When the clock has stopped, nobody is exposed or infected, and the
    rounds of the simulation loop that follow change nothing. *)
Theorem clock_stopped rand pop k sph now times c0 c :
  Clock.init pop k sph now = Some c0 ->
  Main.run_simulation rand c0 times = Some c ->
  Clock.running c = false ->
  has_active_infections (Clock.population c) = false /\
  forall more, Main.run_simulation rand c more = Some c.
Proof.
  intros Hinit%init_inv Hrun Hstop.
  assert (inv (length (people pop)) c) as Hinv.
  { revert Hrun. unfold Main.run_simulation.
    apply (for_each_invariant _ (inv (length (people pop)))); [|done].
    intros ? ? ?. apply frame_inv. }
  split; [by apply Hinv|].
  intros more. unfold Main.run_simulation.
  assert (forall t, Main.frame rand c t = Some c) as Hframe.
  { intros t. unfold Main.frame. by rewrite Hstop. }
  induction more as [|t more IH]; [done|].
  cbn [for_each]. by rewrite Hframe.
Qed.

(** The clock of the street when the infection is over, at the start and
    two rounds later. *)
Definition idle_clock : Clock.t :=
  default (Clock.Make 1 0 true 1 street_done 0 0 PlotGraph.init)
          (Clock.init street_done 0 1 0).

Definition idle_clock_after : Clock.t :=
  default idle_clock
    (Main.run_simulation (fun k => Z.of_nat k * 7) idle_clock [1; 2]%float).

Lemma clock_stopped_witness :
  has_active_infections (Clock.population idle_clock_after) = false /\
  forall more,
    Main.run_simulation (fun k => Z.of_nat k * 7) idle_clock_after more
    = Some idle_clock_after.
Proof.
  apply (clock_stopped (fun k => Z.of_nat k * 7) street_done 0%nat 1%float 0%float
           [1; 2]%float idle_clock idle_clock_after).
  - vm_compute. reflexivity.
  - vm_compute. reflexivity.
  - vm_compute. reflexivity.
Defined.

End ClockFacts.

(** ** The buildings of the tilemap *)

Module TilemapFacts.
Import CreateGraph CreateGraphFacts RoadsFacts Tilemap.

(** The locations of a list of buildings. *)
Definition locations (bs : list Population.building) : list node :=
  Population.location <$> bs.

Lemma get_tile m y x :
  get m y x = match tile m (Z.to_nat y) (Z.to_nat x) with
              | Some v => Done v
              | None => IndexError
              end.
Proof.
  unfold get, tile. destruct (m !! Z.to_nat y) as [row|]; simpl; [|done].
  by destruct (row !! Z.to_nat x).
Qed.

Lemma lookup_insert_const (row : list Z) x v i :
  <[x := v]> row !! i = if decide (i = x) then (fun _ => v) <$> row !! i else row !! i.
Proof.
  case_decide as Hi.
  - subst. destruct (row !! x) as [w|] eqn:Hw; simpl.
    + apply list_lookup_insert_eq. by eapply lookup_lt_Some.
    + apply lookup_ge_None. rewrite length_insert. by apply lookup_ge_None.
  - by apply list_lookup_insert_ne.
Qed.

Lemma tile_set m y x v j i :
  tile (set m y x v) j i =
    if decide (j = Z.to_nat y /\ i = Z.to_nat x)
    then (fun _ => v) <$> tile m j i else tile m j i.
Proof.
  unfold tile, set. destruct (decide (j = Z.to_nat y)) as [->|Hj].
  - rewrite list_lookup_alter_eq. destruct (m !! Z.to_nat y) as [row|]; simpl.
    + rewrite lookup_insert_const. repeat case_decide; try done; tauto.
    + by case_decide.
  - rewrite list_lookup_alter_ne by done. rewrite decide_False by tauto. done.
Qed.

(** An array of [W] rows and [H] columns. *)
Definition shaped (W H : Z) (m : list (list Z)) : Prop :=
  length m = Z.to_nat W /\ Forall (fun row => length row = Z.to_nat H) m.

Lemma tile_is_Some W H m j i :
  shaped W H m ->
  is_Some (tile m j i) <-> (j < Z.to_nat W)%nat /\ (i < Z.to_nat H)%nat.
Proof.
  intros [Hrows Hcols]. rewrite Forall_forall in Hcols. unfold tile. split.
  - intros [v Hv]. destruct (m !! j) as [row|] eqn:Hrow; simplify_eq/=.
    split; [rewrite <- Hrows; by eapply lookup_lt_Some|].
    rewrite <- (Hcols row) by (by eapply list_elem_of_lookup_2).
    by eapply lookup_lt_Some.
  - intros [Hj Hi]. destruct (lookup_lt_is_Some_2 m j) as [row Hrow]; [lia|].
    rewrite Hrow. simpl. apply lookup_lt_is_Some_2.
    rewrite (Hcols row) by (by eapply list_elem_of_lookup_2). done.
Qed.

Lemma shaped_zeros W H : shaped W H (zeros (W, H)).
Proof.
  unfold zeros. simpl. split; [by rewrite length_replicate|].
  apply Forall_replicate. by rewrite length_replicate.
Qed.

Lemma tile_zeros W H j i v : tile (zeros (W, H)) j i = Some v -> v = 0.
Proof.
  unfold tile, zeros. simpl. intros H0.
  destruct (replicate _ _ !! j) as [row|] eqn:Hrow; simplify_eq/=.
  apply lookup_replicate in Hrow as [-> _].
  by apply lookup_replicate in H0 as [-> _].
Qed.

Lemma shaped_set W H m y x v : shaped W H m -> shaped W H (set m y x v).
Proof.
  intros [Hrows Hcols]. unfold set. split; [by rewrite length_alter|].
  apply Forall_alter; [done|]. intros row Hrow Hlen.
  by rewrite length_insert.
Qed.

Lemma shaped_rectangular W H m : shaped W H m -> rectangular m.
Proof.
  intros [_ Hcols] row0 row H0 Hrow. rewrite Forall_forall in Hcols.
  rewrite (Hcols row Hrow). symmetry. apply Hcols. by eapply list_elem_of_lookup_2.
Qed.

(** *** The invariant of the placement *)

Record wf (W H : Z) (tm : t) : Prop := {
  wf_size : size tm = (W, H);
  wf_shape : shaped W H (map tm);
  wf_houses : forall i j,
    tile (map tm) j i = Some 1 <-> (Z.of_nat i, Z.of_nat j) ∈ locations (houses tm);
  wf_offices : forall i j,
    tile (map tm) j i = Some 2 <-> (Z.of_nat i, Z.of_nat j) ∈ locations (offices tm);
  wf_tiles : forall i j v, tile (map tm) j i = Some v -> v = 0 \/ v = 1 \/ v = 2;
  wf_where : forall p, p ∈ locations (houses tm) ++ locations (offices tm) ->
    exists i j, p = (Z.of_nat i, Z.of_nat j);
  wf_nodup : NoDup (locations (houses tm) ++ locations (offices tm));
  wf_current_houses : current_houses tm = Z.of_nat (length (houses tm));
  wf_current_offices : current_offices tm = Z.of_nat (length (offices tm));
  wf_buildings :
    locations (buildings tm) ≡ₚ locations (houses tm) ++ locations (offices tm);
}.

Lemma start_wf W H nh no : wf W H (start (W, H) nh no).
Proof.
  split; simpl; try done.
  - apply shaped_zeros.
  - intros i j. split; [by intros ?%tile_zeros|by intros ?%elem_of_nil].
  - intros i j. split; [by intros ?%tile_zeros|by intros ?%elem_of_nil].
  - intros i j v ->%tile_zeros. by left.
  - by intros p ?%elem_of_nil.
  - constructor.
Qed.

Lemma of_nat_pair i j x y :
  0 <= x -> 0 <= y ->
  (Z.of_nat i, Z.of_nat j) = (x, y) <-> j = Z.to_nat y /\ i = Z.to_nat x.
Proof. intros Hx Hy. split; [intros ?; simplify_eq; lia|intros [-> ->]; f_equal; lia]. Qed.

Lemma free_tile W H tm x y :
  wf W H tm -> 0 <= x -> 0 <= y ->
  tile (map tm) (Z.to_nat y) (Z.to_nat x) = Some 0 ->
  (x, y) ∉ locations (houses tm) ++ locations (offices tm).
Proof.
  intros Hwf Hx Hy H0 [Hin|Hin]%elem_of_app.
  - rewrite <- (Z2Nat.id x), <- (Z2Nat.id y) in Hin by done.
    apply (wf_houses _ _ _ Hwf) in Hin. congruence.
  - rewrite <- (Z2Nat.id x), <- (Z2Nat.id y) in Hin by done.
    apply (wf_offices _ _ _ Hwf) in Hin. congruence.
Qed.

Lemma place_house_wf W H tm x y :
  wf W H tm -> 0 <= x -> 0 <= y ->
  tile (map tm) (Z.to_nat y) (Z.to_nat x) = Some 0 ->
  current_houses tm < num_houses tm ->
  wf W H (place tm house x y) /\
  locations (houses (place tm house x y)) = locations (houses tm) ++ [(x, y)] /\
  offices (place tm house x y) = offices tm.
Proof.
  intros Hwf Hx Hy H0 Hroom. pose proof (free_tile W H tm x y Hwf Hx Hy H0) as Hfree.
  unfold place. apply Z.ltb_lt in Hroom. rewrite Hroom.
  split; [|split; [unfold locations; simpl; by rewrite fmap_app|done]].
  destruct Hwf as [Hsize Hshape Hh Ho Ht Hw Hnd Hch Hco Hb].
  split; simpl; unfold locations in *; rewrite ?fmap_app; simpl.
  - done.
  - by apply shaped_set.
  - intros i j. rewrite tile_set, elem_of_app, list_elem_of_singleton, of_nat_pair by done.
    case_decide as Heq.
    + destruct Heq as [-> ->]. rewrite H0. simpl. tauto.
    + rewrite Hh. tauto.
  - intros i j. rewrite tile_set. case_decide as Heq.
    + destruct Heq as [-> ->]. rewrite H0. simpl. split; [done|].
      rewrite <- Ho. congruence.
    + apply Ho.
  - intros i j v. rewrite tile_set. case_decide as Heq; [|apply Ht].
    destruct (tile (map tm) j i); simpl; [|done]. intros ?. simplify_eq. auto.
  - intros p [[Hin| ->%list_elem_of_singleton]%elem_of_app|Hin]%elem_of_app.
    + apply Hw, elem_of_app. by left.
    + exists (Z.to_nat x), (Z.to_nat y). f_equal; lia.
    + apply Hw, elem_of_app. by right.
  - rewrite <- app_assoc. simpl. rewrite <- Permutation_middle.
    by apply NoDup_cons.
  - rewrite length_app. simpl. lia.
  - done.
  - by rewrite Hb, <- !Permutation_cons_append.
Qed.

Lemma place_office_wf W H tm x y :
  wf W H tm -> 0 <= x -> 0 <= y ->
  tile (map tm) (Z.to_nat y) (Z.to_nat x) = Some 0 ->
  current_offices tm < num_offices tm ->
  wf W H (place tm office x y) /\
  locations (offices (place tm office x y)) = locations (offices tm) ++ [(x, y)] /\
  houses (place tm office x y) = houses tm.
Proof.
  intros Hwf Hx Hy H0 Hroom. pose proof (free_tile W H tm x y Hwf Hx Hy H0) as Hfree.
  unfold place. apply Z.ltb_lt in Hroom. rewrite Hroom.
  split; [|split; [unfold locations; simpl; by rewrite fmap_app|done]].
  destruct Hwf as [Hsize Hshape Hh Ho Ht Hw Hnd Hch Hco Hb].
  split; simpl; unfold locations in *; rewrite ?fmap_app; simpl.
  - done.
  - by apply shaped_set.
  - intros i j. rewrite tile_set. case_decide as Heq.
    + destruct Heq as [-> ->]. rewrite H0. simpl. split; [done|].
      rewrite <- Hh. congruence.
    + apply Hh.
  - intros i j. rewrite tile_set, elem_of_app, list_elem_of_singleton, of_nat_pair by done.
    case_decide as Heq.
    + destruct Heq as [-> ->]. rewrite H0. simpl. tauto.
    + rewrite Ho. tauto.
  - intros i j v. rewrite tile_set. case_decide as Heq; [|apply Ht].
    destruct (tile (map tm) j i); simpl; [|done]. intros ?. simplify_eq. auto.
  - intros p [Hin|[Hin| ->%list_elem_of_singleton]%elem_of_app]%elem_of_app.
    + apply Hw, elem_of_app. by left.
    + apply Hw, elem_of_app. by right.
    + exists (Z.to_nat x), (Z.to_nat y). f_equal; lia.
  - rewrite app_assoc. rewrite <- Permutation_cons_append. by apply NoDup_cons.
  - done.
  - rewrite length_app. simpl. lia.
  - rewrite Hb. by rewrite app_assoc.
Qed.

Lemma place_wf W H tm kind x y :
  wf W H tm -> 0 <= x -> 0 <= y ->
  tile (map tm) (Z.to_nat y) (Z.to_nat x) = Some 0 ->
  wf W H (place tm kind x y).
Proof.
  intros Hwf Hx Hy H0. destruct kind.
  - destruct (decide (current_houses tm < num_houses tm)) as [Hroom|Hfull].
    + by apply place_house_wf.
    + unfold place. by rewrite (proj2 (Z.ltb_ge _ _)) by lia.
  - destruct (decide (current_offices tm < num_offices tm)) as [Hroom|Hfull].
    + by apply place_office_wf.
    + unfold place. by rewrite (proj2 (Z.ltb_ge _ _)) by lia.
Qed.

Lemma place_nums tm kind x y :
  num_houses (place tm kind x y) = num_houses tm /\
  num_offices (place tm kind x y) = num_offices tm.
Proof. unfold place. destruct kind; by case_match. Qed.

(** *** The loops *)

(** A placement that ends has found a free tile. *)
Lemma place_building_Done fuel rand kind : forall tm k tm' k',
  place_building fuel rand kind tm k = Done (tm', k') ->
  exists x y, 0 <= x /\ 0 <= y /\
    tile (map tm) (Z.to_nat y) (Z.to_nat x) = Some 0 /\
    tm' = place tm kind x y.
Proof.
  induction fuel as [|fuel IH]; intros tm k tm' k' Hrun; simpl in Hrun; [done|].
  unfold randrange in Hrun.
  destruct ((size tm).1 <=? 0) eqn:HW; [done|]. simpl in Hrun.
  destruct ((size tm).2 <=? 0) eqn:HH; [done|]. simpl in Hrun.
  apply Z.leb_gt in HW, HH. rewrite get_tile in Hrun.
  destruct (tile (map tm) _ _) as [v|] eqn:Hv; [|done]. simpl in Hrun.
  destruct (v =? 0) eqn:Hz; [|by eapply IH].
  apply Z.eqb_eq in Hz. simplify_eq.
  pose proof (Z.mod_pos_bound (rand k) (size tm).1 HW).
  pose proof (Z.mod_pos_bound (rand (S k)) (size tm).2 HH).
  eexists _, _. split_and!; [| |exact Hv|done]; lia.
Qed.

Lemma place_buildings_house W H fuel rand n : forall tm k tm' k',
  wf W H tm -> (n <> 0%nat -> current_houses tm + Z.of_nat n <= num_houses tm) ->
  place_buildings fuel rand house n tm k = Done (tm', k') ->
  wf W H tm' /\ length (houses tm') = (length (houses tm) + n)%nat /\
  offices tm' = offices tm /\
  num_houses tm' = num_houses tm /\ num_offices tm' = num_offices tm.
Proof.
  induction n as [|n IH]; intros tm k tm' k' Hwf Hroom Hrun; simpl in Hrun.
  - simplify_eq. by rewrite Nat.add_0_r.
  - destruct (place_building fuel rand house tm k) as [[tm1 k1]| | |] eqn:H1; try done.
    simpl in Hrun.
    apply place_building_Done in H1 as (x & y & Hx & Hy & H0 & ->).
    specialize (Hroom ltac:(done)).
    destruct (place_house_wf W H tm x y) as (Hwf1 & Hh1 & Ho1); [done..|lia|].
    destruct (place_nums tm house x y) as [Hn1 Hn2].
    pose proof (f_equal length Hh1) as Hl. unfold locations in Hl.
    rewrite length_app, !length_fmap in Hl. cbn [length] in Hl.
    assert (n <> 0%nat -> current_houses (place tm house x y) + Z.of_nat n
            <= num_houses (place tm house x y)) as Hroom1.
    { intros _. rewrite Hn1, (wf_current_houses _ _ _ Hwf1).
      rewrite (wf_current_houses _ _ _ Hwf) in Hroom. lia. }
    destruct (IH _ _ _ _ Hwf1 Hroom1 Hrun) as (? & Hlen & Hoff & ? & ?).
    split_and!; [done|lia|congruence..].
Qed.

Lemma place_buildings_office W H fuel rand n : forall tm k tm' k',
  wf W H tm -> (n <> 0%nat -> current_offices tm + Z.of_nat n <= num_offices tm) ->
  place_buildings fuel rand office n tm k = Done (tm', k') ->
  wf W H tm' /\ length (offices tm') = (length (offices tm) + n)%nat /\
  houses tm' = houses tm /\
  num_houses tm' = num_houses tm /\ num_offices tm' = num_offices tm.
Proof.
  induction n as [|n IH]; intros tm k tm' k' Hwf Hroom Hrun; simpl in Hrun.
  - simplify_eq. by rewrite Nat.add_0_r.
  - destruct (place_building fuel rand office tm k) as [[tm1 k1]| | |] eqn:H1; try done.
    simpl in Hrun.
    apply place_building_Done in H1 as (x & y & Hx & Hy & H0 & ->).
    specialize (Hroom ltac:(done)).
    destruct (place_office_wf W H tm x y) as (Hwf1 & Ho1 & Hh1); [done..|lia|].
    destruct (place_nums tm office x y) as [Hn1 Hn2].
    pose proof (f_equal length Ho1) as Hl. unfold locations in Hl.
    rewrite length_app, !length_fmap in Hl. cbn [length] in Hl.
    assert (n <> 0%nat -> current_offices (place tm office x y) + Z.of_nat n
            <= num_offices (place tm office x y)) as Hroom1.
    { intros _. rewrite Hn2, (wf_current_offices _ _ _ Hwf1).
      rewrite (wf_current_offices _ _ _ Hwf) in Hroom. lia. }
    destruct (IH _ _ _ _ Hwf1 Hroom1 Hrun) as (? & Hlen & Hhs & ? & ?).
    split_and!; [done|lia|congruence..].
Qed.

Lemma length_indices rows columns :
  length (indices rows columns) = (rows * columns)%nat.
Proof.
  unfold indices.
  assert (forall l : list nat,
            length (l ≫= fun i => (fun j => (i, j)) <$> seq 0 columns)
            = (length l * columns)%nat) as Hlen.
  { induction l as [|i l IH]; [done|].
    rewrite bind_cons, length_app, IH, length_fmap, length_seq. simpl. lia. }
  by rewrite Hlen, length_seq.
Qed.

(** The buildings of a tilemap are no more than its tiles. *)
Lemma wf_room W H tm :
  wf W H tm ->
  (length (houses tm) + length (offices tm) <= Z.to_nat W * Z.to_nat H)%nat.
Proof.
  intros Hwf.
  assert (locations (houses tm) ++ locations (offices tm)
          ⊆+ (fun ij : nat * nat => (Z.of_nat ij.2, Z.of_nat ij.1))
               <$> indices (Z.to_nat W) (Z.to_nat H)) as Hsub.
  { apply NoDup_submseteq; [apply Hwf|]. intros p Hp.
    destruct (wf_where _ _ _ Hwf p Hp) as (i & j & ->).
    apply list_elem_of_fmap. exists (j, i). split; [done|].
    apply elem_of_indices. simpl. apply (tile_is_Some W H (map tm)); [apply Hwf|].
    apply elem_of_app in Hp as [Hp|Hp].
    - apply (wf_houses _ _ _ Hwf) in Hp. by eexists.
    - apply (wf_offices _ _ _ Hwf) in Hp. by eexists. }
  apply submseteq_length in Hsub.
  rewrite length_app, length_fmap, length_indices in Hsub.
  unfold locations in Hsub. by rewrite !length_fmap in Hsub.
Qed.

Lemma wf_site W H tm p :
  wf W H tm ->
  site (map tm) p <-> p ∈ locations (houses tm) ++ locations (offices tm).
Proof.
  intros Hwf. rewrite elem_of_app. split.
  - intros (j & i & -> & v & Hv & Hnz). simpl in Hv.
    destruct (wf_tiles _ _ _ Hwf _ _ _ Hv) as [->|[-> | ->]]; [done|left|right].
    + by apply (wf_houses _ _ _ Hwf).
    + by apply (wf_offices _ _ _ Hwf).
  - intros Hp.
    destruct (wf_where _ _ _ Hwf p) as (i & j & ->); [by apply elem_of_app|].
    exists j, i. split; [done|]. destruct Hp as [Hp|Hp].
    + apply (wf_houses _ _ _ Hwf) in Hp. by exists 1.
    + apply (wf_offices _ _ _ Hwf) in Hp. by exists 2.
Qed.

(** When [render] has placed the buildings there are [num_houses] houses
    and [num_offices] offices, all on tiles of their own; a tile of the
    map is 1 where a house is and 2 where an office is, and the other
    tiles are 0; the list of all buildings has the houses and the
    offices; and the buildings are no more than the tiles. *)
Theorem render_places W H nh no fuel rand k tm k' :
  render fuel rand (start (W, H) nh no) k = Done (tm, k') ->
  length (houses tm) = Z.to_nat nh /\
  length (offices tm) = Z.to_nat no /\
  NoDup (locations (houses tm) ++ locations (offices tm)) /\
  locations (buildings tm) ≡ₚ locations (houses tm) ++ locations (offices tm) /\
  (forall i j, tile (map tm) j i = Some 1
               <-> (Z.of_nat i, Z.of_nat j) ∈ locations (houses tm)) /\
  (forall i j, tile (map tm) j i = Some 2
               <-> (Z.of_nat i, Z.of_nat j) ∈ locations (offices tm)) /\
  (forall p, site (map tm) p
             <-> p ∈ locations (houses tm) ++ locations (offices tm)) /\
  rectangular (map tm) /\
  (Z.to_nat nh + Z.to_nat no <= Z.to_nat W * Z.to_nat H)%nat.
Proof.
  unfold render. intros Hrun.
  destruct (place_buildings fuel rand house _ _ _) as [[tm1 k1]| | |] eqn:H1; try done.
  simpl in Hrun.
  assert (Z.to_nat nh <> 0%nat ->
          current_houses (start (W, H) nh no) + Z.of_nat (Z.to_nat nh)
          <= num_houses (start (W, H) nh no)) as Hroom0 by (simpl; lia).
  destruct (place_buildings_house W H _ _ _ _ _ _ _ (start_wf W H nh no) Hroom0 H1)
    as (Hwf1 & Hlen1 & Hoff1 & Hn1 & Hn2).
  simpl in *.
  assert (Z.to_nat (num_offices tm1) <> 0%nat ->
          current_offices tm1 + Z.of_nat (Z.to_nat (num_offices tm1))
          <= num_offices tm1) as Hroom1.
  { rewrite (wf_current_offices _ _ _ Hwf1), Hoff1, Hn2. simpl. lia. }
  destruct (place_buildings_office W H _ _ _ _ _ _ _ Hwf1 Hroom1 Hrun)
    as (Hwf & Hlen & Hhs & _ & _).
  rewrite Hoff1, Hn2 in Hlen. simpl in Hlen.
  pose proof (wf_room W H tm Hwf) as Hroom.
  split_and!.
  - by rewrite Hhs.
  - done.
  - apply Hwf.
  - apply Hwf.
  - apply Hwf.
  - apply Hwf.
  - intros p. by apply (wf_site W H).
  - eapply shaped_rectangular, Hwf.
  - rewrite Hhs, Hlen1, Hlen in Hroom. done.
Qed.

Lemma render_places_witness :
  let tm := (place (place (start (2, 2) 1 1) house 1 0) office 0 1) in
  length (houses tm) = Z.to_nat 1 /\
  length (offices tm) = Z.to_nat 1 /\
  NoDup (locations (houses tm) ++ locations (offices tm)) /\
  locations (buildings tm) ≡ₚ locations (houses tm) ++ locations (offices tm) /\
  (forall i j, tile (map tm) j i = Some 1
               <-> (Z.of_nat i, Z.of_nat j) ∈ locations (houses tm)) /\
  (forall i j, tile (map tm) j i = Some 2
               <-> (Z.of_nat i, Z.of_nat j) ∈ locations (offices tm)) /\
  (forall p, site (map tm) p
             <-> p ∈ locations (houses tm) ++ locations (offices tm)) /\
  rectangular (map tm) /\
  (Z.to_nat 1 + Z.to_nat 1 <= Z.to_nat 2 * Z.to_nat 2)%nat.
Proof.
  apply (render_places 2 2 1 1 3 (fun n => nth n [1; 0; 0; 1] 0) 0%nat
           (place (place (start (2, 2) 1 1) house 1 0) office 0 1) 4%nat).
  vm_compute. reflexivity.
Defined.

(** *** Indices out of range *)

(** The first placement on the map of [__init__]. *)
Lemma place_building_first W H nh no rand k fuel kind :
  place_building (S fuel) rand kind (start (W, H) nh no) k =
    if decide (W <= 0 \/ H <= 0) then ValueError
    else if decide (W <= rand (S k) mod H \/ H <= rand k mod W) then IndexError
    else Done (place (start (W, H) nh no) kind (rand k mod W) (rand (S k) mod H),
               S (S k)).
Proof.
  simpl. unfold randrange.
  destruct (W <=? 0) eqn:HW; [apply Z.leb_le in HW|apply Z.leb_gt in HW].
  { rewrite decide_True by auto. done. }
  simpl. destruct (H <=? 0) eqn:HH; [apply Z.leb_le in HH|apply Z.leb_gt in HH].
  { rewrite decide_True by auto. done. }
  simpl. rewrite decide_False by lia. rewrite get_tile.
  pose proof (Z.mod_pos_bound (rand k) W HW).
  pose proof (Z.mod_pos_bound (rand (S k)) H HH).
  pose proof (tile_is_Some W H (zeros (W, H)) (Z.to_nat (rand (S k) mod H))
                (Z.to_nat (rand k mod W)) (shaped_zeros W H)) as Hsome.
  destruct (tile (zeros (W, H)) _ _) as [v|] eqn:Hv.
  - apply tile_zeros in Hv as ->. simpl.
    rewrite decide_False; [done|].
    destruct Hsome as [Hsome _]. destruct Hsome; [by eexists|]. lia.
  - rewrite decide_True; [done|].
    destruct (decide (W <= rand (S k) mod H \/ H <= rand k mod W)); [done|].
    destruct Hsome as [_ Hsome]. destruct Hsome as [? ?]; [lia|done].
Qed.

Lemma place_building_wf W H fuel rand kind tm k tm' k' :
  wf W H tm -> place_building fuel rand kind tm k = Done (tm', k') -> wf W H tm'.
Proof.
  intros Hwf (x & y & Hx & Hy & H0 & ->)%place_building_Done. by apply place_wf.
Qed.

Lemma place_buildings_wf W H fuel rand kind n : forall tm k tm' k',
  wf W H tm -> place_buildings fuel rand kind n tm k = Done (tm', k') -> wf W H tm'.
Proof.
  induction n as [|n IH]; intros tm k tm' k' Hwf Hrun; simpl in Hrun.
  - by simplify_eq.
  - destruct (place_building fuel rand kind tm k) as [[tm1 k1]| | |] eqn:H1; try done.
    simpl in Hrun. eapply IH; [|done]. by eapply place_building_wf.
Qed.

(** On a square map every tile drawn is in the array. *)
Lemma place_building_square W fuel rand kind : forall tm k,
  wf W W tm -> place_building fuel rand kind tm k <> IndexError.
Proof.
  induction fuel as [|fuel IH]; intros tm k Hwf; simpl; [done|].
  rewrite (wf_size _ _ _ Hwf). simpl. unfold randrange.
  destruct (W <=? 0) eqn:HW; [done|]. apply Z.leb_gt in HW. simpl.
  rewrite get_tile.
  pose proof (Z.mod_pos_bound (rand k) W HW).
  pose proof (Z.mod_pos_bound (rand (S k)) W HW).
  destruct (proj2 (tile_is_Some W W (map tm) (Z.to_nat (rand (S k) mod W))
                     (Z.to_nat (rand k mod W)) (wf_shape _ _ _ Hwf)))
    as [v ->]; [lia|].
  simpl. destruct (v =? 0); [done|]. by apply IH.
Qed.

Lemma place_buildings_square W fuel rand kind n : forall tm k,
  wf W W tm -> place_buildings fuel rand kind n tm k <> IndexError.
Proof.
  induction n as [|n IH]; intros tm k Hwf; simpl; [done|].
  pose proof (place_building_square W fuel rand kind tm k Hwf) as Hne.
  destruct (place_building fuel rand kind tm k) as [[tm1 k1]| | |] eqn:H1; try done.
  simpl. apply IH. by eapply place_building_wf.
Qed.

(** [__init__] makes an array of [size[0]] rows and [size[1]] columns,
    and [__place_building] takes the row from [range(size[1])] and the
    column from [range(size[0])].  So on a map with as many rows as
    columns [render] never raises an [IndexError]; on any other map (of
    at least one row and one column, and for at least one house) it
    raises it as soon as the first tile drawn has a row or a column that
    the array does not have, and there are such draws. *)
Theorem render_index_error W H nh no :
  0 < W -> 0 < H -> 0 < nh ->
  (W = H ->
   forall fuel rand k, render fuel rand (start (W, H) nh no) k <> IndexError) /\
  (forall fuel rand k,
     W <= rand (S k) mod H \/ H <= rand k mod W ->
     render (S fuel) rand (start (W, H) nh no) k = IndexError) /\
  (W <> H -> exists r0 r1, W <= r1 mod H \/ H <= r0 mod W).
Proof.
  intros HW HH Hnh. split_and!.
  - intros <- fuel rand k. unfold render.
    pose proof (place_buildings_square W fuel rand house (Z.to_nat nh)
                  (start (W, W) nh no) k (start_wf W W nh no)) as Hne.
    destruct (place_buildings fuel rand house _ _ _) as [[tm1 k1]| | |] eqn:H1;
      try done.
    simpl. apply (place_buildings_square W).
    eapply place_buildings_wf; [apply (start_wf W W nh no)|exact H1].
  - intros fuel rand k Hout. unfold render.
    destruct (Z.to_nat nh) as [|n] eqn:Hn; [lia|].
    simpl num_houses. rewrite Hn.
    cbn [place_buildings]. rewrite place_building_first.
    rewrite decide_False by lia. by rewrite decide_True.
  - intros Hne. exists H, W.
    destruct (decide (H < W)).
    + right. rewrite Z.mod_small by lia. lia.
    + left. rewrite Z.mod_small by lia. lia.
Qed.

Lemma render_index_error_witness :
  (8 = 6 ->
   forall fuel rand k, render fuel rand (start (8, 6) 3 2) k <> IndexError) /\
  (forall fuel rand k,
     8 <= rand (S k) mod 6 \/ 6 <= rand k mod 8 ->
     render (S fuel) rand (start (8, 6) 3 2) k = IndexError) /\
  (8 <> 6 -> exists r0 r1, 8 <= r1 mod 6 \/ 6 <= r0 mod 8).
Proof. apply (render_index_error 8 6 3 2); lia. Defined.

End TilemapFacts.

(** ** From the tilemap to the routes *)

Module TownFacts.
Import PriorityQueue Dijkstra DijkstraFacts.
Import CreateGraph CreateGraphFacts Roads RoadsFacts RouteFacts OrderedDictFacts.
Import Tilemap TilemapFacts.

(** The display of 800 by 600 pixels with buildings of 100 by 100 has 8
    by 6 tiles. *)
Lemma init_display : init 800 600 100 100 3 2 = Some (start (8, 6) 3 2).
Proof. vm_compute. reflexivity. Qed.

Lemma render_wf W H nh no fuel rand k tm k' :
  render fuel rand (start (W, H) nh no) k = Done (tm, k') -> wf W H tm.
Proof.
  unfold render. intros Hrun.
  destruct (place_buildings fuel rand house _ _ _) as [[tm1 k1]| | |] eqn:H1; try done.
  simpl in Hrun. eapply place_buildings_wf; [|exact Hrun].
  eapply place_buildings_wf; [apply start_wf|exact H1].
Qed.

(** On a square tilemap of at most 217 by 217 tiles on which [render] has
    placed the buildings, the roads that [get_mst] makes for the map,
    with or without the additional roads, give every house a route to
    every office: [compute], on a [Dijkstra] object for these roads,
    fresh or re-used, returns a path from the house to the office along
    roads, with a finite weight that is the least of all such paths. *)
Theorem commute_routes W nh no fuel rand k tm k' additional_roads :
  0 < W <= 217 ->
  render fuel rand (start (W, W) nh no) k = Done (tm, k') ->
  exists depth rds,
    (forall fuel, (depth <= fuel)%nat ->
       get_mst fuel (map tm) additional_roads = Some rds) /\
    forall st home office,
      queue st = [] ->
      home ∈ locations (houses tm) -> office ∈ locations (offices tm) ->
      exists rounds, forall fuel, (rounds <= fuel)%nat ->
      exists path d st',
        compute fuel (road_graph rds) st home office = Some (path, Fin d, st') /\
        queue st' = [] /\
        path_from_to (road_graph rds) home office path d /\
        (forall l c, path_from_to (road_graph rds) home office l c -> d <= c).
Proof.
  intros HW Hwf%render_wf.
  pose proof (wf_shape _ _ _ Hwf) as [Hrows Hcols].
  destruct (get_mst_roads (map tm) additional_roads)
    as (depth & rds & Hrun & Hnd & Hroads & Hjoin).
  - intros Hnil. rewrite Hnil in Hrows. simpl in Hrows. lia.
  - by eapply shaped_rectangular, Hwf.
  - split; [lia|]. intros row Hrow. rewrite Forall_forall in Hcols.
    rewrite (Hcols row Hrow). lia.
  - exists depth, rds. split; [done|]. intros st home office Hq Hh Ho.
    apply roads_route; [done| |done|].
    + intros u v w Hin. destruct (Hroads u v w Hin) as (_ & _ & _ & ? & ?). done.
    + apply Hjoin; apply (wf_site W W tm); [done| |done|]; apply elem_of_app; auto.
Qed.

Lemma commute_routes_witness :
  let tm := place (place (start (2, 2) 1 1) house 1 0) office 0 1 in
  exists depth rds,
    (forall fuel, (depth <= fuel)%nat -> get_mst fuel (map tm) true = Some rds) /\
    forall st home office,
      queue st = [] ->
      home ∈ locations (houses tm) -> office ∈ locations (offices tm) ->
      exists rounds, forall fuel, (rounds <= fuel)%nat ->
      exists path d st',
        compute fuel (road_graph rds) st home office = Some (path, Fin d, st') /\
        queue st' = [] /\
        path_from_to (road_graph rds) home office path d /\
        (forall l c, path_from_to (road_graph rds) home office l c -> d <= c).
Proof.
  apply (commute_routes 2 1 1 3 (fun n => nth n [1; 0; 0; 1] 0) 0%nat
           (place (place (start (2, 2) 1 1) house 1 0) office 0 1) 4%nat true).
  - lia.
  - vm_compute. reflexivity.
Defined.

End TownFacts.

(** ** Homes and offices of the people *)

Module InitialisePeopleFacts.
Import Population InitialisePeople KruskalFacts.

(** The number of times [x] is in [l]. *)
Definition occurrences (x : node) (l : list node) : nat :=
  length (filter (fun y => y = x) l).

Lemma occurrences_cons x y l :
  occurrences x (y :: l) = ((if decide (y = x) then 1 else 0) + occurrences x l)%nat.
Proof. unfold occurrences. rewrite filter_cons. by case_decide. Qed.

Lemma occurrences_app x l1 l2 :
  occurrences x (l1 ++ l2) = (occurrences x l1 + occurrences x l2)%nat.
Proof. unfold occurrences. by rewrite filter_app, length_app. Qed.

Lemma occurrences_replicate x y n :
  occurrences x (replicate n y) = if decide (y = x) then n else 0%nat.
Proof.
  induction n as [|n IH]; simpl; [by case_decide|].
  rewrite occurrences_cons, IH. by case_decide.
Qed.

Lemma occurrences_perm x l l' : l ≡ₚ l' -> occurrences x l = occurrences x l'.
Proof. intros Hp. unfold occurrences. by rewrite Hp. Qed.

Lemma occurrences_pos x l : x ∈ l <-> (0 < occurrences x l)%nat.
Proof.
  induction l as [|y l IH].
  - rewrite elem_of_nil. unfold occurrences. simpl. lia.
  - rewrite occurrences_cons, elem_of_cons, IH. case_decide; split; try lia; auto.
    intros [?|?]; [congruence|done].
Qed.

(** *** The people of each office *)

(** The loop of [__calculate_people_dist_in_offices], from the round
    [k] on. *)
Lemma dist_loop (n : nat) (q : Z) (m : nat) : forall k : nat,
  (k + m <= n)%nat ->
  for_each (fun distribution i =>
              x ← distribution !! i; Some (<[i := x + 1]> distribution))
           (replicate k (q + 1) ++ replicate (n - k) q) (seq k m)
  = Some (replicate (k + m) (q + 1) ++ replicate (n - (k + m)) q).
Proof.
  induction m as [|m IH]; intros k Hk; simpl.
  - by rewrite Nat.add_0_r.
  - rewrite lookup_app_r by (rewrite length_replicate; lia).
    rewrite length_replicate, Nat.sub_diag.
    destruct (n - k)%nat as [|d] eqn:Hd; [lia|]. simpl.
    rewrite insert_app_r_alt by (rewrite length_replicate; lia).
    rewrite length_replicate, Nat.sub_diag. simpl.
    replace (replicate k (q + 1) ++ (q + 1) :: replicate d q)
      with (replicate (S k) (q + 1) ++ replicate (n - S k) q).
    + rewrite IH by lia. do 3 f_equal; lia.
    + replace (n - S k)%nat with d by lia.
      rewrite replicate_S_end, <- app_assoc. done.
Qed.

Lemma calculate_people_dist_in_offices_spec num_people num_offices :
  0 < num_offices ->
  calculate_people_dist_in_offices num_people num_offices =
    Some (replicate (Z.to_nat (num_people `mod` num_offices))
                    (num_people `div` num_offices + 1)
          ++ replicate (Z.to_nat num_offices - Z.to_nat (num_people `mod` num_offices))
                       (num_people `div` num_offices)).
Proof.
  intros Hn. unfold calculate_people_dist_in_offices.
  rewrite decide_False by lia.
  pose proof (Z.mod_pos_bound num_people num_offices Hn).
  pose proof (dist_loop (Z.to_nat num_offices) (num_people `div` num_offices)
                (Z.to_nat (num_people `mod` num_offices)) 0 ltac:(lia)) as Hloop.
  simpl in Hloop. rewrite Nat.sub_0_r in Hloop. exact Hloop.
Qed.

(** The people of the office at place [i] of [n]: the share of everybody,
    and one more for the first offices as long as people are left. *)
Definition allocation (num_people : Z) (n : nat) (i : nat) : Z :=
  num_people `div` Z.of_nat n
  + (if decide (Z.of_nat i < num_people `mod` Z.of_nat n) then 1 else 0).

Lemma dist_lookup (num_people : Z) (n i : nat) :
  (i < n)%nat ->
  (replicate (Z.to_nat (num_people `mod` Z.of_nat n))
             (num_people `div` Z.of_nat n + 1)
   ++ replicate (n - Z.to_nat (num_people `mod` Z.of_nat n))
                (num_people `div` Z.of_nat n)) !! i
  = Some (allocation num_people n i).
Proof.
  intros Hi. unfold allocation.
  pose proof (Z.mod_pos_bound num_people (Z.of_nat n) ltac:(lia)).
  case_decide.
  - rewrite lookup_app_l by (rewrite length_replicate; lia).
    apply lookup_replicate. split; [done|lia].
  - rewrite lookup_app_r by (rewrite length_replicate; lia).
    rewrite Z.add_0_r. apply lookup_replicate. split; [done|].
    rewrite length_replicate. lia.
Qed.

Lemma sum_list_append (l1 l2 : list nat) :
  sum_list (l1 ++ l2) = (sum_list l1 + sum_list l2)%nat.
Proof. induction l1 as [|x l1 IH]; simpl; [done|]. rewrite IH. lia. Qed.

(** The locations of the offices, each as often as its count says. *)
Definition spread (cs : list Z) (offices : list building) : list node :=
  mjoin (zip_with (fun c office => replicate (Z.to_nat c) (location office))
                  cs offices).

Lemma office_run (cs : list Z) (offices : list building) :
  length cs = length offices ->
  mapM (fun item : nat * Z =>
          office ← offices !! item.1;
          Some (replicate (Z.to_nat item.2) (location office)))
       (imap pair cs)
  = Some (zip_with (fun c office => replicate (Z.to_nat c) (location office))
                   cs offices).
Proof.
  intros Hlen. apply mapM_Some_2, Forall2_same_length_lookup_2.
  - rewrite length_imap, length_zip_with_l_eq; done.
  - intros i [j c] locs Hitem Hlocs.
    apply list_lookup_imap_Some in Hitem as (c' & Hc & Heq). simplify_eq/=.
    apply lookup_zip_with_Some in Hlocs as (c'' & office & -> & Hc' & Ho).
    rewrite Ho. simpl. congruence.
Qed.

Lemma length_spread cs offices :
  length cs = length offices ->
  length (spread cs offices) = sum_list (Z.to_nat <$> cs).
Proof.
  unfold spread. revert offices.
  induction cs as [|c cs IH]; intros [|o offices] Hlen; simplify_eq/=; [done|].
  rewrite length_app, length_replicate, IH by done. done.
Qed.

Lemma elem_of_spread cs offices x :
  x ∈ spread cs offices -> x ∈ location <$> offices.
Proof.
  unfold spread. revert offices.
  induction cs as [|c cs IH]; intros [|o offices]; simpl;
    try (by intros ?%elem_of_nil).
  intros [Hx|Hx]%elem_of_app.
  - apply elem_of_replicate in Hx as [-> _]. by left.
  - right. by apply IH.
Qed.

Lemma occurrences_spread_other cs offices x :
  x ∉ location <$> offices -> occurrences x (spread cs offices) = 0%nat.
Proof.
  intros Hx. destruct (decide (0 < occurrences x (spread cs offices))%nat) as [Hpos|];
    [|lia].
  apply occurrences_pos, elem_of_spread in Hpos. done.
Qed.

Lemma occurrences_spread cs offices i c o :
  NoDup (location <$> offices) -> cs !! i = Some c -> offices !! i = Some o ->
  occurrences (location o) (spread cs offices) = Z.to_nat c.
Proof.
  revert offices i.
  induction cs as [|c0 cs IH]; intros [|o0 offices] i Hnd Hc Ho; simplify_eq/=.
  apply NoDup_cons in Hnd as [Hfresh Hnd]. unfold spread. simpl.
  rewrite occurrences_app, occurrences_replicate.
  fold (spread cs offices). destruct i as [|i]; simplify_eq/=.
  - rewrite decide_True by done. by rewrite occurrences_spread_other, Nat.add_0_r.
  - rewrite decide_False.
    + by rewrite (IH offices i).
    + intros Heq. apply Hfresh. rewrite Heq. apply list_elem_of_fmap.
      exists o. split; [done|]. by eapply list_elem_of_lookup_2.
Qed.

Lemma calculate_office_location_dist_spec offices num_people :
  offices <> [] ->
  calculate_office_location_dist offices num_people =
    Some (spread (replicate (Z.to_nat (num_people `mod` Z.of_nat (length offices)))
                            (num_people `div` Z.of_nat (length offices) + 1)
                  ++ replicate (length offices
                                - Z.to_nat (num_people `mod` Z.of_nat (length offices)))
                               (num_people `div` Z.of_nat (length offices)))
                 offices).
Proof.
  intros Hne. unfold calculate_office_location_dist.
  assert (0 < length offices)%nat as Hn by (destruct offices; [done|simpl; lia]).
  rewrite calculate_people_dist_in_offices_spec by lia. simpl.
  rewrite Nat2Z.id.
  pose proof (Z.mod_pos_bound num_people (Z.of_nat (length offices)) ltac:(lia)).
  rewrite office_run; [done|].
  rewrite length_app, !length_replicate. lia.
Qed.

(** With at least one office, [__calculate_office_location_dist] lists
    an office for every person, and nothing but offices; of offices at
    different locations, each has the share of everybody, [num_people //
    num_offices], and the first [num_people % num_offices] have one
    person more.  Without an office it raises. *)
Theorem office_allocation offices num_people :
  offices <> [] -> 0 <= num_people ->
  exists dist,
    calculate_office_location_dist offices num_people = Some dist /\
    length dist = Z.to_nat num_people /\
    (forall x, x ∈ dist -> x ∈ location <$> offices) /\
    (NoDup (location <$> offices) ->
     forall i o, offices !! i = Some o ->
       Z.of_nat (occurrences (location o) dist)
       = num_people `div` Z.of_nat (length offices)
         + (if decide (Z.of_nat i < num_people `mod` Z.of_nat (length offices))
            then 1 else 0)) /\
    calculate_office_location_dist [] num_people = None.
Proof.
  intros Hne Hpos. rewrite calculate_office_location_dist_spec by done.
  assert (0 < length offices)%nat as Hn by (destruct offices; [done|simpl; lia]).
  set (n := length offices) in *.
  pose proof (Z.mod_pos_bound num_people (Z.of_nat n) ltac:(lia)) as Hr.
  pose proof (Z.div_pos num_people (Z.of_nat n) Hpos ltac:(lia)) as Hq.
  pose proof (Z.div_mod num_people (Z.of_nat n) ltac:(lia)) as Hdm.
  eexists. split_and!; [done| | | |done].
  - rewrite length_spread by (rewrite length_app, !length_replicate; lia).
    rewrite fmap_app, !fmap_replicate, sum_list_append, !sum_list_replicate. nia.
  - intros x. apply elem_of_spread.
  - intros Hnd i o Ho.
    assert (i < n)%nat as Hi by (by eapply lookup_lt_Some).
    rewrite (occurrences_spread _ offices i _ o Hnd (dist_lookup num_people n i Hi) Ho).
    unfold allocation. case_decide; lia.
Qed.

(** Three offices. *)
Definition three_offices : list building :=
  [Building (0, 0) []; Building (2, 1) []; Building (4, 4) []].

Lemma office_allocation_witness :
  exists dist,
    calculate_office_location_dist three_offices 8 = Some dist /\
    length dist = Z.to_nat 8 /\
    (forall x, x ∈ dist -> x ∈ location <$> three_offices) /\
    (NoDup (location <$> three_offices) ->
     forall i o, three_offices !! i = Some o ->
       Z.of_nat (occurrences (location o) dist)
       = 8 `div` Z.of_nat (length three_offices)
         + (if decide (Z.of_nat i < 8 `mod` Z.of_nat (length three_offices))
            then 1 else 0)) /\
    calculate_office_location_dist [] 8 = None.
Proof. apply (office_allocation three_offices 8); [done|lia]. Defined.

(** *** The dictionary of the counts *)

(** The dictionary [d] holds the counts [f] that are not 0. *)
Definition counts_to (d : gmap node Z) (f : node -> nat) : Prop :=
  forall k, d !! k = if decide (f k = 0%nat) then None else Some (Z.of_nat (f k)).

Lemma convert_loop l : forall d f,
  counts_to d f ->
  counts_to (foldl (fun dictionary key =>
                      match dictionary !! key with
                      | Some c => <[key := c + 1]> dictionary
                      | None => <[key := 1]> dictionary
                      end) d l)
            (fun k => (f k + occurrences k l)%nat).
Proof.
  induction l as [|key l IH]; intros d f Hd; simpl.
  - intros k. unfold occurrences. simpl. rewrite Nat.add_0_r. apply Hd.
  - set (d' := match d !! key with
                | Some c => <[key := c + 1]> d
                | None => <[key := 1]> d
                end).
    assert (counts_to d' (fun k => (f k + (if decide (key = k) then 1 else 0))%nat))
      as Hd'.
    { intros k. unfold d'. pose proof (Hd key) as Hkey. pose proof (Hd k) as Hk.
      destruct (decide (key = k)) as [->|Hne].
      - destruct (decide (f k = 0%nat)) as [H0|H0]; rewrite Hkey.
        + rewrite lookup_insert_eq, decide_False by lia. f_equal. lia.
        + rewrite lookup_insert_eq, decide_False by lia. f_equal. lia.
      - rewrite Nat.add_0_r.
        destruct (d !! key); by rewrite lookup_insert_ne. }
    intros k. rewrite occurrences_cons, Nat.add_assoc. apply (IH d' _ Hd' k).
Qed.

Lemma convert_list_to_dict_lookup l key :
  convert_list_to_dict l !! key =
    if decide (key ∈ l) then Some (Z.of_nat (occurrences key l)) else None.
Proof.
  pose proof (convert_loop l ∅ (fun _ => 0%nat)) as Hl.
  unfold convert_list_to_dict.
  rewrite (Hl ltac:(by intros k; rewrite lookup_empty) key). simpl.
  pose proof (occurrences_pos key l).
  destruct (decide (occurrences key l = 0%nat)) as [H0|H0].
  - rewrite decide_False; [done|]. rewrite H. lia.
  - rewrite decide_True; [done|]. rewrite H. lia.
Qed.

(** When [__calculate_office_location_dist] has listed the offices,
    however the list is shuffled, every person finds an office in it at
    the place of its id, and the dictionary of [__convert_list_to_dict]
    has for that office the number of people the list gives it, which is
    at least 1; the dictionary does not depend on the shuffle. *)
Theorem office_lookups offices num_people dist shuffled person_id :
  calculate_office_location_dist offices num_people = Some dist ->
  shuffled ≡ₚ dist -> (person_id < length dist)%nat ->
  exists office_location,
    calculate_office_location person_id shuffled = Some office_location /\
    office_location ∈ location <$> offices /\
    convert_list_to_dict shuffled !! office_location
      = Some (Z.of_nat (occurrences office_location dist)) /\
    (0 < occurrences office_location dist)%nat /\
    convert_list_to_dict shuffled = convert_list_to_dict dist.
Proof.
  intros Hdist Hperm Hid.
  destruct offices as [|o offices]; [done|].
  rewrite calculate_office_location_dist_spec in Hdist by done.
  destruct (lookup_lt_is_Some_2 shuffled person_id) as [x Hx].
  { by rewrite (Permutation_length Hperm). }
  assert (x ∈ dist) as Hin.
  { rewrite <- Hperm. by eapply list_elem_of_lookup_2. }
  exists x. split_and!.
  - done.
  - simplify_eq. by eapply elem_of_spread.
  - rewrite convert_list_to_dict_lookup, decide_True by (by rewrite Hperm).
    by rewrite (occurrences_perm _ _ _ Hperm).
  - by apply occurrences_pos.
  - apply map_eq. intros k. rewrite !convert_list_to_dict_lookup.
    rewrite (occurrences_perm _ _ _ Hperm).
    destruct (decide (k ∈ shuffled)) as [Hk|Hk]; rewrite Hperm in Hk.
    + by rewrite decide_True.
    + by rewrite decide_False.
Qed.

Definition eight_desks : list node :=
  default [] (calculate_office_location_dist three_offices 8).

Lemma office_lookups_witness :
  exists office_location,
    calculate_office_location 5 (reverse eight_desks) = Some office_location /\
    office_location ∈ location <$> three_offices /\
    convert_list_to_dict (reverse eight_desks) !! office_location
      = Some (Z.of_nat (occurrences office_location eight_desks)) /\
    (0 < occurrences office_location eight_desks)%nat /\
    convert_list_to_dict (reverse eight_desks) = convert_list_to_dict eight_desks.
Proof.
  apply (office_lookups three_offices 8 eight_desks (reverse eight_desks) 5).
  - vm_compute. reflexivity.
  - apply reverse_Permutation.
  - vm_compute. lia.
Defined.

(** *** The people of each house *)

Lemma count_between (a b N : nat) :
  length (filter (fun p => a <= p < b)%nat (seq 0 N)) = (Nat.min b N - Nat.min a N)%nat.
Proof.
  induction N as [|N IH]; [simpl; lia|].
  rewrite seq_S, filter_app, length_app, IH. simpl.
  rewrite filter_cons, filter_nil. case_decide; simpl; lia.
Qed.

(** With [num_in_house] people to a house, every person with an id below
    [num_houses * num_in_house] gets the house at place [person_id //
    num_in_house]; a person with a greater id gets an [IndexError], and
    [num_in_house = 0] a [ZeroDivisionError]; of houses at different
    locations, each is the home of exactly [num_in_house] of these
    people. *)
Theorem home_allocation houses num_in_house :
  0 < num_in_house ->
  (forall person_id : nat,
     calculate_home_location houses person_id num_in_house =
       location <$> houses !! Z.to_nat (Z.of_nat person_id `div` num_in_house)) /\
  (forall person_id : nat,
     Z.of_nat person_id < Z.of_nat (length houses) * num_in_house <->
     is_Some (calculate_home_location houses person_id num_in_house)) /\
  (NoDup (location <$> houses) ->
   forall i h, houses !! i = Some h ->
     length (filter (fun p => calculate_home_location houses p num_in_house
                              = Some (location h))
                    (seq 0 (length houses * Z.to_nat num_in_house)))
     = Z.to_nat num_in_house) /\
  (forall person_id, calculate_home_location houses person_id 0 = None).
Proof.
  intros Hk.
  assert (forall person_id : nat,
            calculate_home_location houses person_id num_in_house =
              location <$> houses !! Z.to_nat (Z.of_nat person_id `div` num_in_house))
    as Hcalc.
  { intros p. unfold calculate_home_location, getitem.
    rewrite decide_False by lia.
    pose proof (Z.div_pos (Z.of_nat p) num_in_house ltac:(lia) Hk) as Hq.
    rewrite (proj2 (Z.leb_le _ _) Hq). by destruct (houses !! _). }
  split_and!; [done| | |done].
  - intros p. rewrite Hcalc, fmap_is_Some, lookup_lt_is_Some.
    pose proof (Z.div_pos (Z.of_nat p) num_in_house ltac:(lia) Hk) as Hq.
    pose proof (Z.mul_div_le (Z.of_nat p) num_in_house Hk).
    pose proof (Z.mul_succ_div_gt (Z.of_nat p) num_in_house Hk).
    split; intros Hlt; nia.
  - intros Hnd i h Hh.
    pose proof (lookup_lt_Some _ _ _ Hh) as Hi.
    assert (filter (fun p => calculate_home_location houses p num_in_house
                             = Some (location h))
                   (seq 0 (length houses * Z.to_nat num_in_house))
            = filter (fun p => i * Z.to_nat num_in_house <= p
                               < (i + 1) * Z.to_nat num_in_house)%nat
                     (seq 0 (length houses * Z.to_nat num_in_house))) as ->.
    2: { rewrite count_between. nia. }
    apply filter_ext_in.
    + intros p _. rewrite Hcalc.
      pose proof (Z.div_pos (Z.of_nat p) num_in_house ltac:(lia) Hk) as Hq.
      assert (Z.to_nat (Z.of_nat p `div` num_in_house) = i
              <-> (i * Z.to_nat num_in_house <= p < (i + 1) * Z.to_nat num_in_house)%nat)
        as <-.
      { split.
        - intros <-.
          pose proof (Z.mul_div_le (Z.of_nat p) num_in_house Hk).
          pose proof (Z.mul_succ_div_gt (Z.of_nat p) num_in_house Hk). nia.
        - intros [Hlo Hhi].
          assert (Z.of_nat p `div` num_in_house = Z.of_nat i) as ->; [|lia].
          symmetry. apply (Z.div_unique_pos _ _ _ (Z.of_nat p - num_in_house * Z.of_nat i));
            nia. }
      split.
      * intros Hp. eapply (NoDup_lookup _ _ _ (location h) Hnd).
        -- by rewrite list_lookup_fmap.
        -- by rewrite list_lookup_fmap, Hh.
      * intros ->. by rewrite Hh.
Qed.

(** Three houses. *)
Definition three_houses : list building :=
  [Building (1, 0) []; Building (3, 3) []; Building (0, 2) []].

Lemma home_allocation_witness :
  (forall person_id : nat,
     calculate_home_location three_houses person_id 4 =
       location <$> three_houses !! Z.to_nat (Z.of_nat person_id `div` 4)) /\
  (forall person_id : nat,
     Z.of_nat person_id < Z.of_nat (length three_houses) * 4 <->
     is_Some (calculate_home_location three_houses person_id 4)) /\
  (NoDup (location <$> three_houses) ->
   forall i h, three_houses !! i = Some h ->
     length (filter (fun p => calculate_home_location three_houses p 4
                              = Some (location h))
                    (seq 0 (length three_houses * Z.to_nat 4)))
     = Z.to_nat 4) /\
  (forall person_id, calculate_home_location three_houses person_id 0 = None).
Proof. apply (home_allocation three_houses 4). lia. Defined.

End InitialisePeopleFacts.
